(** * wolfictl, package [dag]: the dependency graph of [pkg/dag/graph.go]

    A shallow embedding of [graph.go] and of the parts of the graph library
    it calls ([github.com/dominikbraun/graph]: a directed graph created with
    the traits [Acyclic] and [PreventCycles]), followed by the properties of
    the construction, query and transform operations.

    Conventions.
    - A Go method with a pointer receiver that mutates the graph becomes a
      function that returns the new graph next to its Go results.
    - A Go [error] is a value of type [error]; [None] is [nil].
    - Go maps are iterated in an unspecified order; the model iterates in
      insertion order.  No statement below depends on that order. *)

From stdpp Require Import base option list relations strings gmap.
From Stdlib Require Import Lia.
From Stdlib.Init Require Import Byte.

Open Scope string_scope.
Open Scope list_scope.
Open Scope nat_scope.

Set Warnings "-clear-no-such-hyp".

(** ** Errors *)

(** The sentinel errors of the graph library and of [io/fs]. *)
Inductive sentinel :=
  | ErrVertexAlreadyExists
  | ErrVertexNotFound
  | ErrEdgeAlreadyExists
  | ErrEdgeNotFound
  | ErrEdgeCreatesCycle
  | ErrTargetNotReachable
  | ErrNotExist
  | ErrExternal (what : string).

(** One constructor per [fmt.Errorf] call of [graph.go] (and the two wrapping
    calls of the library's [AddEdge]); the formatted operands are dropped,
    except the scheme of an unsupported key. *)
Inductive site :=
  | LibSourceVertex
  | LibTargetVertex
  | LibCouldNotGetVertex
  | SubpackageVertex
  | SubpackageEdge
  | KeyMaterial
  | LoadRepositories
  | EmptyPackageName
  | UnableToBuildGraph
  | AddDangling
  | UnableToResolve
  | NotInLocalRepository
  | DependencyVertex
  | AddEdgeDependency
  | UnfulfilledDependency
  | NoShortestPath
  | NoPath
  | NoLastEdge
  | NoAttributes
  | RemoveOriginalEdge
  | AddReplacementEdge
  | NoOriginalVertex
  | ReAddOriginalEdge
  | StillCausesCycle
  | KeyParse
  | KeyRead
  | KeyGet
  | KeyReadBody
  | KeySchemeNotSupported (scheme : string).

(** [Errorf s c] is [fmt.Errorf("...: %w", ..., c)] at site [s]; [Join] is
    [errors.Join]. *)
#[warnings="-register-all"]
Inductive error :=
  | Sentinel (s : sentinel)
  | Errorf (s : site) (cause : option error)
  | Join (es : list error).

Global Instance sentinel_eq_dec : EqDecision sentinel.
Proof. solve_decision. Defined.

Global Instance site_eq_dec : EqDecision site.
Proof. solve_decision. Defined.

(** [errors.Is]: walks the chain of wrapped errors. *)
Fixpoint errors_Is (e : error) (t : sentinel) : bool :=
  match e with
  | Sentinel s => bool_decide (s = t)
  | Errorf _ (Some c) => errors_Is c t
  | Errorf _ None => false
  | Join es => existsb (fun e' => errors_Is e' t) es
  end.

(** [err != nil && !errors.Is(err, t)]. *)
Definition failed_other_than (t : sentinel) (err : option error) : option error :=
  match err with
  | Some e => if errors_Is e t then None else Some e
  | None => None
  end.

(** ** Package model *)

(** Modelled from the spec: the package-definition record ([Configuration],
    declared in the package's other files).  Only what [graph.go] reads is
    kept: the name and version the [Package] interface reports, the value of
    [fullVersion(&c.Package)], the names of the subpackages and the
    environment's repositories, keyring and packages. *)
Record Configuration := mkConfiguration {
  cfg_name : string;
  cfg_version : string;
  cfg_fullVersion : string;
  Subpackages : list string;
  Repositories : list string;
  Keyring : list string;
  EnvPackages : list string
}.

(** Modelled from the spec: the identifier of the synthetic local
    repository, which is the source of every origin package. *)
Definition Local : string := "local".

(** Modelled from the spec: the three variants behind the [Package]
    interface (origin, external, dangling); a dangling package has an empty
    version and source. *)
Inductive Package :=
  | origin (c : Configuration)
  | externalPackage (name version source : string)
  | danglingPackage (name : string).

Definition Name (p : Package) : string :=
  match p with
  | origin c => cfg_name c
  | externalPackage n _ _ => n
  | danglingPackage n => n
  end.

Definition Version (p : Package) : string :=
  match p with
  | origin c => cfg_version c
  | externalPackage _ v _ => v
  | danglingPackage _ => ""
  end.

Definition PSource (p : Package) : string :=
  match p with
  | origin _ => Local
  | externalPackage _ _ s => s
  | danglingPackage _ => ""
  end.

(** [fmt.Sprintf("%s:%s@%s", p.Name(), p.Version(), p.Source())] *)
Definition packageHash (p : Package) : string :=
  Name p +:+ ":" +:+ Version p +:+ "@" +:+ PSource p.

(** ** The graph library

    [graph.go] imports [github.com/dominikbraun/graph]; its source is not in
    this repository.  The module below models the operations [graph.go]
    calls, on the in-memory store, as the library documents and implements
    them: vertices are kept by hash, an edge needs both its vertices, a graph
    with [PreventCycles] refuses an edge that [CreatesCycle] reports,
    [CreatesCycle] walks the predecessors of the source depth first,
    [ShortestPath] is Dijkstra's algorithm (every edge weighs [1] in an
    unweighted graph) and [TopologicalSort] is Kahn's algorithm. *)

Module graph.

(** An edge of the store; [Attributes = None] is a nil map. *)
Record Edge := mkEdge {
  Source : string;
  Target : string;
  Attributes : option (list (string * string))
}.

(** The in-memory store: vertices by hash, and the edges. *)
Record Graph := mkGraph {
  vertices : list (string * Package);
  edges : list Edge
}.

(** [graph.New(packageHash, Directed(), Acyclic(), PreventCycles())] *)
Definition New : Graph := mkGraph [] [].

(** [m[k]] on a map kept as an association list. *)
Fixpoint assoc {A} (k : string) (l : list (string * A)) : option A :=
  match l with
  | [] => None
  | (k', a) :: l' => if decide (k' = k) then Some a else assoc k l'
  end.

(** [m[k] = v] on a map kept as an association list. *)
Fixpoint assoc_set {A} (k : string) (v : A) (l : list (string * A))
  : list (string * A) :=
  match l with
  | [] => [(k, v)]
  | (k', a) :: l' =>
      if decide (k' = k) then (k, v) :: l' else (k', a) :: assoc_set k v l'
  end.

(** [g.Vertex(hash)] *)
Definition Vertex (g : Graph) (hash : string) : error + Package :=
  match assoc hash (vertices g) with
  | Some p => inr p
  | None => inl (Sentinel ErrVertexNotFound)
  end.

(** [g.AddVertex(value)] *)
Definition AddVertex (g : Graph) (value : Package) : Graph * option error :=
  let hash := packageHash value in
  match assoc hash (vertices g) with
  | Some _ => (g, Some (Sentinel ErrVertexAlreadyExists))
  | None => (mkGraph (vertices g ++ [(hash, value)]) (edges g), None)
  end.

(** [e] is the edge [s → t]. *)
Definition is_edge (s t : string) (e : Edge) : bool :=
  bool_decide (Source e = s) && bool_decide (Target e = t).

(** The edge [s → t] of the store, if there is one. *)
Definition find_edge (g : Graph) (s t : string) : option Edge :=
  List.find (is_edge s t) (edges g).

(** [g.Edge(source, target)] *)
Definition Edge_ (g : Graph) (s t : string) : error + Edge :=
  match find_edge g s t with
  | Some e => inr e
  | None => inl (Sentinel ErrEdgeNotFound)
  end.

(** The predecessors of [v]: the keys of [PredecessorMap()[v]]. *)
Definition preds (E : list Edge) (v : string) : list string :=
  Source <$> List.filter (fun e => bool_decide (Target e = v)) E.

(** The successors of [v]: the keys of [AdjacencyMap()[v]]. *)
Definition succs (E : list Edge) (v : string) : list string :=
  Target <$> List.filter (fun e => bool_decide (Source e = v)) E.

(** The search of [CreatesCycle]: a depth-first walk over predecessors
    from the source, with an explicit stack and a visited set. *)
Fixpoint dfs (fuel : nat) (E : list Edge) (target : string)
    (stack visited : list string) : bool :=
  match fuel with
  | O => false
  | S fuel' =>
      match stack with
      | [] => false
      | current :: rest =>
          if decide (current ∈ visited) then dfs fuel' E target rest visited
          else if decide (current = target) then true
          else dfs fuel' E target (reverse (preds E current) ++ rest)
                   (current :: visited)
      end
  end.

(** [graph.CreatesCycle(g, source, target)].  The search pops one item per
    round and pushes every edge at most once: one more than the number of
    edges is fuel enough. *)
Definition CreatesCycle (g : Graph) (source target : string) : error + bool :=
  match Vertex g source with
  | inl e => inl (Errorf LibCouldNotGetVertex (Some e))
  | inr _ =>
      match Vertex g target with
      | inl e => inl (Errorf LibCouldNotGetVertex (Some e))
      | inr _ =>
          if decide (source = target) then inr true
          else inr (dfs (S (length (edges g))) (edges g) target [source] [])
      end
  end.

(** [graph.EdgeAttribute(key, value)] applied to the properties. *)
Definition EdgeAttribute (key value : string)
    (attrs : option (list (string * string))) : option (list (string * string)) :=
  Some (assoc_set key value (default [] attrs)).

(** [g.AddEdge(source, target, options...)] on a graph that prevents
    cycles.  A new edge starts with an empty, non-nil attribute map. *)
Definition AddEdge (g : Graph) (s t : string)
    (options : list (option (list (string * string)) -> option (list (string * string))))
    : Graph * option error :=
  match Vertex g s with
  | inl e => (g, Some (Errorf LibSourceVertex (Some e)))
  | inr _ =>
      match Vertex g t with
      | inl e => (g, Some (Errorf LibTargetVertex (Some e)))
      | inr _ =>
          match find_edge g s t with
          | Some _ => (g, Some (Sentinel ErrEdgeAlreadyExists))
          | None =>
              match CreatesCycle g s t with
              | inl e => (g, Some e)
              | inr true => (g, Some (Sentinel ErrEdgeCreatesCycle))
              | inr false =>
                  let e := mkEdge s t (foldl (fun a o => o a) (Some []) options) in
                  (mkGraph (vertices g) (edges g ++ [e]), None)
              end
          end
      end
  end.

(** [g.RemoveEdge(source, target)] *)
Definition RemoveEdge (g : Graph) (s t : string) : Graph * option error :=
  match find_edge g s t with
  | None => (g, Some (Sentinel ErrEdgeNotFound))
  | Some _ =>
      (mkGraph (vertices g) (List.filter (fun e => negb (is_edge s t e)) (edges g)),
       None)
  end.

(** *** [ShortestPath]: Dijkstra's algorithm with unit weights

    The weight map holds only finite weights: a key that is absent has
    weight [+Inf]. *)

(** [a < b] on weights, [None] being [+Inf]. *)
Definition wlt (a b : option nat) : bool :=
  match a, b with
  | Some x, Some y => bool_decide (x < y)
  | Some _, None => true
  | None, _ => false
  end.

(** The item of least priority in [best :: q]. *)
Fixpoint min_vertex (w : gmap string nat) (best : string) (q : list string)
  : string :=
  match q with
  | [] => best
  | v :: q' =>
      if wlt (w !! v) (w !! best) then min_vertex w v q' else min_vertex w best q'
  end.

(** [q] without the first occurrence of [v]. *)
Fixpoint remove_first (v : string) (q : list string) : list string :=
  match q with
  | [] => []
  | x :: q' => if decide (x = v) then q' else x :: remove_first v q'
  end.

(** [queue.Pop()] *)
Definition pop_min (w : gmap string nat) (q : list string)
  : option (string * list string) :=
  match q with
  | [] => None
  | v :: q' => let m := min_vertex w v q' in Some (m, remove_first m q)
  end.

(** The body of the loop over [adjacencyMap[vertex]]. *)
Definition relax (vertex : string) (hasInfiniteWeight : bool)
    (st : gmap string nat * gmap string string) (adjacency : string)
  : gmap string nat * gmap string string :=
  let '(weights, bestPredecessors) := st in
  let weight := (fun x => x + 1) <$> (weights !! vertex) in
  if wlt weight (weights !! adjacency) && negb hasInfiniteWeight then
    match weight with
    | Some x => (<[adjacency := x]> weights, <[adjacency := vertex]> bestPredecessors)
    | None => st
    end
  else st.

(** [for queue.Len() > 0 { vertex, _ := queue.Pop(); ... }]; every round
    pops one item, so the length of the queue is fuel enough. *)
Fixpoint dijkstra (fuel : nat) (E : list Edge) (q : list string)
    (st : gmap string nat * gmap string string)
  : gmap string nat * gmap string string :=
  match fuel with
  | O => st
  | S fuel' =>
      match pop_min st.1 q with
      | None => st
      | Some (vertex, q') =>
          let hasInfiniteWeight := bool_decide (st.1 !! vertex = None) in
          dijkstra fuel' E q'
            (foldl (relax vertex hasInfiniteWeight) st (succs E vertex))
      end
  end.

(** [for current != source { ... path = append([]K{current}, path...) }] *)
Fixpoint backtrack (fuel : nat) (bestPredecessors : gmap string string)
    (source current : string) (path : list string) : error + list string :=
  if decide (current = source) then inr path
  else
    match fuel with
    | O => inl (Sentinel ErrTargetNotReachable)
    | S fuel' =>
        match bestPredecessors !! current with
        | None => inl (Sentinel ErrTargetNotReachable)
        | Some p => backtrack fuel' bestPredecessors source p (p :: path)
        end
    end.

(** [graph.ShortestPath(g, source, target)].  The walk back from the
    target goes down in weight at every step, so the weight of the target
    bounds its length. *)
Definition ShortestPath (g : Graph) (source target : string)
  : error + list string :=
  let V := (vertices g).*1 in
  let '(weights, bestPredecessors) :=
    dijkstra (length V) (edges g) V ({[ source := 0 ]}, ∅) in
  backtrack (S (default 0 (weights !! target))) bestPredecessors
    source target [target].

(** *** [TopologicalSort]: Kahn's algorithm *)

(** The body of the loop over the targets of [currentVertex]. *)
Definition release (currentVertex : string)
    (st : gmap string (gset string) * list string) (target : string)
  : gmap string (gset string) * list string :=
  let '(predecessorMap, queue) := st in
  let predecessors := default ∅ (predecessorMap !! target) ∖ {[ currentVertex ]} in
  if decide (predecessors = ∅)
  then (delete target predecessorMap, queue ++ [target])
  else (<[target := predecessors]> predecessorMap, queue).

(** [for len(queue) > 0 { ... }]; a vertex is queued at most once, so
    the number of vertices is fuel enough. *)
Fixpoint kahn (fuel : nat) (E : list Edge)
    (predecessorMap : gmap string (gset string)) (queue order : list string)
  : list string * list string :=
  match fuel with
  | O => (order, queue)
  | S fuel' =>
      match queue with
      | [] => (order, queue)
      | currentVertex :: queue' =>
          let '(predecessorMap', queue'') :=
            foldl (release currentVertex) (predecessorMap, queue')
              (succs E currentVertex) in
          kahn fuel' E predecessorMap' queue'' (order ++ [currentVertex])
      end
  end.

(** The error of [TopologicalSort] when the order misses vertices. *)
Definition TopologicalSortCycles : error :=
  Sentinel (ErrExternal "topological sort cannot be computed on graph with cycles").

(** [graph.TopologicalSort(g)].  The first loop moves every vertex without
    predecessors from the predecessor map to the queue. *)
Definition TopologicalSort (g : Graph) : error + list string :=
  let V := (vertices g).*1 in
  let E := edges g in
  let queue := List.filter (fun v => bool_decide (preds E v = [])) V in
  let predecessorMap : gmap string (gset string) :=
    list_to_map ((fun v => (v, list_to_set (preds E v))) <$>
                 List.filter (fun v => negb (bool_decide (preds E v = []))) V) in
  let '(order, _) := kahn (length V) E predecessorMap queue [] in
  if decide (length order = length V) then inr order
  else inl TopologicalSortCycles.

End graph.

(** ** The [Graph] of wolfictl *)

(** [cycle]: a pair of vertices whose edge would close a cycle. *)
Record cycle := mkCycle { src : string; target : string }.

(** Modelled from the spec: [graphOptions], declared in the package's other
    files: the flag for unresolved dependencies and the additional
    repositories and keys. *)
Record graphOptions := mkOptions {
  allowUnresolved : bool;
  repos : list string;
  keys : list string
}.

(** Modelled from the spec: the package-definition store ([Packages]),
    declared in the package's other files: [Packages()] and
    [Config(name, false)]. *)
Record Packages := mkPackages {
  Packages_ : list Configuration;
  Config : string -> list Configuration
}.

(** What [graph.go] reads of a candidate [r] that the resolver returns:
    [r.Name], [r.Version], [r.Repository().IndexUri()] and
    [r.Repository().Uri]. *)
Record RepositoryPackage := mkRepositoryPackage {
  rp_Name : string;
  rp_Version : string;
  rp_IndexUri : string;
  rp_Uri : string
}.

(** [apko.PkgResolver], by its one method [ResolvePackage]. *)
Record PkgResolver := mkPkgResolver {
  ResolvePackage : string -> list RepositoryPackage * option error
}.

(** [Graph]: the store of the library, the package store, the options and
    the hashes known for every name. *)
Record Graph := mkG {
  Graph_ : graph.Graph;
  packages : Packages;
  opts : graphOptions;
  byName : gmap string (list string)
}.

(** [g] after a call of the library that left the store [s]. *)
Definition with_store (g : Graph) (s : graph.Graph) : Graph :=
  mkG s (packages g) (opts g) (byName g).

(** [newGraph()] *)
Definition newGraph : graph.Graph := graph.New.

(** [(g *Graph) addVertex(pkg)] *)
Definition addVertex (g : Graph) (pkg : Package) : Graph * option error :=
  match graph.AddVertex (Graph_ g) pkg with
  | (_, Some err) => (g, Some err)
  | (s, None) =>
      (mkG s (packages g) (opts g)
         (<[Name pkg := default [] (byName g !! Name pkg) ++ [packageHash pkg]]> (byName g)),
       None)
  end.

(** [(g *Graph) addDanglingPackage(name, parent)] *)
Definition addDanglingPackage (g : Graph) (name : string) (parent : Package)
  : Graph * option error :=
  let pkg := danglingPackage name in
  let '(g1, err) := addVertex g pkg in
  match failed_other_than ErrVertexAlreadyExists err with
  | Some e => (g1, Some e)
  | None =>
      let '(s, err) := graph.AddEdge (Graph_ g1) (packageHash parent) (packageHash pkg) [] in
      (with_store g1 s, failed_other_than ErrEdgeAlreadyExists err)
  end.

(** The guard at the head of the candidate loop:
    [r.Version == c.Version() && dep == c.Name()]. *)
Definition isMyself (r : RepositoryPackage) (c : Package) (dep : string) : bool :=
  bool_decide (rp_Version r = Version c) && bool_decide (dep = Name c).

(** The package a candidate stands for: the local configuration of the
    resolved version, or an external package. [pkg] is the loop variable. *)
Definition candidatePackage (g : Graph) (pkg : option Package)
    (r : RepositoryPackage) (localRepo : string) : error + Package :=
  let resolvedSource := rp_IndexUri r in
  if decide (resolvedSource = localRepo) then
    let configs := Config (packages g) (rp_Name r) in
    if decide (length configs = 0) then inl (Errorf NotInLocalRepository None)
    else
      let pkg' :=
        match List.find (fun config => bool_decide (cfg_fullVersion config = rp_Version r)) configs with
        | Some config => Some (origin config)
        | None => pkg
        end in
      match pkg' with
      | None => inl (Errorf NotInLocalRepository None)
      | Some p => inr p
      end
  else inr (externalPackage (rp_Name r) (rp_Version r) (rp_Uri r)).

(** How the candidate loop ends: by a [return], or by running out of
    candidates with the loop variables as they are. *)
Inductive scanned :=
  | Returned (g : Graph) (cy : option cycle) (err : option error)
  | Exhausted (g : Graph) (pkg : option Package) (cycleTarget : string).

(** [for _, r := range resolved { ... }] of [addAppropriatePackage]. *)
Fixpoint scan (resolved : list RepositoryPackage) (g : Graph)
    (pkg : option Package) (cycleTarget : string)
    (c : Package) (dep localRepo : string) : scanned :=
  match resolved with
  | [] => Exhausted g pkg cycleTarget
  | r :: rest =>
      if isMyself r c dep then scan rest g pkg cycleTarget c dep localRepo
      else
        match candidatePackage g pkg r localRepo with
        | inl e => Returned g None (Some e)
        | inr p =>
            let '(g1, err) := addVertex g p in
            match failed_other_than ErrVertexAlreadyExists err with
            | Some e => Returned g1 None (Some (Errorf DependencyVertex (Some e)))
            | None =>
                let target := packageHash p in
                match graph.CreatesCycle (Graph_ g1) (packageHash c) target with
                | inl _ | inr true =>
                    scan rest g1 None
                      (if decide (cycleTarget = "") then target else cycleTarget)
                      c dep localRepo
                | inr false =>
                    let '(s, err) :=
                      graph.AddEdge (Graph_ g1) (packageHash c) target
                        [graph.EdgeAttribute "target-origin" dep] in
                    match failed_other_than ErrEdgeAlreadyExists err with
                    | None => Returned (with_store g1 s) None None
                    | Some e =>
                        Returned (with_store g1 s) None
                          (Some (Errorf AddEdgeDependency (Some e)))
                    end
                end
            end
        end
  end.

(** [(g *Graph) addAppropriatePackage(resolver, c, dep, localRepo)] *)
Definition addAppropriatePackage (g : Graph) (resolver : PkgResolver)
    (c : Package) (dep localRepo : string)
  : Graph * option cycle * option error :=
  let '(resolved, err) := ResolvePackage resolver dep in
  if bool_decide (err ≠ None ∨ length resolved = 0) then
    if allowUnresolved (opts g) then
      match addDanglingPackage g dep c with
      | (g1, Some e) => (g1, None, Some (Errorf AddDangling (Some e)))
      | (g1, None) => (g1, None, None)
      end
    else (g, None, Some (Errorf UnableToResolve err))
  else
    match scan resolved g None "" c dep localRepo with
    | Returned g1 cy e => (g1, cy, e)
    | Exhausted g1 (Some _) _ => (g1, None, None)
    | Exhausted g1 None cycleTarget =>
        if negb (bool_decide (cycleTarget = "")) then
          (g1, Some (mkCycle (packageHash c) cycleTarget), None)
        else if negb (allowUnresolved (opts g1)) then
          (g1, None, Some (Errorf UnfulfilledDependency None))
        else
          match addDanglingPackage g1 dep c with
          | (g2, Some e) => (g2, None, Some (Errorf AddDangling (Some e)))
          | (g2, None) => (g2, None, None)
          end
    end.

(** [edge.Properties.Attributes["target-origin"]]: the zero value when the
    key is absent. *)
Definition attribute (attrs : list (string * string)) (key : string) : string :=
  default "" (graph.assoc key attrs).

(** [(g *Graph) resolveCycle(c, dep, resolver, localRepoSource)] *)
Definition resolveCycle (g : Graph) (c : cycle) (dep : string)
    (resolver : PkgResolver) (localRepoSource : string) : Graph * option error :=
  match graph.ShortestPath (Graph_ g) (target c) (src c) with
  | inl err => (g, Some (Errorf NoShortestPath (Some err)))
  | inr sp =>
      if decide (length sp < 2) then (g, Some (Errorf NoPath None))
      else
        let removeSrc := default "" (sp !! (length sp - 2)) in
        let removeTarget := default "" (sp !! (length sp - 1)) in
        match graph.Edge_ (Graph_ g) removeSrc removeTarget with
        | inl err => (g, Some (Errorf NoLastEdge (Some err)))
        | inr edge =>
            match graph.Attributes edge with
            | None => (g, Some (Errorf NoAttributes None))
            | Some attrs =>
                let origDep := attribute attrs "target-origin" in
                match graph.RemoveEdge (Graph_ g) removeSrc removeTarget with
                | (s1, Some err) =>
                    (with_store g s1, Some (Errorf RemoveOriginalEdge (Some err)))
                | (s1, None) =>
                    match graph.AddEdge s1 (src c) (target c)
                            [graph.EdgeAttribute "target-origin" dep] with
                    | (s2, Some err) =>
                        (with_store g s2, Some (Errorf AddReplacementEdge (Some err)))
                    | (s2, None) =>
                        let g2 := with_store g s2 in
                        match graph.Vertex s2 removeSrc with
                        | inl err => (g2, Some (Errorf NoOriginalVertex (Some err)))
                        | inr config =>
                            match addAppropriatePackage g2 resolver config origDep
                                    localRepoSource with
                            | (g3, _, Some err) =>
                                (g3, Some (Errorf ReAddOriginalEdge (Some err)))
                            | (g3, Some _, None) =>
                                (g3, Some (Errorf StillCausesCycle None))
                            | (g3, None, None) => (g3, None)
                            end
                        end
                    end
                end
            end
        end
  end.

(** ** Query layer *)

(** [for i, n := range nodes { pkgs[i], err = g.Graph.Vertex(n) ... }] *)
Fixpoint lookup_all (s : graph.Graph) (nodes : list string) : error + list Package :=
  match nodes with
  | [] => inr []
  | n :: nodes' =>
      match graph.Vertex s n with
      | inl err => inl err
      | inr p =>
          match lookup_all s nodes' with
          | inl err => inl err
          | inr ps => inr (p :: ps)
          end
      end
  end.

(** [(g Graph) Sorted()] *)
Definition Sorted (g : Graph) : error + list Package :=
  match graph.TopologicalSort (Graph_ g) with
  | inl err => inl err
  | inr nodes => lookup_all (Graph_ g) nodes
  end.

(** [pkgs[i], pkgs[j] = pkgs[j], pkgs[i]] *)
Definition swap {A} (i j : Z) (l : list A) : list A :=
  match l !! Z.to_nat i, l !! Z.to_nat j with
  | Some a, Some b => <[Z.to_nat j := a]> (<[Z.to_nat i := b]> l)
  | _, _ => l
  end.

(** [for i, j := 0, len(pkgs)-1; i < j; i, j = i+1, j-1 { ... }]; the two
    indices meet after at most [len(pkgs)] rounds. *)
Fixpoint reverse_loop {A} (fuel : nat) (i j : Z) (pkgs : list A) : list A :=
  match fuel with
  | O => pkgs
  | S fuel' =>
      if bool_decide (i < j)%Z
      then reverse_loop fuel' (i + 1)%Z (j - 1)%Z (swap i j pkgs)
      else pkgs
  end.

(** [(g Graph) ReverseSorted()] *)
Definition ReverseSorted (g : Graph) : error + list Package :=
  match Sorted g with
  | inl err => inl err
  | inr pkgs => inr (reverse_loop (length pkgs) 0%Z (Z.of_nat (length pkgs) - 1)%Z pkgs)
  end.

(** [sort.Strings]: strings in increasing order, byte by byte.  The sorted
    arrangement of a list of strings is unique ([sorted_unique] below), so
    the algorithm does not matter; this one inserts. *)
Fixpoint insert_sorted (x : string) (l : list string) : list string :=
  match l with
  | [] => [x]
  | y :: l' => if String.leb x y then x :: l else y :: insert_sorted x l'
  end.

Definition sort_Strings (l : list string) : list string :=
  foldr insert_sorted [] l.

(** [(g Graph) DependenciesOf(node)]: the adjacency map has an entry for
    every vertex, and for nothing else. *)
Definition DependenciesOf (g : Graph) (node : string) : list string :=
  match graph.assoc node (graph.vertices (Graph_ g)) with
  | Some _ => sort_Strings (graph.succs (graph.edges (Graph_ g)) node)
  | None => []
  end.

(** [(g Graph) Nodes()] *)
Definition Nodes (g : Graph) : error + list string :=
  inr (sort_Strings (graph.vertices (Graph_ g)).*1).

(** [(g Graph) NodesByName(name)]: the same loop of lookups as in
    [Sorted], over [g.byName[name]]. *)
Definition NodesByName (g : Graph) (name : string) : error + list Package :=
  lookup_all (Graph_ g) (default [] (byName g !! name)).

(** ** Transform layer *)

(** The first pass of [Filter]: the vertices that pass the filter. *)
Fixpoint filter_vertices (g : Graph) (filter : Package -> bool)
    (nodes : list string) (subgraph : Graph) : error + Graph :=
  match nodes with
  | [] => inr subgraph
  | node :: nodes' =>
      match graph.Vertex (Graph_ g) node with
      | inl err => inl err
      | inr vertex =>
          if negb (filter vertex) then filter_vertices g filter nodes' subgraph
          else
            let '(subgraph', err) := addVertex subgraph vertex in
            match failed_other_than ErrVertexAlreadyExists err with
            | Some e => inl e
            | None => filter_vertices g filter nodes' subgraph'
            end
      end
  end.

(** The inner loop of the second pass: [for dep, edge := range deps]. *)
Fixpoint filter_deps (deps : list graph.Edge) (subgraph : Graph) : error + Graph :=
  match deps with
  | [] => inr subgraph
  | edge :: deps' =>
      match graph.Vertex (Graph_ subgraph) (graph.Target edge) with
      | inl _ => filter_deps deps' subgraph
      | inr _ =>
          let '(s, err) :=
            graph.AddEdge (Graph_ subgraph) (graph.Source edge) (graph.Target edge) [] in
          match failed_other_than ErrEdgeAlreadyExists err with
          | Some e => inl e
          | None => filter_deps deps' (with_store subgraph s)
          end
      end
  end.

(** [adjacencyMap[node]]: the edges that leave [node]. *)
Definition adjacency (s : graph.Graph) (node : string) : list graph.Edge :=
  List.filter (fun e => bool_decide (graph.Source e = node)) (graph.edges s).

(** The second pass of [Filter]: the edges between kept vertices. *)
Fixpoint filter_edges (g : Graph) (nodes : list string) (subgraph : Graph)
  : error + Graph :=
  match nodes with
  | [] => inr subgraph
  | node :: nodes' =>
      match graph.Vertex (Graph_ subgraph) node with
      | inl _ => filter_edges g nodes' subgraph
      | inr _ =>
          match filter_deps (adjacency (Graph_ g) node) subgraph with
          | inl e => inl e
          | inr subgraph' => filter_edges g nodes' subgraph'
          end
      end
  end.

(** [(g Graph) Filter(filter)] *)
Definition Filter (g : Graph) (filter : Package -> bool) : error + Graph :=
  let subgraph := mkG newGraph (packages g) (opts g) ∅ in
  let nodes := (graph.vertices (Graph_ g)).*1 in
  match filter_vertices g filter nodes subgraph with
  | inl err => inl err
  | inr subgraph1 => filter_edges g nodes subgraph1
  end.

(** [FilterSources(source...)] *)
Definition FilterSources (source : list string) (p : Package) : bool :=
  existsb (fun s => bool_decide (PSource p = s)) source.

(** [FilterNotSources(source...)] *)
Definition FilterNotSources (source : list string) (p : Package) : bool :=
  negb (existsb (fun s => bool_decide (PSource p = s)) source).

(** [FilterLocal()] *)
Definition FilterLocal : Package -> bool := FilterSources [Local].

(** [FilterNotLocal()] *)
Definition FilterNotLocal : Package -> bool := FilterNotSources [Local].

(** ** Construction engine *)

(** What [getKeyMaterial] reads of a parsed [url.URL]. *)
Record URL := mkURL { Scheme : string; url_String : string }.

(** The collaborators of the construction: the index loader and resolver of
    apko, the local repository view of the package store, the URI parsers,
    the file system and the HTTP client. *)
Record World := mkWorld {
  NamedIndex : Type;
  index_Source : NamedIndex -> string;
  GetRepositoryIndexes :
    list string -> gmap string (list byte) -> string -> error + list NamedIndex;
  NewPkgResolver : list NamedIndex -> PkgResolver;
  Repository : Packages -> string -> NamedIndex;
  uri_Parse : string -> error + string;
  uri_New : string -> string;
  url_Parse : string -> error + URL;
  os_ReadFile : string -> error + list byte;
  http_Get : string -> error + (error + list byte)
}.

Section construction.

Context (W : World).

(** [getKeyMaterial(key)]: the bytes ([None] is a nil slice) and the error. *)
Definition getKeyMaterial (key : string) : option (list byte) * option error :=
  match (if String.prefix "https://" key then uri_Parse W key
         else inr (uri_New W key)) with
  | inl err => (None, Some (Errorf KeyParse (Some err)))
  | inr asURI =>
      match url_Parse W asURI with
      | inl err => (None, Some (Errorf KeyParse (Some err)))
      | inr asURL =>
          if decide (Scheme asURL = "file") then
            match os_ReadFile W key with
            | inl err =>
                if negb (errors_Is err ErrNotExist)
                then (None, Some (Errorf KeyRead (Some err)))
                else (None, None)
            | inr b => (Some b, None)
            end
          else if decide (Scheme asURL = "https") then
            match http_Get W (url_String asURL) with
            | inl err => (None, Some (Errorf KeyGet (Some err)))
            | inr (inl err) => (None, Some (Errorf KeyReadBody (Some err)))
            | inr (inr b) => (Some b, None)
            end
          else (None, Some (Errorf (KeySchemeNotSupported (Scheme asURL)) None))
      end
  end.

(** The body of the loop over the versions of one subpackage. *)
Definition subpackage_step (c : Configuration) (version : string)
    (st : Graph * list error) (subpkgVersion : Configuration)
  : Graph * list error :=
  let '(g, errs) := st in
  if decide (cfg_fullVersion subpkgVersion = version) then st
  else
    let '(g1, err) := addVertex g (origin subpkgVersion) in
    match failed_other_than ErrVertexAlreadyExists err with
    | Some e => (g1, errs ++ [Errorf SubpackageVertex (Some e)])
    | None =>
        let '(s, err) :=
          graph.AddEdge (Graph_ g1) (packageHash (origin subpkgVersion))
            (packageHash (origin c)) [] in
        match failed_other_than ErrEdgeAlreadyExists err with
        | Some e => (with_store g1 s, errs ++ [Errorf SubpackageEdge (Some e)])
        | None => (with_store g1 s, errs)
        end
    end.

(** [for i := range c.Subpackages { ... }] *)
Definition add_subpackages (pkgs : Packages) (c : Configuration)
    (st : Graph * list error) : Graph * list error :=
  foldl (fun st name => foldl (subpackage_step c (cfg_fullVersion c)) st (Config pkgs name))
    st (Subpackages c).

(** [for _, repo := range append(origRepos, opts.repos...) { ... }]: the
    repositories still to load, and the indexes already loaded. *)
Definition split_repos (indexes : gmap string (NamedIndex W)) (all : list string)
  : list string * list (NamedIndex W) :=
  foldl (fun '(repos, lookupRepos) repo =>
           match indexes !! repo with
           | None => (repos ++ [repo], lookupRepos)
           | Some index => (repos, lookupRepos ++ [index])
           end) ([], []) all.

(** [for _, key := range append(origKeys, opts.keys...) { ... }] *)
Fixpoint load_keys (all : list string) (keyMap : gmap string (list byte))
  : error + gmap string (list byte) :=
  match all with
  | [] => inr keyMap
  | key :: rest =>
      match getKeyMaterial key with
      | (_, Some err) => inl (Errorf KeyMaterial (Some err))
      | (Some b, None) => load_keys rest (<[key := b]> keyMap)
      | (None, None) => load_keys rest keyMap
      end
  end.

(** [if len(repos) > 0 { ... }]: loads the missing indexes into the cache
    and adds them to the indexes to look up. *)
Definition load_repos (indexes : gmap string (NamedIndex W))
    (repos : list string) (lookupRepos : list (NamedIndex W))
    (keyMap : gmap string (list byte)) (arch : string)
  : error + (gmap string (NamedIndex W) * list (NamedIndex W)) :=
  if decide (0 < length repos) then
    match GetRepositoryIndexes W repos keyMap arch with
    | inl e => inl (Errorf LoadRepositories (Some e))
    | inr loadedRepos =>
        inr (foldl (fun ix repo => <[index_Source W repo := repo]> ix)
               indexes loadedRepos,
             lookupRepos ++ loadedRepos)
    end
  else inr (indexes, lookupRepos).

(** The body of the loop over [c.Environment.Contents.Packages]. *)
Definition dependency_step (resolver : PkgResolver) (c : Configuration)
    (localRepoSource : string) (st : Graph * list error) (buildDep : string)
  : Graph * list error :=
  let '(g, errs) := st in
  if decide (buildDep = "") then (g, errs ++ [Errorf EmptyPackageName None])
  else
    match addAppropriatePackage g resolver (origin c) buildDep localRepoSource with
    | (g1, _, Some err) => (g1, errs ++ [err])
    | (g1, None, None) => (g1, errs)
    | (g1, Some cy, None) =>
        match resolveCycle g1 cy buildDep resolver localRepoSource with
        | (g2, Some err) => (g2, errs ++ [err])
        | (g2, None) => (g2, errs)
        end
    end.

(** The state of the main loop: the graph, the cache of indexes and the
    errors so far. *)
Definition build_state : Type :=
  Graph * gmap string (NamedIndex W) * list error.

(** The body of the main loop, for one origin package; [inl] is a
    [return nil, err] out of [NewGraph]. *)
Definition package_step (pkgs : Packages) (o : graphOptions)
    (st : build_state) (c : Configuration) : error + build_state :=
  let '(g, indexes, errs) := st in
  let '(g0, err) := addVertex g (origin c) in
  match failed_other_than ErrVertexAlreadyExists err with
  | Some e => inr (g0, indexes, errs ++ [e])
  | None =>
      let '(g1, errs1) := add_subpackages pkgs c (g0, errs) in
      let arch := "x86_64" in
      let '(repos, lookupRepos) := split_repos indexes (Repositories c ++ repos o) in
      match load_keys (Keyring c ++ keys o) ∅ with
      | inl e => inl e
      | inr keyMap =>
          match load_repos indexes repos lookupRepos keyMap arch with
          | inl e => inl e
          | inr (indexes', lookupRepos') =>
              let localRepo := Repository W pkgs arch in
              let resolver := NewPkgResolver W (lookupRepos' ++ [localRepo]) in
              let localRepoSource := index_Source W localRepo in
              let '(g2, errs2) :=
                foldl (dependency_step resolver c localRepoSource) (g1, errs1)
                  (EnvPackages c) in
              inr (g2, indexes', errs2)
          end
      end
  end.

(** [for _, c := range pkgs.Packages() { ... }] *)
Fixpoint build (pkgs : Packages) (o : graphOptions)
    (cs : list Configuration) (st : build_state) : error + build_state :=
  match cs with
  | [] => inr st
  | c :: cs' =>
      match package_step pkgs o st c with
      | inl e => inl e
      | inr st' => build pkgs o cs' st'
      end
  end.

(** [for _, option := range options { ... }] *)
Fixpoint apply_options (options : list (graphOptions -> graphOptions * option error))
    (o : graphOptions) : error + graphOptions :=
  match options with
  | [] => inr o
  | option :: rest =>
      match option o with
      | (_, Some err) => inl err
      | (o', None) => apply_options rest o'
      end
  end.

(** [NewGraph(pkgs, options...)] *)
Definition NewGraph (pkgs : Packages)
    (options : list (graphOptions -> graphOptions * option error))
  : option Graph * option error :=
  match apply_options options (mkOptions false [] []) with
  | inl err => (None, Some err)
  | inr o =>
      let g := mkG newGraph pkgs o ∅ in
      match build pkgs o (Packages_ pkgs) (g, ∅, []) with
      | inl err => (None, Some err)
      | inr (g', _, errs) =>
          if decide (errs ≠ [])
          then (None, Some (Errorf UnableToBuildGraph (Some (Join errs))))
          else (Some g', None)
      end
  end.

End construction.

(** ** Properties of a store *)

(** [edge_rel s u v]: the store has the edge [u → v]. *)
Definition edge_rel (s : graph.Graph) (u v : string) : Prop :=
  ∃ e, e ∈ graph.edges s ∧ graph.Source e = u ∧ graph.Target e = v.

(** No vertex is reachable from itself over a non-empty path. *)
Definition acyclic (s : graph.Graph) : Prop :=
  ∀ v, ¬ tc (edge_rel s) v v.

Definition vkeys (s : graph.Graph) : list string := (graph.vertices s).*1.

Definition ends (e : graph.Edge) : string * string :=
  (graph.Source e, graph.Target e).

(** The invariant of every store built through the library: vertices are
    stored under their hash, once; edges join vertices, at most one per
    pair; and there is no cycle. *)
Record wf (s : graph.Graph) : Prop := mkWf {
  wf_hash : ∀ k p, (k, p) ∈ graph.vertices s → k = packageHash p;
  wf_keys : NoDup (vkeys s);
  wf_ends : ∀ e, e ∈ graph.edges s →
            graph.Source e ∈ vkeys s ∧ graph.Target e ∈ vkeys s;
  wf_edges : NoDup (ends <$> graph.edges s);
  wf_acyclic : acyclic s
}.

(** [before u v l]: [u] occurs in [l] at a position before one of [v]. *)
Definition before {A} (u v : A) (l : list A) : Prop :=
  ∃ l1 l2 l3, l = l1 ++ u :: l2 ++ v :: l3.

(** The edges whose target the search of [CreatesCycle] has not visited:
    the work it has left. *)
Definition unvisited (E : list graph.Edge) (visited : list string)
  : list graph.Edge :=
  List.filter (fun e => negb (bool_decide (graph.Target e ∈ visited))) E.

(** The graph a candidate loop leaves behind. *)
Definition scanned_graph (r : scanned) : Graph :=
  match r with
  | Returned g _ _ => g
  | Exhausted g _ _ => g
  end.

(** [quiet g g']: [g'] is [g] with, at most, more vertices. *)
Definition quiet (g g' : Graph) : Prop :=
  packages g' = packages g ∧ opts g' = opts g ∧
  (∀ k, k ∈ vkeys (Graph_ g) → k ∈ vkeys (Graph_ g')) ∧
  graph.edges (Graph_ g') = graph.edges (Graph_ g).

(** [grows c g g']: [g'] is [g] with, at most, more vertices and one more
    edge, which leaves [c] and closes no cycle. *)
Definition grows (c : string) (g g' : Graph) : Prop :=
  packages g' = packages g ∧ opts g' = opts g ∧
  (∀ k, k ∈ vkeys (Graph_ g) → k ∈ vkeys (Graph_ g')) ∧
  (graph.edges (Graph_ g') = graph.edges (Graph_ g) ∨
   ∃ e, graph.edges (Graph_ g') = graph.edges (Graph_ g) ++ [e] ∧
        graph.Source e = c ∧ ¬ rtc (edge_rel (Graph_ g)) (graph.Target e) c).

(** ** Scenarios

    Concrete package sets, with a package store and a resolver that know
    only the local packages: every dependency name resolves to the local
    packages of that name, in the order of the store. *)
Module Scenario.

Definition cfg (n v : string) (deps : list string) : Configuration :=
  mkConfiguration n v v [] [] [] deps.

Definition localIndex : string := "local-index".

Definition store_of (l : list Configuration) : Packages :=
  mkPackages l (fun n => List.filter (fun c => bool_decide (cfg_name c = n)) l).

Definition candidate (c : Configuration) : RepositoryPackage :=
  mkRepositoryPackage (cfg_name c) (cfg_fullVersion c) localIndex "local-uri".

Definition local_resolver (l : list Configuration) : PkgResolver :=
  mkPkgResolver (fun dep =>
    (candidate <$> List.filter (fun c => bool_decide (cfg_name c = dep)) l, None)).

(** No repository is ever loaded; the only key is a missing local file. *)
Definition world (resolver : PkgResolver) : World :=
  mkWorld unit (fun _ => localIndex)
    (fun _ _ _ => inr [])
    (fun _ => resolver)
    (fun _ _ => tt)
    (fun s => inr s)
    (fun s => "file://" +:+ s)
    (fun s => if String.prefix "https://" s then inr (mkURL "https" s)
              else if String.prefix "file://" s then inr (mkURL "file" s)
              else inr (mkURL "ftp" s))
    (fun _ => inl (Sentinel ErrNotExist))
    (fun _ => inl (Sentinel (ErrExternal "no network"))).


(** [A] depends on [B], [B] depends on [C]. *)
Definition abc : list Configuration :=
  [cfg "A" "1" ["B"]; cfg "B" "1" ["C"]; cfg "C" "1" []].

(** The graph of [abc], or the empty graph if its construction fails. *)
Definition abc_graph : Graph :=
  default (mkG newGraph (store_of abc) (mkOptions false [] []) ∅)
    (NewGraph (world (local_resolver abc)) (store_of abc) []).1.

End Scenario.

(** [foo-1.0] asks for the command [cmd:foo]; the resolver answers with the
    package [foo-1.0] of an upstream repository. *)
Module SelfProvided.

Definition foo : Package := origin (Scenario.cfg "foo" "1.0" ["cmd:foo"]).

Definition upstream : RepositoryPackage :=
  mkRepositoryPackage "foo" "1.0" "https://repo/APKINDEX" "https://repo".

Definition resolver : PkgResolver :=
  mkPkgResolver (fun dep =>
    if decide (dep = "cmd:foo") then ([upstream], None) else ([], None)).

Definition g0 : Graph :=
  (addVertex (mkG newGraph (Scenario.store_of []) (mkOptions false [] []) ∅) foo).1.

End SelfProvided.

(** Two packages, each with a dependency that cannot be added: an empty
    name, and a name that nothing provides. *)
Module TwoErrors.

Definition pkgs : list Configuration :=
  [Scenario.cfg "X" "1" [""]; Scenario.cfg "Y" "1" ["nope"]].

Definition W : World := Scenario.world (Scenario.local_resolver pkgs).

Definition start : Graph :=
  mkG newGraph (Scenario.store_of pkgs) (mkOptions false [] []) ∅.

Definition errs : list error :=
  [Errorf EmptyPackageName None; Errorf UnableToResolve None].


End TwoErrors.

(** Two versions of a package [A] with a subpackage [S]; [A-1] also needs
    [S] to build, and the resolver offers [S-2] for it. *)
Module SubpackageCycle.

Definition A1 : Configuration := mkConfiguration "A" "1" "1" ["S"] [] [] ["S"].
Definition A2 : Configuration := mkConfiguration "A" "2" "2" ["S"] [] [] [].
Definition S1 : Configuration := mkConfiguration "S" "1" "1" [] [] [] [].
Definition S2 : Configuration := mkConfiguration "S" "2" "2" [] [] [] [].

Definition store : Packages :=
  mkPackages [A1; A2]
    (fun n => if decide (n = "A") then [A1; A2]
              else if decide (n = "S") then [S1; S2] else []).

Definition resolver : PkgResolver :=
  mkPkgResolver (fun dep =>
    if decide (dep = "S") then ([Scenario.candidate S2], None) else ([], None)).

Definition start : Graph := mkG newGraph store (mkOptions false [] []) ∅.

(** The graph when [NewGraph] reaches the dependencies of [A-1]: the
    vertices [A-1] and [S-2], and the subpackage edge [S-2 → A-1]. *)
Definition g1 : Graph :=
  (add_subpackages store A1 ((addVertex start (origin A1)).1, [])).1.

Definition pending : cycle := mkCycle "A:1@local" "S:2@local".

End SubpackageCycle.

(** [chain R l]: every element of [l] is related to the next one. *)
Fixpoint chain {A} (R : relation A) (l : list A) : Prop :=
  match l with
  | a :: ((b :: _) as l') => R a b ∧ chain R l'
  | _ => True
  end.

(** [climbs E w a b]: [a → b] is an edge of [E] along which the weight
    [w], finite at both ends, goes up. *)
Definition climbs (E : list graph.Edge) (w : gmap string nat) (a b : string)
  : Prop :=
  ∃ x y, w !! a = Some x ∧ w !! b = Some y ∧ x < y ∧
         ∃ e, e ∈ E ∧ graph.Source e = a ∧ graph.Target e = b.

(** The invariant of Dijkstra's loop that the walk back relies on: a best
    predecessor is the source of an edge and lighter than its target. *)
Definition settled (E : list graph.Edge)
    (st : gmap string nat * gmap string string) : Prop :=
  ∀ v p, st.2 !! v = Some p → climbs E st.1 p v.

(** [X] needs [lib], which [Y] provides before the upstream package [lib]
    does; then [Y] turns out to need [X]. *)
Module Rotation.

Definition X : Configuration := Scenario.cfg "X" "1" ["lib"].
Definition Y : Configuration := Scenario.cfg "Y" "1" [].

Definition lib : RepositoryPackage :=
  mkRepositoryPackage "lib" "1.0" "https://repo/APKINDEX" "https://repo".

Definition resolver : PkgResolver :=
  mkPkgResolver (fun dep =>
    if decide (dep = "lib") then ([Scenario.candidate Y; lib], None)
    else if decide (dep = "X") then ([Scenario.candidate X], None)
    else ([], None)).

Definition store : Packages := Scenario.store_of [X; Y].

(** The graph with the edge [X → Y], or the empty graph if its
    construction fails. *)
Definition g : Graph :=
  default (mkG newGraph store (mkOptions false [] []) ∅)
    (NewGraph (Scenario.world resolver) store []).1.

(** The cycle that the edge [Y → X] would close. *)
Definition pending : cycle := mkCycle "Y:1@local" "X:1@local".

End Rotation.

(** [A] needs [B], and then [B] turns out to need [A]: nothing else
    provides [B]. *)
Module Irreparable.

Definition A : Configuration := Scenario.cfg "A" "1" ["B"].
Definition B : Configuration := Scenario.cfg "B" "1" [].

Definition resolver : PkgResolver := Scenario.local_resolver [A; B].

Definition store : Packages := Scenario.store_of [A; B].

(** The graph with the edge [A → B], or the empty graph if its
    construction fails. *)
Definition g : Graph :=
  default (mkG newGraph store (mkOptions false [] []) ∅)
    (NewGraph (Scenario.world resolver) store []).1.

(** The cycle that the edge [B → A] would close. *)
Definition pending : cycle := mkCycle "B:1@local" "A:1@local".

End Irreparable.

(** [shaped s]: [s] is well formed but for acyclicity. *)
Definition shaped (s : graph.Graph) : Prop :=
  NoDup (vkeys s) ∧
  (∀ e, e ∈ graph.edges s → graph.Source e ∈ vkeys s ∧ graph.Target e ∈ vkeys s) ∧
  NoDup (ends <$> graph.edges s).

(** The predecessors of [v], as a set. *)
Definition pred_set (E : list graph.Edge) (v : string) : gset string :=
  list_to_set (graph.preds E v).

(** The invariant of Kahn's loops.  [order] is the output when the current
    vertex was dequeued, [order'] the output with it; [todo] are the targets
    of the current vertex still to release.  Outside the inner loop [todo]
    is empty and [order = order']. *)
Record kahn_inv (E : list graph.Edge) (V : list string)
    (order order' todo : list string)
    (predecessorMap : gmap string (gset string)) (queue : list string) : Prop :=
  mkKahnInv {
    kahn_nodup : NoDup (order' ++ queue);
    kahn_known : ∀ v, v ∈ order' ++ queue → v ∈ V;
    kahn_waiting : ∀ v, v ∈ V → v ∉ order' ++ queue → v ∉ todo →
      predecessorMap !! v = Some (pred_set E v ∖ list_to_set order') ∧
      pred_set E v ∖ list_to_set order' ≠ ∅;
    kahn_todo : ∀ v, v ∈ todo →
      (v ∉ order' ++ queue) ∧
      predecessorMap !! v = Some (pred_set E v ∖ list_to_set order);
    kahn_ready : ∀ v, v ∈ order' ++ queue → pred_set E v ⊆ list_to_set order'
  }.

(** [sorted E order]: every edge into a vertex of [order] comes from a
    vertex earlier in [order]. *)
Definition sorted (E : list graph.Edge) (order : list string) : Prop :=
  ∀ u v, u ∈ graph.preds E v → v ∈ order → before u v order.

(** A store with a cycle, which no sequence of [AddEdge] can build: Kahn's
    loop never dequeues its vertices. *)
Module Cyclic.

Definition a : Package := externalPackage "a" "1" "r".
Definition b : Package := externalPackage "b" "1" "r".

Definition store : graph.Graph :=
  graph.mkGraph [("a:1@r", a); ("b:1@r", b)]
    [graph.mkEdge "a:1@r" "b:1@r" (Some []);
     graph.mkEdge "b:1@r" "a:1@r" (Some [])].

Definition g : Graph :=
  mkG store (Scenario.store_of []) (mkOptions false [] []) ∅.

End Cyclic.

(** [edge_in E u v]: [E] has the edge [u → v]. *)
Definition edge_in (E : list graph.Edge) (u v : string) : Prop :=
  ∃ e, e ∈ E ∧ graph.Source e = u ∧ graph.Target e = v.

(** The vertices of [g] that pass the filter. *)
Definition kept (g : Graph) (filter : Package → bool) (k : string) (p : Package)
  : Prop :=
  graph.Vertex (Graph_ g) k = inr p ∧ filter p = true.

(** What the second pass of [Filter] keeps fixed: the vertices of the
    subgraph after the first pass, and that every edge of the subgraph is an
    edge of [g]. *)
Definition sound (g sub0 sub : Graph) : Prop :=
  graph.vertices (Graph_ sub) = graph.vertices (Graph_ sub0) ∧
  wf (Graph_ sub) ∧
  ∀ u v, edge_rel (Graph_ sub) u v → edge_rel (Graph_ g) u v.

(** Lists built with [++] and [::], normalised to the right. *)
Ltac norm_app :=
  repeat first [rewrite <- app_assoc | rewrite <- app_comm_cons].

(** [indexed g]: [byName] lists, under every name, the hashes of the
    vertices of that name, in the order they were added. *)
Definition indexed (g : Graph) : Prop :=
  ∀ name,
    default [] (byName g !! name) =
    (List.filter (fun kv => bool_decide (Name kv.2 = name))
       (graph.vertices (Graph_ g))).*1.

(** [increasing l]: every string of [l] is at most every later one, in the
    order of [sort.Strings]. *)
Fixpoint increasing (l : list string) : Prop :=
  match l with
  | [] => True
  | x :: l' => (∀ y, y ∈ l' → String.leb x y = true) ∧ increasing l'
  end.

(** [permitted g p]: [p] is a package the construction may add to [g]: a
    dangling package only if unresolved dependencies are allowed. *)
Definition permitted (g : Graph) (p : Package) : Prop :=
  ∀ name, p = danglingPackage name → allowUnresolved (opts g) = true.


(** The separators of [packageHash]. *)
Module separator.

Import Stdlib.Strings.Ascii.

Definition colon : ascii := ":"%char.

Definition at_sign : ascii := "@"%char.

End separator.

(** [has_char c s]: the character [c] occurs in [s]. *)
Fixpoint has_char (c : Ascii.ascii) (s : string) : bool :=
  match s with
  | EmptyString => false
  | String a s' => bool_decide (a = c) || has_char c s'
  end.

(** ** Subgraphs

    [Packages.Sub], the subset of the package store closed under
    dependencies, is declared in the package's other files; it is a
    parameter here. *)

(** [(g Graph) SubgraphWithRoots(roots)] *)
Definition SubgraphWithRoots (W : World)
    (Sub : Packages -> list string -> error + Packages)
    (g : Graph) (roots : list string) : option Graph * option error :=
  match Sub (packages g) roots with
  | inl err => (None, Some err)
  | inr subPkgs => NewGraph W subPkgs []
  end.

(** The error of [fmt.Errorf("unable to find package %q", key)]: it wraps
    no other error. *)
Definition unable_to_find (key : string) : error :=
  Sentinel (ErrExternal ("unable to find package " +:+ key)).

(** The state of the walk of [SubgraphWithLeaves]: the subgraph and the
    names collected so far. *)
Definition walk_state : Type := Graph * list string.

Section leaves.

(** [g.packages.ConfigByKey], declared in the package's other files, and
    the edges of [g], which [PredecessorMap] is read from. *)
Context (ConfigByKey : string -> option Configuration) (E : list graph.Edge).

(** [for dependent := range predecessorMap[key] { ... }], with [walk] for
    the recursive call; [None] when that call does not return. *)
Fixpoint dependents (walk : string -> walk_state -> option (error + walk_state))
    (key : string) (deps : list string) (st : walk_state)
  : option (error + walk_state) :=
  match deps with
  | [] => Some (inr st)
  | dependent :: deps' =>
      match ConfigByKey dependent with
      | None => Some (inl (unable_to_find dependent))
      | Some c =>
          let '(sub1, err) := addVertex st.1 (origin c) in
          match failed_other_than ErrVertexAlreadyExists err with
          | Some e => Some (inl e)
          | None =>
              let '(s, err) := graph.AddEdge (Graph_ sub1) dependent key [] in
              match failed_other_than ErrEdgeAlreadyExists err with
              | Some e => Some (inl e)
              | None =>
                  match walk dependent (with_store sub1 s, st.2) with
                  | None => None
                  | Some (inl e) => Some (inl e)
                  | Some (inr st') => dependents walk key deps' st'
                  end
              end
          end
      end
  end.

(** [walk(key)]: the closure of [SubgraphWithLeaves], which calls itself for
    every predecessor.  [fuel] bounds the depth of the calls; [None] is a
    walk that goes deeper. *)
Fixpoint walk (fuel : nat) (key : string) (st : walk_state)
  : option (error + walk_state) :=
  match fuel with
  | O => None
  | S fuel' =>
      match ConfigByKey key with
      | None => Some (inl (unable_to_find key))
      | Some c =>
          let '(sub1, err) := addVertex st.1 (origin c) in
          match failed_other_than ErrVertexAlreadyExists err with
          | Some e => Some (inl e)
          | None =>
              dependents (walk fuel') key (graph.preds E key) (sub1, st.2 ++ [key])
          end
      end
  end.

(** [for _, leaf := range leaves { if err := walk(leaf); ... }] *)
Fixpoint walk_leaves (fuel : nat) (leaves : list string) (st : walk_state)
  : option (error + walk_state) :=
  match leaves with
  | [] => Some (inr st)
  | leaf :: leaves' =>
      match walk fuel leaf st with
      | None => None
      | Some (inl e) => Some (inl e)
      | Some (inr st') => walk_leaves fuel leaves' st'
      end
  end.

End leaves.

(** [(g Graph) SubgraphWithLeaves(leaves)].  The store of the subgraph is
    nil until the walk is over; here it is the empty store.  In a graph
    without cycles no walk is deeper than the number of vertices
    ([walk_leaves_returns] below); [None] is a walk that is, which in
    Go does not return. *)
Definition SubgraphWithLeaves
    (ConfigByKey : Packages -> string -> option Configuration)
    (Sub : Packages -> list string -> error + Packages)
    (g : Graph) (leaves : list string) : option (option Graph * option error) :=
  let subgraph := mkG newGraph (mkPackages [] (fun _ => [])) (opts g) ∅ in
  match walk_leaves (ConfigByKey (packages g)) (graph.edges (Graph_ g))
          (S (length (graph.vertices (Graph_ g)))) leaves (subgraph, []) with
  | None => None
  | Some (inl err) => Some (None, Some err)
  | Some (inr (subgraph', names)) =>
      match Sub (packages g) names with
      | inl err => Some (None, Some err)
      | inr subPkgs =>
          Some (Some (mkG (Graph_ subgraph') subPkgs (opts subgraph')
                        (byName subgraph')), None)
      end
  end.

(** [reaches s leaves k]: [k] is one of [leaves] or depends on one, over the
    edges of [s]. *)
Definition reaches (s : graph.Graph) (leaves : list string) (k : string) : Prop :=
  ∃ leaf, leaf ∈ leaves ∧ rtc (edge_rel s) k leaf.

(** [covered ConfigByKey s st k]: the walk has been at [k]: [k] is among
    the names, the package of [k] is a vertex of the subgraph, and so is
    every edge of [s] into [k]. *)
Definition covered (ConfigByKey : string -> option Configuration)
    (s : graph.Graph) (st : walk_state) (k : string) : Prop :=
  k ∈ st.2 ∧
  (∃ c, ConfigByKey k = Some c ∧ packageHash (origin c) ∈ vkeys (Graph_ st.1)) ∧
  ∀ u, edge_rel s u k → edge_rel (Graph_ st.1) u k.

(** What the walk keeps: the subgraph is well formed and indexed, its edges
    are edges of [s] into packages that reach a leaf, and its vertices and
    the names are of packages that reach a leaf. *)
Definition walk_sound (ConfigByKey : string -> option Configuration)
    (s : graph.Graph) (leaves : list string) (st : walk_state) : Prop :=
  wf (Graph_ st.1) ∧ indexed st.1 ∧
  (∀ u v, edge_rel (Graph_ st.1) u v → edge_rel s u v ∧ reaches s leaves v) ∧
  (∀ k p, graph.Vertex (Graph_ st.1) k = inr p →
          ∃ k' c, reaches s leaves k' ∧ ConfigByKey k' = Some c ∧ p = origin c) ∧
  (∀ n, n ∈ st.2 → reaches s leaves n).

(** [walk_extends st st']: the walk only adds. *)
Definition walk_extends (st st' : walk_state) : Prop :=
  opts st'.1 = opts st.1 ∧
  (∀ k, k ∈ vkeys (Graph_ st.1) → k ∈ vkeys (Graph_ st'.1)) ∧
  (∀ u v, edge_rel (Graph_ st.1) u v → edge_rel (Graph_ st'.1) u v) ∧
  (∀ n, n ∈ st.2 → n ∈ st'.2).

(** A store that finds a package by its hash and is its own subset, and
    the subgraph of [Scenario.abc_graph] with the leaf [C]. *)
Module Leaves.

Definition by_hash (pkgs : Packages) (key : string) : option Configuration :=
  List.find (fun c => bool_decide (packageHash (origin c) = key)) (Packages_ pkgs).

Definition whole (pkgs : Packages) (names : list string) : error + Packages :=
  inr pkgs.

Definition sub : Graph :=
  match SubgraphWithLeaves by_hash whole Scenario.abc_graph ["C:1@local"] with
  | Some (Some sub, _) => sub
  | _ => Scenario.abc_graph
  end.

End Leaves.

(** * Lemmas *)

Lemma elem_of_List_filter {A} (f : A → bool) (l : list A) (x : A) :
  x ∈ List.filter f l ↔ x ∈ l ∧ f x = true.
Proof. rewrite !list_elem_of_In. apply filter_In. Qed.

Lemma assoc_Some {A} k (l : list (string * A)) a :
  graph.assoc k l = Some a → (k, a) ∈ l.
Proof.
  induction l as [|[k' a'] l IH]; simpl; [done|].
  destruct (decide (k' = k)) as [->|]; intros H.
  - inversion H; subst. left.
  - right. auto.
Qed.

Lemma assoc_None {A} k (l : list (string * A)) :
  graph.assoc k l = None ↔ k ∉ l.*1.
Proof.
  induction l as [|[k' a'] l IH]; simpl.
  - split; [intros _; apply not_elem_of_nil | done].
  - destruct (decide (k' = k)) as [->|Hne].
    + split; [done|]. intros H. exfalso. apply H. left.
    + rewrite IH, not_elem_of_cons. intuition congruence.
Qed.

Lemma assoc_is_Some {A} k (l : list (string * A)) :
  is_Some (graph.assoc k l) ↔ k ∈ l.*1.
Proof.
  rewrite <- not_eq_None_Some, assoc_None.
  destruct (decide (k ∈ l.*1)); naive_solver.
Qed.

Lemma assoc_app_fresh {A} k k' (a : A) (l : list (string * A)) :
  graph.assoc k (l ++ [(k', a)]) =
  match graph.assoc k l with
  | Some x => Some x
  | None => if decide (k' = k) then Some a else None
  end.
Proof.
  induction l as [|[k0 a0] l IH]; simpl; [done|].
  destruct (decide (k0 = k)); [done|]. apply IH.
Qed.

Lemma elem_of_preds E v u :
  u ∈ graph.preds E v ↔ ∃ e, e ∈ E ∧ graph.Source e = u ∧ graph.Target e = v.
Proof.
  unfold graph.preds. rewrite list_elem_of_fmap. split.
  - intros (e & -> & He). apply elem_of_List_filter in He as [He Ht].
    apply bool_decide_eq_true in Ht. eauto.
  - intros (e & He & <- & <-). exists e. split; [done|].
    apply elem_of_List_filter. split; [done|]. by apply bool_decide_eq_true.
Qed.

Lemma elem_of_succs E u v :
  v ∈ graph.succs E u ↔ ∃ e, e ∈ E ∧ graph.Source e = u ∧ graph.Target e = v.
Proof.
  unfold graph.succs. rewrite list_elem_of_fmap. split.
  - intros (e & -> & He). apply elem_of_List_filter in He as [He Ht].
    apply bool_decide_eq_true in Ht. eauto.
  - intros (e & He & <- & <-). exists e. split; [done|].
    apply elem_of_List_filter. split; [done|]. by apply bool_decide_eq_true.
Qed.

(** *** The search of [CreatesCycle] decides reachability *)

Section dfs.

Context (E : list graph.Edge) (target : string).

Local Abbreviation R := (edge_in E).

Lemma unvisited_visit visited current :
  current ∉ visited →
  length (unvisited E (current :: visited)) + length (graph.preds E current)
  = length (unvisited E visited).
Proof.
  intros Hc. unfold unvisited, graph.preds. rewrite length_fmap.
  induction E as [|e E' IH]; simpl; [done|].
  destruct (decide (graph.Target e = current)) as [Heq|Hne].
  - rewrite (bool_decide_eq_true_2 _ Heq).
    rewrite (bool_decide_eq_true_2 (graph.Target e ∈ current :: visited))
      by (rewrite Heq; left).
    rewrite (bool_decide_eq_false_2 (graph.Target e ∈ visited))
      by (by rewrite Heq).
    simpl. lia.
  - rewrite (bool_decide_eq_false_2 _ Hne).
    destruct (decide (graph.Target e ∈ visited)) as [Hin|Hnin].
    + rewrite (bool_decide_eq_true_2 _ Hin).
      rewrite (bool_decide_eq_true_2 (graph.Target e ∈ current :: visited))
        by (by right).
      simpl. lia.
    + rewrite (bool_decide_eq_false_2 _ Hnin).
      rewrite (bool_decide_eq_false_2 (graph.Target e ∈ current :: visited))
        by (rewrite not_elem_of_cons; done).
      simpl. lia.
Qed.

Lemma dfs_true source fuel stack visited :
  (∀ x, x ∈ stack → rtc R x source) →
  graph.dfs fuel E target stack visited = true →
  rtc R target source.
Proof.
  revert stack visited.
  induction fuel as [|fuel IH]; intros stack visited Hs; simpl; [done|].
  destruct stack as [|current rest]; [done|].
  destruct (decide (current ∈ visited)).
  - apply IH. intros x Hx. apply Hs. by right.
  - destruct (decide (current = target)) as [->|].
    + intros _. apply Hs. left.
    + apply IH. intros x Hx.
      apply elem_of_app in Hx as [Hx|Hx].
      * apply elem_of_reverse, elem_of_preds in Hx.
        eapply rtc_l; [exact Hx|]. apply Hs. left.
      * apply Hs. by right.
Qed.

Lemma dfs_false fuel stack visited :
  length stack + length (unvisited E visited) ≤ fuel →
  target ∉ visited →
  (∀ v u, v ∈ visited → R u v → u ∈ visited ∨ u ∈ stack) →
  graph.dfs fuel E target stack visited = false →
  ∃ W : string → Prop,
    (∀ x, x ∈ stack ∨ x ∈ visited → W x) ∧ ¬ W target ∧
    (∀ v u, W v → R u v → W u).
Proof.
  revert stack visited.
  induction fuel as [|fuel IH]; intros stack visited Hfuel Ht Hclosed; simpl.
  - intros _. destruct stack; [|simpl in Hfuel; lia].
    exists (fun x => x ∈ visited). split_and!; [|done|].
    + intros x [Hx|Hx]; [by apply elem_of_nil in Hx|done].
    + intros v u Hv Huv. destruct (Hclosed v u Hv Huv) as [|Hx]; [done|].
      by apply elem_of_nil in Hx.
  - destruct stack as [|current rest].
    + intros _. exists (fun x => x ∈ visited). split_and!; [|done|].
      * intros x [Hx|Hx]; [by apply elem_of_nil in Hx|done].
      * intros v u Hv Huv. destruct (Hclosed v u Hv Huv) as [|Hx]; [done|].
        by apply elem_of_nil in Hx.
    + destruct (decide (current ∈ visited)) as [Hin|Hnin].
      * intros Hd. apply IH in Hd as (W & HW & HWt & HWc).
        -- exists W. split_and!; [|done..].
           intros x [Hx|Hx]; [|by apply HW; right].
           apply elem_of_cons in Hx as [->|Hx]; apply HW; auto.
        -- simpl in Hfuel. lia.
        -- done.
        -- intros v u Hv Huv. destruct (Hclosed v u Hv Huv) as [|Hx]; [by left|].
           apply elem_of_cons in Hx as [->|Hx]; auto.
      * destruct (decide (current = target)) as [->|Hne]; [done|].
        intros Hd. apply IH in Hd as (W & HW & HWt & HWc).
        -- exists W. split_and!; [|done..].
           intros x [Hx|Hx].
           ++ apply elem_of_cons in Hx as [->|Hx]; apply HW.
              ** right. left.
              ** left. apply elem_of_app. by right.
           ++ apply HW. right. by right.
        -- pose proof (unvisited_visit visited current Hnin) as Hm.
           rewrite length_app, length_reverse. simpl in Hfuel. lia.
        -- rewrite not_elem_of_cons. split; [done|done].
        -- intros v u Hv Huv. apply elem_of_cons in Hv as [->|Hv].
           ++ right. apply elem_of_app. left.
              apply elem_of_reverse, elem_of_preds. exact Huv.
           ++ destruct (Hclosed v u Hv Huv) as [|Hx]; [left; by right|].
              apply elem_of_cons in Hx as [->|Hx]; [left; left|].
              right. apply elem_of_app. by right.
Qed.

End dfs.

(** *** Reachability when one edge is added *)

Section add_edge.

Context (R R' : relation string) (s t : string).
Hypothesis step : ∀ u v, R' u v → R u v ∨ (u = s ∧ v = t).

Lemma rtc_added a b :
  rtc R' a b → rtc R a b ∨ (rtc R a s ∧ rtc R t b).
Proof.
  induction 1 as [a|a y b Hay _ IH]; [by left|].
  destruct (step _ _ Hay) as [HR|[-> ->]].
  - destruct IH as [IH|[IH1 IH2]].
    + left. by eapply rtc_l.
    + right. split; [by eapply rtc_l|done].
  - right. split; [done|]. destruct IH as [IH|[_ IH]]; done.
Qed.

Lemma acyclic_added :
  (∀ v, ¬ tc R v v) → ¬ rtc R t s → ∀ v, ¬ tc R' v v.
Proof.
  intros Hac Hts v Hv.
  assert (∃ y, R' v y ∧ rtc R' y v) as (y & Hvy & Hyv).
  { inversion Hv as [? ? H1|? y ? H1 H2]; subst.
    - exists v. split; [done|apply rtc_refl].
    - exists y. split; [done|by apply tc_rtc]. }
  apply rtc_added in Hyv. destruct (step _ _ Hvy) as [HR|[-> ->]].
  - destruct Hyv as [Hyv|[Hys Htv]].
    + apply (Hac v). by eapply tc_rtc_r; [apply tc_once|].
    + apply Hts. etrans; [exact Htv|]. by eapply rtc_l.
  - destruct Hyv as [Hyv|[Hyv _]]; by apply Hts.
Qed.

End add_edge.

Lemma acyclic_sub (R R' : relation string) :
  (∀ u v, R' u v → R u v) → (∀ v, ¬ tc R v v) → ∀ v, ¬ tc R' v v.
Proof.
  intros Hsub Hac v Hv. apply (Hac v).
  assert (∀ x y, tc R' x y → tc R x y) as Hmono; [|by apply Hmono].
  clear v Hv Hac. intros x y Hxy. induction Hxy as [x y H|x y z H _ IH].
  - apply tc_once. auto.
  - eapply tc_l; [apply Hsub, H|exact IH].
Qed.

(** *** The operations of the library *)

Lemma find_edge_Some g s t e :
  graph.find_edge g s t = Some e →
  e ∈ graph.edges g ∧ graph.Source e = s ∧ graph.Target e = t.
Proof.
  unfold graph.find_edge. intros H. apply find_some in H as [Hin He].
  apply list_elem_of_In in Hin. unfold graph.is_edge in He.
  apply andb_true_iff in He as [H1 H2].
  apply bool_decide_eq_true in H1, H2. done.
Qed.

Lemma find_edge_None g s t :
  graph.find_edge g s t = None → ¬ edge_rel g s t.
Proof.
  unfold graph.find_edge. intros H (e & Hin & Hs & Ht).
  apply list_elem_of_In in Hin.
  pose proof (find_none _ _ H e Hin) as Hf. unfold graph.is_edge in Hf.
  rewrite !bool_decide_eq_true_2 in Hf by done. done.
Qed.

Lemma find_edge_is_Some g s t :
  is_Some (graph.find_edge g s t) ↔ edge_rel g s t.
Proof.
  split.
  - intros [e He]. exists e. by apply find_edge_Some.
  - intros He. destruct (graph.find_edge g s t) eqn:Hf; [eauto|].
    by apply find_edge_None in Hf.
Qed.

Lemma Vertex_inr g h p :
  graph.Vertex g h = inr p ↔ graph.assoc h (graph.vertices g) = Some p.
Proof.
  unfold graph.Vertex. destruct (graph.assoc h (graph.vertices g)); split;
    intros H; by inversion H.
Qed.

Lemma Vertex_inr_key g h p : graph.Vertex g h = inr p → h ∈ vkeys g.
Proof.
  intros H. apply Vertex_inr in H. apply assoc_is_Some. eauto.
Qed.

Lemma Vertex_of_key g h : h ∈ vkeys g → ∃ p, graph.Vertex g h = inr p.
Proof.
  intros H. apply assoc_is_Some in H as [p Hp]. exists p. by apply Vertex_inr.
Qed.

Lemma Vertex_inl g h e : graph.Vertex g h = inl e → h ∉ vkeys g.
Proof.
  unfold graph.Vertex. destruct (graph.assoc h (graph.vertices g)) eqn:Ha; [done|].
  intros _. by apply assoc_None.
Qed.

Lemma CreatesCycle_true g s t :
  graph.CreatesCycle g s t = inr true → rtc (edge_rel g) t s.
Proof.
  unfold graph.CreatesCycle.
  destruct (graph.Vertex g s); [done|]. destruct (graph.Vertex g t); [done|].
  destruct (decide (s = t)) as [->|]; [done|].
  intros H.
  assert (graph.dfs (S (length (graph.edges g))) (graph.edges g) t [s] [] = true)
    as Hd by congruence.
  clear H. eapply (dfs_true (graph.edges g) t s); [|exact Hd].
  intros x Hx. apply list_elem_of_singleton in Hx as ->. done.
Qed.

Lemma CreatesCycle_false g s t :
  graph.CreatesCycle g s t = inr false → ¬ rtc (edge_rel g) t s.
Proof.
  unfold graph.CreatesCycle.
  destruct (graph.Vertex g s); [done|]. destruct (graph.Vertex g t); [done|].
  destruct (decide (s = t)) as [->|Hne]; [done|].
  intros H.
  assert (graph.dfs (S (length (graph.edges g))) (graph.edges g) t [s] [] = false)
    as Hd by congruence.
  clear H. apply dfs_false in Hd as (W & HW & HWt & HWc).
  - intros Hts. apply HWt.
    assert (W s) as Hs by (apply HW; left; left).
    clear HW HWt Hne. induction Hts as [|x y z Hxy _ IH]; [done|].
    eapply HWc; [apply IH, Hs|exact Hxy].
  - unfold unvisited. simpl. apply le_n_S, filter_length_le.
  - apply not_elem_of_nil.
  - intros v u Hv. by apply elem_of_nil in Hv.
Qed.

Lemma CreatesCycle_reachable g s t :
  s ∈ vkeys g → t ∈ vkeys g → rtc (edge_rel g) t s →
  graph.CreatesCycle g s t = inr true.
Proof.
  intros Hs Ht Hts.
  destruct (graph.CreatesCycle g s t) as [e|[]] eqn:Hc; [|done|].
  - exfalso. unfold graph.CreatesCycle in Hc.
    destruct (Vertex_of_key g s Hs) as [p Hp].
    destruct (Vertex_of_key g t Ht) as [q Hq].
    rewrite Hp, Hq in Hc. by destruct (decide (s = t)).
  - by apply CreatesCycle_false in Hc.
Qed.

(** What [AddVertex] does to a store. *)
Lemma AddVertex_spec g p g' err :
  graph.AddVertex g p = (g', err) →
  (err = Some (Sentinel ErrVertexAlreadyExists) ∧ g' = g ∧ packageHash p ∈ vkeys g)
  ∨ (err = None ∧ (packageHash p ∉ vkeys g) ∧
     g' = graph.mkGraph (graph.vertices g ++ [(packageHash p, p)]) (graph.edges g)).
Proof.
  unfold graph.AddVertex.
  destruct (graph.assoc (packageHash p) (graph.vertices g)) eqn:Ha;
    intros H; inversion H; subst.
  - left. split_and!; [done..|]. apply assoc_is_Some. eauto.
  - right. split_and!; [done| |done]. by apply assoc_None.
Qed.

Lemma AddVertex_wf g p g' err :
  graph.AddVertex g p = (g', err) → wf g → wf g'.
Proof.
  intros H Hwf. apply AddVertex_spec in H as [(_ & -> & _)|(_ & Hnew & ->)]; [done|].
  destruct Hwf as [Hh Hk He Hd Ha]. split; simpl.
  - intros k q Hin. apply elem_of_app in Hin as [Hin|Hin]; [by apply Hh|].
    apply list_elem_of_singleton in Hin. by inversion Hin.
  - unfold vkeys. simpl. rewrite fmap_app. simpl.
    apply NoDup_app. split_and!; [done| |apply NoDup_singleton].
    intros x Hx Hx'. apply list_elem_of_singleton in Hx'. by subst.
  - intros e Hin. destruct (He e Hin) as [H1 H2].
    unfold vkeys. simpl. rewrite fmap_app, !elem_of_app. auto.
  - done.
  - done.
Qed.

Lemma AddVertex_edges g p g' err :
  graph.AddVertex g p = (g', err) → graph.edges g' = graph.edges g.
Proof.
  intros H. by apply AddVertex_spec in H as [(_ & -> & _)|(_ & _ & ->)].
Qed.

Lemma AddVertex_keys g p g' err :
  graph.AddVertex g p = (g', err) →
  ∀ k, k ∈ vkeys g' ↔ k ∈ vkeys g ∨ k = packageHash p.
Proof.
  intros H k. apply AddVertex_spec in H as [(_ & -> & Hin)|(_ & _ & ->)].
  - split; [auto|]. by intros [?| ->].
  - unfold vkeys. simpl. rewrite fmap_app, elem_of_app. simpl.
    by rewrite list_elem_of_singleton.
Qed.

(** What [AddEdge] does to a store. *)
Lemma AddEdge_spec g s t o g' err :
  graph.AddEdge g s t o = (g', err) →
  (g' = g ∧ is_Some err)
  ∨ (err = None ∧ s ∈ vkeys g ∧ t ∈ vkeys g ∧ ¬ edge_rel g s t ∧
     ¬ rtc (edge_rel g) t s ∧
     g' = graph.mkGraph (graph.vertices g)
            (graph.edges g ++
             [graph.mkEdge s t (foldl (fun a o => o a) (Some []) o)])).
Proof.
  unfold graph.AddEdge.
  destruct (graph.Vertex g s) eqn:Hs; [intros H; inversion H; eauto|].
  destruct (graph.Vertex g t) eqn:Ht; [intros H; inversion H; eauto|].
  destruct (graph.find_edge g s t) eqn:Hf; [intros H; inversion H; eauto|].
  destruct (graph.CreatesCycle g s t) as [e|[]] eqn:Hc;
    intros H; inversion H; subst; eauto.
  right. split_and!; [done| | | | |done].
  - by eapply Vertex_inr_key.
  - by eapply Vertex_inr_key.
  - by apply find_edge_None.
  - by apply CreatesCycle_false.
Qed.

Lemma edge_rel_snoc g e u v :
  edge_rel (graph.mkGraph (graph.vertices g) (graph.edges g ++ [e])) u v ↔
  edge_rel g u v ∨ (u = graph.Source e ∧ v = graph.Target e).
Proof.
  unfold edge_rel. simpl. split.
  - intros (e' & Hin & <- & <-). apply elem_of_app in Hin as [Hin|Hin]; [eauto|].
    apply list_elem_of_singleton in Hin as ->. auto.
  - intros [(e' & Hin & <- & <-)|[-> ->]].
    + exists e'. rewrite elem_of_app. auto.
    + exists e. rewrite elem_of_app, list_elem_of_singleton. auto.
Qed.

Lemma AddEdge_wf g s t o g' err :
  graph.AddEdge g s t o = (g', err) → wf g → wf g'.
Proof.
  intros H Hwf.
  apply AddEdge_spec in H as [[-> _]|(_ & Hs & Ht & Hst & Hts & ->)]; [done|].
  destruct Hwf as [Hh Hk He Hd Ha]. split; simpl; [done|done| | |].
  - intros e Hin. apply elem_of_app in Hin as [Hin|Hin]; [by apply He|].
    apply list_elem_of_singleton in Hin as ->. done.
  - rewrite fmap_app. apply NoDup_app. split_and!; [done| |apply NoDup_singleton].
    intros x Hx Hx'. apply list_elem_of_singleton in Hx' as ->.
    apply list_elem_of_fmap in Hx as (e & Heq & Hin). inversion Heq.
    apply Hst. exists e. done.
  - unfold acyclic.
    apply (acyclic_added (edge_rel g) _ s t); [|exact Ha|exact Hts].
    intros u v Huv. apply edge_rel_snoc in Huv. exact Huv.
Qed.

Lemma AddEdge_keys g s t o g' err :
  graph.AddEdge g s t o = (g', err) → graph.vertices g' = graph.vertices g.
Proof.
  intros H. by apply AddEdge_spec in H as [[-> _]|(_ & _ & _ & _ & _ & ->)].
Qed.

Lemma AddEdge_mono g s t o g' err u v :
  graph.AddEdge g s t o = (g', err) → edge_rel g u v → edge_rel g' u v.
Proof.
  intros H Huv.
  apply AddEdge_spec in H as [[-> _]|(_ & _ & _ & _ & _ & ->)]; [done|].
  apply edge_rel_snoc. by left.
Qed.

(** What [RemoveEdge] does to a store. *)
Lemma RemoveEdge_spec g s t g' err :
  graph.RemoveEdge g s t = (g', err) →
  (g' = g ∧ err = Some (Sentinel ErrEdgeNotFound) ∧ ¬ edge_rel g s t)
  ∨ (err = None ∧ edge_rel g s t ∧
     g' = graph.mkGraph (graph.vertices g)
            (List.filter (fun e => negb (graph.is_edge s t e)) (graph.edges g))).
Proof.
  unfold graph.RemoveEdge. destruct (graph.find_edge g s t) eqn:Hf;
    intros H; inversion H; subst.
  - right. split_and!; [done| |done]. apply find_edge_is_Some. eauto.
  - left. split_and!; [done..|]. by apply find_edge_None.
Qed.

Lemma edge_rel_removed g s t u v :
  edge_rel (graph.mkGraph (graph.vertices g)
              (List.filter (fun e => negb (graph.is_edge s t e)) (graph.edges g))) u v
  ↔ edge_rel g u v ∧ ¬ (u = s ∧ v = t).
Proof.
  unfold edge_rel. simpl. split.
  - intros (e & Hin & <- & <-). apply elem_of_List_filter in Hin as [Hin Hne].
    split; [eauto|]. intros [Hs Ht]. unfold graph.is_edge in Hne.
    rewrite !bool_decide_eq_true_2 in Hne by done. done.
  - intros [(e & Hin & <- & <-) Hne]. exists e. split_and!; [|done..].
    apply elem_of_List_filter. split; [done|].
    apply negb_true_iff. unfold graph.is_edge.
    apply andb_false_iff.
    destruct (decide (graph.Source e = s)); [right|left];
      apply bool_decide_eq_false; intuition.
Qed.

Lemma RemoveEdge_wf g s t g' err :
  graph.RemoveEdge g s t = (g', err) → wf g → wf g'.
Proof.
  intros H Hwf.
  apply RemoveEdge_spec in H as [(-> & _)|(_ & _ & ->)]; [done|].
  destruct Hwf as [Hh Hk He Hd Ha]. split; simpl; [done|done| | |].
  - intros e Hin. apply elem_of_List_filter in Hin as [Hin _]. by apply He.
  - clear -Hd. induction (graph.edges g) as [|e l IH]; simpl; [constructor|].
    simpl in Hd. apply NoDup_cons in Hd as [Hn Hd].
    destruct (negb (graph.is_edge s t e)); simpl; [|by apply IH].
    apply NoDup_cons. split; [|by apply IH].
    intros Hin. apply Hn. apply list_elem_of_fmap in Hin as (e' & -> & Hin).
    apply elem_of_List_filter in Hin as [Hin _].
    apply list_elem_of_fmap. eauto.
  - unfold acyclic. apply (acyclic_sub (edge_rel g)); [|exact Ha].
    intros u v Huv. by apply edge_rel_removed in Huv as [Huv _].
Qed.

(** *** The operations of [graph.go] keep the store well formed *)

Lemma edge_rel_edges s s' :
  graph.edges s' = graph.edges s → ∀ u v, edge_rel s' u v ↔ edge_rel s u v.
Proof. intros H u v. unfold edge_rel. by rewrite H. Qed.

Lemma rtc_edges s s' :
  graph.edges s' = graph.edges s →
  ∀ u v, rtc (edge_rel s') u v ↔ rtc (edge_rel s) u v.
Proof.
  intros H u v. split; apply rtc_subrel; intros x y; by apply edge_rel_edges.
Qed.

Lemma quiet_refl g : quiet g g.
Proof. by split_and!. Qed.

Lemma quiet_trans g1 g2 g3 : quiet g1 g2 → quiet g2 g3 → quiet g1 g3.
Proof.
  intros (Hp & Ho & Hk & He) (Hp' & Ho' & Hk' & He'). split_and!.
  - congruence.
  - congruence.
  - auto.
  - congruence.
Qed.

Lemma quiet_grows c g g' : quiet g g' → grows c g g'.
Proof. intros (Hp & Ho & Hk & He). split_and!; auto. Qed.

Lemma quiet_then_grows c g1 g2 g3 : quiet g1 g2 → grows c g2 g3 → grows c g1 g3.
Proof.
  intros (Hp & Ho & Hk & He) (Hp' & Ho' & Hk' & He'). split_and!.
  - congruence.
  - congruence.
  - auto.
  - destruct He' as [He'|(e & He' & Hs & Hr)]; [left; congruence|].
    right. exists e. split_and!; [congruence|done|].
    intros Hrtc. apply Hr. by apply (rtc_edges _ _ He).
Qed.

Lemma addVertex_spec g p g' err :
  addVertex g p = (g', err) →
  graph.AddVertex (Graph_ g) p = (Graph_ g', err) ∧
  packages g' = packages g ∧ opts g' = opts g.
Proof.
  unfold addVertex.
  destruct (graph.AddVertex (Graph_ g) p) as [s [e|]] eqn:H;
    intros Heq; inversion Heq; subst; simpl; [|done].
  split; [|done]. by apply AddVertex_spec in H as [(_ & -> & _)|(? & _)].
Qed.

Lemma addVertex_quiet g p g' err :
  addVertex g p = (g', err) → quiet g g' ∧ packageHash p ∈ vkeys (Graph_ g').
Proof.
  intros H. apply addVertex_spec in H as (H & Hp & Ho).
  split.
  - split_and!; [done..| |by eapply AddVertex_edges].
    intros k Hk. apply (AddVertex_keys _ _ _ _ H). by left.
  - apply (AddVertex_keys _ _ _ _ H). by right.
Qed.

Lemma addVertex_wf g p g' err :
  addVertex g p = (g', err) → wf (Graph_ g) → wf (Graph_ g').
Proof.
  intros H. apply addVertex_spec in H as (H & _). by eapply AddVertex_wf.
Qed.

Lemma AddEdge_grows g s t o s' err :
  graph.AddEdge (Graph_ g) s t o = (s', err) → grows s g (with_store g s').
Proof.
  intros H. split_and!; simpl; [done..| |].
  - intros k. unfold vkeys. by rewrite (AddEdge_keys _ _ _ _ _ _ H).
  - apply AddEdge_spec in H as [[-> _]|(_ & _ & _ & _ & Hr & ->)]; [by left|].
    right. eexists. simpl. split_and!; [done|done|done].
Qed.

Lemma addDanglingPackage_grows g name parent g' err :
  addDanglingPackage g name parent = (g', err) →
  grows (packageHash parent) g g' ∧ (wf (Graph_ g) → wf (Graph_ g')).
Proof.
  unfold addDanglingPackage.
  destruct (addVertex g (danglingPackage name)) as [g1 e1] eqn:Hv.
  pose proof (addVertex_quiet _ _ _ _ Hv) as [Hq _].
  pose proof (addVertex_wf _ _ _ _ Hv) as Hw.
  destruct (failed_other_than ErrVertexAlreadyExists e1).
  - intros Heq; inversion Heq; subst. split; [by apply quiet_grows|done].
  - destruct (graph.AddEdge (Graph_ g1) _ _ []) as [s e2] eqn:He.
    intros Heq; inversion Heq; subst. split.
    + eapply quiet_then_grows; [exact Hq|]. by eapply AddEdge_grows.
    + intros Hwf. simpl. eapply AddEdge_wf; [exact He|auto].
Qed.

Lemma scan_grows resolved c dep localRepo :
  ∀ g pkg cycleTarget,
    let r := scan resolved g pkg cycleTarget c dep localRepo in
    (wf (Graph_ g) → wf (Graph_ (scanned_graph r))) ∧
    match r with
    | Returned g' _ _ => grows (packageHash c) g g'
    | Exhausted g' _ _ => quiet g g'
    end.
Proof.
  induction resolved as [|r rest IH]; intros g pkg cycleTarget; simpl.
  - split; [done|apply quiet_refl].
  - destruct (isMyself r c dep); [apply IH|].
    destruct (candidatePackage g pkg r localRepo) as [e|p].
    { simpl. split; [done|apply quiet_grows, quiet_refl]. }
    destruct (addVertex g p) as [g1 e1] eqn:Hv.
    pose proof (addVertex_quiet _ _ _ _ Hv) as [Hq _].
    pose proof (addVertex_wf _ _ _ _ Hv) as Hw.
    destruct (failed_other_than ErrVertexAlreadyExists e1).
    { simpl. split; [done|by apply quiet_grows]. }
    assert (∀ ct, let r' := scan rest g1 None ct c dep localRepo in
      (wf (Graph_ g) → wf (Graph_ (scanned_graph r'))) ∧
      match r' with
      | Returned g' _ _ => grows (packageHash c) g g'
      | Exhausted g' _ _ => quiet g g'
      end) as Hrec.
    { intros ct. destruct (IH g1 None ct) as [IHw IHg]. split; [auto|].
      destruct (scan rest g1 None ct c dep localRepo).
      - by eapply quiet_then_grows.
      - by eapply quiet_trans. }
    destruct (graph.CreatesCycle (Graph_ g1) (packageHash c) (packageHash p))
      as [e|[]]; [apply Hrec|apply Hrec|].
    destruct (graph.AddEdge (Graph_ g1) _ _ _) as [s e2] eqn:He.
    assert (grows (packageHash c) g (with_store g1 s)) as Hg.
    { eapply quiet_then_grows; [exact Hq|]. by eapply AddEdge_grows. }
    assert (wf (Graph_ g) → wf s) as Hws.
    { intros Hwf. eapply AddEdge_wf; [exact He|auto]. }
    destruct (failed_other_than ErrEdgeAlreadyExists e2); simpl; done.
Qed.

Lemma scan_returned resolved c dep localRepo :
  ∀ g pkg cycleTarget g' cy err,
    scan resolved g pkg cycleTarget c dep localRepo = Returned g' cy err →
    cy = None.
Proof.
  induction resolved as [|r rest IH]; intros g pkg ct g' cy err; simpl; [done|].
  destruct (isMyself r c dep); [apply IH|].
  destruct (candidatePackage g pkg r localRepo) as [e|p];
    [intros H; by inversion H|].
  destruct (addVertex g p) as [g1 e1].
  destruct (failed_other_than ErrVertexAlreadyExists e1);
    [intros H; by inversion H|].
  destruct (graph.CreatesCycle (Graph_ g1) (packageHash c) (packageHash p))
    as [e|[]]; [apply IH|apply IH|].
  destruct (graph.AddEdge (Graph_ g1) _ _ _) as [s e2].
  destruct (failed_other_than ErrEdgeAlreadyExists e2);
    intros H; by inversion H.
Qed.

Lemma addAppropriatePackage_grows g resolver c dep localRepo g' cy err :
  addAppropriatePackage g resolver c dep localRepo = (g', cy, err) →
  (wf (Graph_ g) → wf (Graph_ g')) ∧ grows (packageHash c) g g' ∧
  (is_Some cy → quiet g g' ∧ err = None).
Proof.
  unfold addAppropriatePackage.
  destruct (ResolvePackage resolver dep) as [resolved rerr].
  destruct (bool_decide (rerr ≠ None ∨ length resolved = 0)).
  - destruct (allowUnresolved (opts g)).
    + destruct (addDanglingPackage g dep c) as [g1 [e|]] eqn:Hd;
        apply addDanglingPackage_grows in Hd as [Hg Hw];
        intros Heq; inversion Heq; subst; (split_and!; [done|done|by intros [? ?]]).
    + intros Heq; inversion Heq; subst.
      split_and!; [done|apply quiet_grows, quiet_refl|by intros [? ?]].
  - pose proof (scan_grows resolved c dep localRepo g None "") as [Hw Hg].
    simpl in Hw, Hg.
    destruct (scan resolved g None "" c dep localRepo) as [g1 cy1 e1|g1 [p|] ct]
      eqn:Hs; simpl in Hw.
    + apply scan_returned in Hs as ->.
      intros Heq; inversion Heq; subst. split_and!; [done|done|by intros [? ?]].
    + intros Heq; inversion Heq; subst.
      split_and!; [done|by apply quiet_grows|by intros [? ?]].
    + destruct (negb (bool_decide (ct = ""))).
      { intros Heq; inversion Heq; subst. split_and!; [done|by apply quiet_grows|done]. }
      destruct (negb (allowUnresolved (opts g1))).
      { intros Heq; inversion Heq; subst.
        split_and!; [done|by apply quiet_grows|by intros [? ?]]. }
      destruct (addDanglingPackage g1 dep c) as [g2 [e|]] eqn:Hd;
        apply addDanglingPackage_grows in Hd as [Hg2 Hw2];
        intros Heq; inversion Heq; subst;
        (split_and!; [auto|by eapply quiet_then_grows|by intros [? ?]]).
Qed.

Lemma addAppropriatePackage_wf g resolver c dep localRepo :
  wf (Graph_ g) →
  wf (Graph_ (addAppropriatePackage g resolver c dep localRepo).1.1).
Proof.
  destruct (addAppropriatePackage g resolver c dep localRepo) as [[g' cy] err] eqn:H.
  apply addAppropriatePackage_grows in H as [Hw _]. exact Hw.
Qed.

Lemma resolveCycle_wf g c dep resolver localRepoSource :
  wf (Graph_ g) → wf (Graph_ (resolveCycle g c dep resolver localRepoSource).1).
Proof.
  intros Hwf. unfold resolveCycle.
  destruct (graph.ShortestPath (Graph_ g) (target c) (src c)) as [e|sp]; [done|].
  destruct (decide (length sp < 2)); [done|].
  destruct (graph.Edge_ (Graph_ g) _ _) as [e|edge]; [done|].
  destruct (graph.Attributes edge) as [attrs|]; [|done].
  destruct (graph.RemoveEdge (Graph_ g) _ _) as [s1 e1] eqn:Hr.
  pose proof (RemoveEdge_wf _ _ _ _ _ Hr Hwf) as Hw1.
  destruct e1; [done|].
  destruct (graph.AddEdge s1 (src c) (target c) _) as [s2 e2] eqn:Ha.
  pose proof (AddEdge_wf _ _ _ _ _ _ Ha Hw1) as Hw2.
  destruct e2; [done|].
  destruct (graph.Vertex s2 _) as [e|config]; [done|].
  pose proof (addAppropriatePackage_wf (with_store g s2) resolver config
    (attribute attrs "target-origin") localRepoSource Hw2) as Hw3.
  destruct (addAppropriatePackage (with_store g s2) resolver config _ _)
    as [[g3 cy] [e|]]; simpl in Hw3; by destruct cy.
Qed.

Lemma foldl_preserves {A B} (P : A → Prop) (f : A → B → A) (l : list B) :
  (∀ a b, P a → P (f a b)) → ∀ a, P a → P (foldl f a l).
Proof.
  intros Hf. induction l as [|b l IH]; intros a Ha; simpl; [done|].
  apply IH, Hf, Ha.
Qed.

Section construction_wf.

Context (W : World).

Lemma subpackage_step_wf c version st sub :
  wf (Graph_ st.1) → wf (Graph_ (subpackage_step c version st sub).1).
Proof.
  destruct st as [g errs]. simpl. intros Hwf.
  destruct (decide (cfg_fullVersion sub = version)); [done|].
  destruct (addVertex g (origin sub)) as [g1 e1] eqn:Hv.
  pose proof (addVertex_wf _ _ _ _ Hv Hwf) as Hw1.
  destruct (failed_other_than ErrVertexAlreadyExists e1); [done|].
  destruct (graph.AddEdge (Graph_ g1) _ _ []) as [s e2] eqn:He.
  pose proof (AddEdge_wf _ _ _ _ _ _ He Hw1).
  by destruct (failed_other_than ErrEdgeAlreadyExists e2).
Qed.

Lemma add_subpackages_wf pkgs c st :
  wf (Graph_ st.1) → wf (Graph_ (add_subpackages pkgs c st).1).
Proof.
  unfold add_subpackages.
  apply (foldl_preserves (fun st => wf (Graph_ st.1))).
  intros a name. apply (foldl_preserves (fun st => wf (Graph_ st.1))).
  intros a' sub. apply subpackage_step_wf.
Qed.

Lemma dependency_step_wf resolver c localRepoSource st buildDep :
  wf (Graph_ st.1) →
  wf (Graph_ (dependency_step resolver c localRepoSource st buildDep).1).
Proof.
  destruct st as [g errs]. simpl. intros Hwf.
  destruct (decide (buildDep = "")); [done|].
  pose proof (addAppropriatePackage_wf g resolver (origin c) buildDep
    localRepoSource Hwf) as Hw1.
  destruct (addAppropriatePackage g resolver (origin c) buildDep localRepoSource)
    as [[g1 cy] err]. simpl in Hw1.
  destruct cy as [cy|], err as [e|]; try done.
  pose proof (resolveCycle_wf g1 cy buildDep resolver localRepoSource Hw1) as Hw2.
  by destruct (resolveCycle g1 cy buildDep resolver localRepoSource) as [g2 [e|]].
Qed.

Lemma package_step_wf pkgs o st c st' :
  package_step W pkgs o st c = inr st' →
  wf (Graph_ st.1.1) → wf (Graph_ st'.1.1).
Proof.
  destruct st as [[g indexes] errs]. simpl. intros H Hwf.
  destruct (addVertex g (origin c)) as [g0 e0] eqn:Hv.
  pose proof (addVertex_wf _ _ _ _ Hv Hwf) as Hw0.
  destruct (failed_other_than ErrVertexAlreadyExists e0);
    [by inversion H; subst|].
  pose proof (add_subpackages_wf pkgs c (g0, errs) Hw0) as Hw1.
  destruct (add_subpackages pkgs c (g0, errs)) as [g1 errs1].
  destruct (split_repos W indexes _) as [rs lookupRepos].
  destruct (load_keys W _ ∅) as [e|keyMap]; [done|].
  destruct (load_repos W indexes rs lookupRepos keyMap _)
    as [e|[indexes' lookupRepos']]; [done|].
  match type of H with
  | context [foldl ?f ?init ?l] =>
      pose proof (foldl_preserves (fun st => wf (Graph_ st.1)) f l
                    (dependency_step_wf _ _ _) init Hw1) as Hw2;
      destruct (foldl f init l) as [g2 errs2]
  end.
  by inversion H; subst.
Qed.

Lemma build_wf pkgs o cs :
  ∀ st st', build W pkgs o cs st = inr st' →
            wf (Graph_ st.1.1) → wf (Graph_ st'.1.1).
Proof.
  induction cs as [|c cs IH]; intros st st'; simpl.
  - intros H; by inversion H; subst.
  - destruct (package_step W pkgs o st c) as [e|st1] eqn:Hs; [done|].
    intros H Hwf. eapply IH; [exact H|]. by eapply package_step_wf.
Qed.

Lemma wf_new : wf newGraph.
Proof.
  split; simpl.
  - intros k p H. by apply elem_of_nil in H.
  - constructor.
  - intros e H. by apply elem_of_nil in H.
  - constructor.
  - intros v Hv. assert (∃ y, edge_rel newGraph v y) as (y & e & He & _).
    { inversion Hv; eauto. }
    by apply elem_of_nil in He.
Qed.

Lemma NewGraph_wf pkgs options g err :
  NewGraph W pkgs options = (Some g, err) → wf (Graph_ g).
Proof.
  unfold NewGraph. destruct (apply_options options _) as [e|o]; [done|].
  destruct (build W pkgs o (Packages_ pkgs) _) as [e|[[g' ix] errs]] eqn:Hb;
    [done|].
  destruct (decide (errs ≠ [])); [done|]. intros H; inversion H; subst.
  apply build_wf in Hb; [exact Hb|apply wf_new].
Qed.

End construction_wf.

(** * Acyclicity of the constructed graph *)

(** C1. Every graph that [NewGraph] returns is acyclic: no vertex reaches
    itself over one or more edges.  It stays so under every further candidate
    scan ([addAppropriatePackage]) and cycle repair ([resolveCycle]), whatever
    they return: an edge that would close a cycle is not committed. *)
Theorem NewGraph_acyclic (W : World) pkgs options g :
  NewGraph W pkgs options = (Some g, None) →
  acyclic (Graph_ g) ∧
  (∀ resolver c dep localRepo,
      acyclic (Graph_ (addAppropriatePackage g resolver c dep localRepo).1.1)) ∧
  (∀ cy dep resolver localRepo,
      acyclic (Graph_ (resolveCycle g cy dep resolver localRepo).1)).
Proof.
  intros H. apply NewGraph_wf in H. split_and!.
  - apply wf_acyclic, H.
  - intros. by apply wf_acyclic, addAppropriatePackage_wf.
  - intros. by apply wf_acyclic, resolveCycle_wf.
Qed.

Lemma NewGraph_acyclic_witness :
  NewGraph (Scenario.world (Scenario.local_resolver Scenario.abc))
    (Scenario.store_of Scenario.abc) [] = (Some Scenario.abc_graph, None) ∧
  acyclic (Graph_ Scenario.abc_graph).
Proof.
  assert (NewGraph (Scenario.world (Scenario.local_resolver Scenario.abc))
            (Scenario.store_of Scenario.abc) [] = (Some Scenario.abc_graph, None))
    as H by (vm_compute; reflexivity).
  split; [exact H|].
  exact (proj1 (NewGraph_acyclic _ _ _ _ H)).
Defined.

(** * Idempotent vertex addition *)

(** C8. Adding a package with the name, version and source of one that has
    just been added reports [ErrVertexAlreadyExists] and leaves the whole
    graph (vertices, edges and the [byName] index) as the first addition
    left it. *)
Theorem addVertex_twice g p q :
  Name q = Name p → Version q = Version p → PSource q = PSource p →
  addVertex (addVertex g p).1 q =
  ((addVertex g p).1, Some (Sentinel ErrVertexAlreadyExists)).
Proof.
  intros Hn Hv Hs.
  assert (packageHash q = packageHash p) as Hh
    by (unfold packageHash; by rewrite Hn, Hv, Hs).
  destruct (addVertex g p) as [g1 e1] eqn:H1. simpl.
  apply addVertex_quiet in H1 as [_ Hin].
  apply assoc_is_Some in Hin as [p' Hp'].
  unfold addVertex, graph.AddVertex. by rewrite Hh, Hp'.
Qed.

Lemma addVertex_twice_witness :
  let g := mkG newGraph (Scenario.store_of []) (mkOptions false [] []) ∅ in
  let p := origin (Scenario.cfg "a" "1" []) in
  let q := externalPackage "a" "1" Local in
  addVertex (addVertex g p).1 q =
  ((addVertex g p).1, Some (Sentinel ErrVertexAlreadyExists)).
Proof.
  intros g p q. apply (addVertex_twice g p q); reflexivity.
Defined.

(** * The guard against a package fulfilling its own dependency *)

Lemma scan_keys resolved c dep localRepo g pkg cycleTarget k :
  k ∈ vkeys (Graph_ g) →
  k ∈ vkeys (Graph_ (scanned_graph (scan resolved g pkg cycleTarget c dep localRepo))).
Proof.
  destruct (scan_grows resolved c dep localRepo g pkg cycleTarget) as [_ H].
  destruct (scan resolved g pkg cycleTarget c dep localRepo); simpl;
    destruct H as (_ & _ & Hk & _); apply Hk.
Qed.

(** C2, as the code has it.  The guard of the candidate loop compares the
    name of the dependency, [dep], and not the name of the candidate, with
    [c.Name()]: a candidate is skipped exactly when [dep = c.Name()] and its
    version is [c.Version()].  A candidate that is not skipped is looked up
    and, if found, added as a vertex.  Whatever the candidates, [c] gains no
    edge to itself. *)
Theorem self_dependency_guard g pkg cycleTarget c dep localRepo r rest :
  (dep = Name c ∧ rp_Version r = Version c →
   scan (r :: rest) g pkg cycleTarget c dep localRepo
   = scan rest g pkg cycleTarget c dep localRepo) ∧
  (¬ (dep = Name c ∧ rp_Version r = Version c) →
   match candidatePackage g pkg r localRepo with
   | inl e =>
       scan (r :: rest) g pkg cycleTarget c dep localRepo = Returned g None (Some e)
   | inr p =>
       packageHash p ∈
         vkeys (Graph_ (scanned_graph (scan (r :: rest) g pkg cycleTarget c dep localRepo)))
   end) ∧
  (wf (Graph_ g) →
   ∀ resolver,
     ¬ edge_rel (Graph_ (addAppropriatePackage g resolver c dep localRepo).1.1)
         (packageHash c) (packageHash c)).
Proof.
  split_and!.
  - intros [Hd Hv]. simpl. unfold isMyself.
    by rewrite !bool_decide_eq_true_2.
  - intros Hne. simpl. unfold isMyself.
    replace (bool_decide (rp_Version r = Version c) && bool_decide (dep = Name c))
      with false.
    2:{ symmetry. apply andb_false_iff.
        destruct (decide (rp_Version r = Version c)); [right|left];
          apply bool_decide_eq_false; intuition. }
    destruct (candidatePackage g pkg r localRepo) as [e|p]; [done|].
    destruct (addVertex g p) as [g1 e1] eqn:Hv.
    apply addVertex_quiet in Hv as [_ Hin].
    destruct (failed_other_than ErrVertexAlreadyExists e1); [done|].
    destruct (graph.CreatesCycle (Graph_ g1) (packageHash c) (packageHash p))
      as [e|[]]; [by apply scan_keys|by apply scan_keys|].
    destruct (graph.AddEdge (Graph_ g1) _ _ _) as [s e2] eqn:He.
    apply AddEdge_keys in He.
    destruct (failed_other_than ErrEdgeAlreadyExists e2); simpl;
      unfold vkeys; by rewrite He.
  - intros Hwf resolver Hself.
    pose proof (addAppropriatePackage_wf g resolver c dep localRepo Hwf) as Hw.
    apply (wf_acyclic _ Hw (packageHash c)). by apply tc_once.
Qed.

Lemma self_dependency_guard_witness :
  scan [Scenario.candidate (Scenario.cfg "foo" "1.0" [])]
    SelfProvided.g0 None "" SelfProvided.foo "foo" Scenario.localIndex
  = Exhausted SelfProvided.g0 None "".
Proof.
  refine (eq_trans (proj1 (self_dependency_guard SelfProvided.g0 None ""
    SelfProvided.foo "foo" Scenario.localIndex
    (Scenario.candidate (Scenario.cfg "foo" "1.0" [])) []) _) _).
  - split; reflexivity.
  - reflexivity.
Defined.

(** C2, as the claim puts it, fails: with [dep = "cmd:foo"], the candidate
    [foo-1.0] has the name and the version of the origin package [foo-1.0],
    yet it is not skipped: the edge to it is committed. *)
Lemma guard_ignores_candidate_name :
  ¬ (isMyself SelfProvided.upstream SelfProvided.foo "cmd:foo" = true ↔
     rp_Name SelfProvided.upstream = Name SelfProvided.foo ∧
     rp_Version SelfProvided.upstream = Version SelfProvided.foo) ∧
  graph.edges (Graph_ (addAppropriatePackage SelfProvided.g0 SelfProvided.resolver
                         SelfProvided.foo "cmd:foo" Scenario.localIndex).1.1)
  = [graph.mkEdge "foo:1.0@local" "foo:1.0@https://repo"
       (Some [("target-origin", "cmd:foo")])].
Proof.
  split; [|vm_compute; reflexivity].
  intros [_ H]. by specialize (H (conj eq_refl eq_refl)).
Qed.

(** * Key material *)



(** * Accumulation of errors in [NewGraph] *)

Section errors.

Context (W : World) (pkgs : Packages).











End errors.


(** * Filter *)

Lemma Vertex_AddVertex s p s' err k q :
  graph.AddVertex s p = (s', err) →
  graph.Vertex s' k = inr q ↔
  graph.Vertex s k = inr q ∨ ((packageHash p ∉ vkeys s) ∧ k = packageHash p ∧ q = p).
Proof.
  intros H. apply AddVertex_spec in H as [(_ & -> & Hin)|(_ & Hnew & ->)].
  - split; [auto|]. intros [?|(Hn & _)]; [done|]. by destruct Hn.
  - rewrite !Vertex_inr. simpl. rewrite assoc_app_fresh.
    destruct (graph.assoc k (graph.vertices s)) as [x|] eqn:Hk.
    + split; [auto|]. intros [?|(_ & -> & _)]; [done|].
      exfalso. apply Hnew. apply assoc_is_Some. eauto.
    + destruct (decide (packageHash p = k)) as [<-|Hne].
      * split; [intros [= <-]; auto|]. intros [?|(_ & _ & ->)]; done.
      * split; [done|]. intros [?|(_ & -> & _)]; done.
Qed.

Lemma AddEdge_cases g s t o g' err :
  graph.AddEdge g s t o = (g', err) →
  s ∈ vkeys g → t ∈ vkeys g → ¬ rtc (edge_rel g) t s →
  (err = Some (Sentinel ErrEdgeAlreadyExists) ∧ g' = g ∧ edge_rel g s t)
  ∨ (err = None ∧ ¬ edge_rel g s t ∧
     g' = graph.mkGraph (graph.vertices g)
            (graph.edges g ++
             [graph.mkEdge s t (foldl (fun a o => o a) (Some []) o)])).
Proof.
  intros H Hs Ht Hts. unfold graph.AddEdge in H.
  destruct (Vertex_of_key g s Hs) as [ps Hps].
  destruct (Vertex_of_key g t Ht) as [pt Hpt].
  rewrite Hps, Hpt in H.
  destruct (graph.find_edge g s t) eqn:Hf.
  - inversion H; subst. left. split_and!; [done..|].
    apply find_edge_is_Some. eauto.
  - destruct (graph.CreatesCycle g s t) as [e|[]] eqn:Hc.
    + exfalso. unfold graph.CreatesCycle in Hc. rewrite Hps, Hpt in Hc.
      by destruct (decide (s = t)).
    + exfalso. by apply CreatesCycle_true in Hc.
    + inversion H; subst. right. split_and!; [done| |done].
      by apply find_edge_None.
Qed.

Section filter.

Context (g : Graph) (filter : Package → bool).
Hypothesis Hwf : wf (Graph_ g).

Local Abbreviation kept := (kept g filter).

Lemma Vertex_hash k p : graph.Vertex (Graph_ g) k = inr p → packageHash p = k.
Proof.
  intros H. apply Vertex_inr, assoc_Some in H. symmetry. by apply (wf_hash _ Hwf).
Qed.

Lemma filter_vertices_spec nodes :
  ∀ sub,
    (∀ n, n ∈ nodes → n ∈ vkeys (Graph_ g)) →
    wf (Graph_ sub) →
    (∀ k p, graph.Vertex (Graph_ sub) k = inr p → kept k p) →
    ∃ sub', filter_vertices g filter nodes sub = inr sub' ∧
            wf (Graph_ sub') ∧
            graph.edges (Graph_ sub') = graph.edges (Graph_ sub) ∧
            ∀ k p, graph.Vertex (Graph_ sub') k = inr p ↔
                   graph.Vertex (Graph_ sub) k = inr p ∨ (k ∈ nodes ∧ kept k p).
Proof.
  induction nodes as [|node nodes IH]; intros sub Hnodes Hsub Hinv; simpl.
  - exists sub. split_and!; [done..|]. intros k p. split; [auto|].
    intros [?|[Hin _]]; [done|]. by apply elem_of_nil in Hin.
  - destruct (Vertex_of_key (Graph_ g) node) as [vertex Hv].
    { apply Hnodes. left. }
    rewrite Hv.
    assert (∀ n, n ∈ nodes → n ∈ vkeys (Graph_ g)) as Hnodes'.
    { intros n Hn. apply Hnodes. by right. }
    destruct (filter vertex) eqn:Hf; simpl.
    + destruct (addVertex sub vertex) as [sub1 e1] eqn:Ha.
      pose proof (addVertex_wf _ _ _ _ Ha Hsub) as Hw1.
      apply addVertex_spec in Ha as (Ha & _ & _).
      pose proof (AddVertex_edges _ _ _ _ Ha) as He1.
      pose proof (fun k q => Vertex_AddVertex _ _ _ _ k q Ha) as Hv1.
      rewrite (Vertex_hash _ _ Hv) in Hv1.
      assert (failed_other_than ErrVertexAlreadyExists e1 = None) as ->.
      { by apply AddVertex_spec in Ha as [(-> & _)|(-> & _)]. }
      destruct (IH sub1 Hnodes' Hw1) as (sub' & Hr & Hw' & He' & Hv').
      { intros k p Hk. apply Hv1 in Hk as [Hk|(_ & -> & ->)]; [auto|done]. }
      exists sub'. split_and!; [done|done|congruence|].
      intros k p. rewrite Hv', Hv1. split.
      * intros [[?|(_ & -> & ->)]|[Hin Hk]]; [by left| |].
        -- right. split; [left|done].
        -- right. split; [by right|done].
      * intros [?|[Hin Hk]]; [by left; left|].
        apply elem_of_cons in Hin as [->|Hin]; [|by right].
        left. destruct Hk as [Hk _]. rewrite Hv in Hk. inversion Hk; subst.
        destruct (decide (node ∈ vkeys (Graph_ sub))) as [Hin|Hnin]; [|by right].
        left. destruct (Vertex_of_key _ _ Hin) as [p' Hp'].
        destruct (Hinv _ _ Hp') as [Hp'' _]. rewrite Hv in Hp''.
        by inversion Hp''; subst.
    + destruct (IH sub Hnodes' Hsub Hinv) as (sub' & Hr & Hw' & He' & Hv').
      exists sub'. split_and!; [done..|].
      intros k p. rewrite Hv'. split.
      * intros [?|[Hin Hk]]; [by left|]. right. split; [by right|done].
      * intros [?|[Hin Hk]]; [by left|].
        apply elem_of_cons in Hin as [->|Hin]; [|by right].
        destruct Hk as [Hk Hfk]. rewrite Hv in Hk. inversion Hk; subst.
        by rewrite Hf in Hfk.
Qed.

Local Abbreviation sound := (sound g).

Lemma filter_deps_spec sub0 deps :
  ∀ sub,
    sound sub0 sub →
    (∀ e, e ∈ deps → e ∈ graph.edges (Graph_ g) ∧
                     graph.Source e ∈ vkeys (Graph_ sub0)) →
    ∃ sub', filter_deps deps sub = inr sub' ∧ sound sub0 sub' ∧
            ∀ u v, edge_rel (Graph_ sub') u v ↔
                   edge_rel (Graph_ sub) u v ∨
                   (∃ e, e ∈ deps ∧ graph.Source e = u ∧ graph.Target e = v ∧
                         v ∈ vkeys (Graph_ sub0)).
Proof.
  induction deps as [|edge deps IH]; intros sub Hsound Hdeps; simpl.
  - exists sub. split_and!; [done..|]. intros u v. split; [auto|].
    intros [?|(e & He & _)]; [done|]. by apply elem_of_nil in He.
  - assert (∀ e, e ∈ deps → e ∈ graph.edges (Graph_ g) ∧
                            graph.Source e ∈ vkeys (Graph_ sub0)) as Hdeps'.
    { intros e He. apply Hdeps. by right. }
    destruct Hsound as (Hvs & Hw & Hsub).
    destruct (Hdeps edge) as [Hedge Hsrc]; [left|].
    destruct (graph.Vertex (Graph_ sub) (graph.Target edge)) as [err|pt] eqn:Ht.
    + destruct (IH sub) as (sub' & Hr & Hs' & He'); [done|done|].
      exists sub'. split_and!; [done..|].
      intros u v. rewrite He'. split.
      * intros [?|(e & He & Hrest)]; [by left|].
        right. exists e. split; [by right|done].
      * intros [?|(e & He & Hu & Hv & Hin)]; [by left|].
        apply elem_of_cons in He as [->|He]; [|right; eauto].
        exfalso. apply Vertex_inl in Ht. apply Ht.
        unfold vkeys. rewrite Hvs. by rewrite Hv.
    + apply Vertex_inr_key in Ht.
      destruct (graph.AddEdge (Graph_ sub) _ _ []) as [s e2] eqn:Ha.
      pose proof (AddEdge_wf _ _ _ _ _ _ Ha Hw) as Hw2.
      pose proof (AddEdge_keys _ _ _ _ _ _ Ha) as Hk2.
      apply AddEdge_cases in Ha; [|by unfold vkeys; rewrite Hvs|done|].
      2:{ intros Hts.
          apply (wf_acyclic _ Hwf (graph.Source edge)).
          eapply tc_rtc_r; [apply tc_once; exists edge; done|].
          eapply rtc_subrel; [|exact Hts]. apply Hsub. }
      assert (failed_other_than ErrEdgeAlreadyExists e2 = None) as ->.
      { by destruct Ha as [(-> & _)|(-> & _)]. }
      assert (∀ u v, edge_rel s u v ↔
                edge_rel (Graph_ sub) u v ∨
                (u = graph.Source edge ∧ v = graph.Target edge)) as Hes.
      { intros u v. destruct Ha as [(_ & -> & Hex)|(_ & _ & ->)].
        - split; [auto|]. intros [?|[-> ->]]; done.
        - by rewrite edge_rel_snoc. }
      destruct (IH (with_store sub s)) as (sub' & Hr & Hs' & He').
      { split_and!; simpl; [congruence|done|].
        intros u v Huv. apply Hes in Huv as [?|[-> ->]]; [auto|].
        exists edge. done. }
      { done. }
      exists sub'. split_and!; [done..|].
      intros u v. rewrite He'. simpl. rewrite Hes. split.
      * intros [[?|[-> ->]]|(e & He & Hrest)]; [by left| |].
        -- right. exists edge. split_and!; [left|done|done|].
           unfold vkeys. by rewrite <- Hvs.
        -- right. exists e. split; [by right|done].
      * intros [?|(e & He & Hu & Hv & Hin)]; [by left; left|].
        apply elem_of_cons in He as [->|He]; [left; right; done|].
        right. eauto.
Qed.

Lemma filter_edges_spec sub0 nodes :
  ∀ sub,
    sound sub0 sub →
    ∃ sub', filter_edges g nodes sub = inr sub' ∧ sound sub0 sub' ∧
            ∀ u v, edge_rel (Graph_ sub') u v ↔
                   edge_rel (Graph_ sub) u v ∨
                   (u ∈ nodes ∧ edge_rel (Graph_ g) u v ∧
                    u ∈ vkeys (Graph_ sub0) ∧ v ∈ vkeys (Graph_ sub0)).
Proof.
  induction nodes as [|node nodes IH]; intros sub Hsound; simpl.
  - exists sub. split_and!; [done..|]. intros u v. split; [auto|].
    intros [?|(Hin & _)]; [done|]. by apply elem_of_nil in Hin.
  - pose proof Hsound as (Hvs & _ & _).
    destruct (graph.Vertex (Graph_ sub) node) as [err|pn] eqn:Hn.
    + destruct (IH sub Hsound) as (sub' & Hr & Hs' & He').
      exists sub'. split_and!; [done..|].
      intros u v. rewrite He'. split.
      * intros [?|(Hin & Hrest)]; [by left|]. right. split; [by right|done].
      * intros [?|(Hin & Huv & Hu & Hv)]; [by left|].
        apply elem_of_cons in Hin as [->|Hin]; [|right; done].
        exfalso. apply Vertex_inl in Hn. apply Hn.
        unfold vkeys. by rewrite Hvs.
    + apply Vertex_inr_key in Hn.
      assert (node ∈ vkeys (Graph_ sub0)) as Hn0
        by (unfold vkeys; by rewrite <- Hvs).
      destruct (filter_deps_spec sub0 (adjacency (Graph_ g) node) sub Hsound)
        as (sub1 & Hr1 & Hs1 & He1).
      { intros e He. unfold adjacency in He.
        apply elem_of_List_filter in He as [He Hsrc].
        apply bool_decide_eq_true in Hsrc. by rewrite Hsrc. }
      rewrite Hr1.
      destruct (IH sub1 Hs1) as (sub' & Hr & Hs' & He').
      exists sub'. split_and!; [done..|].
      intros u v. rewrite He', He1. split.
      * intros [[?|(e & He & Hu & Hv & Hin)]|(Hin & Hrest)]; [by left| |].
        -- unfold adjacency in He.
           apply elem_of_List_filter in He as [He Hsrc].
           apply bool_decide_eq_true in Hsrc.
           right. split_and!; [rewrite <- Hu, Hsrc; left| |by rewrite <- Hu, Hsrc|done].
           exists e. done.
        -- right. split; [by right|done].
      * intros [?|(Hin & Huv & Hu & Hv)]; [by left; left|].
        apply elem_of_cons in Hin as [->|Hin]; [|right; done].
        left. right. destruct Huv as (e & He & Hsrc & Htgt).
        exists e. split_and!; [|done..].
        unfold adjacency. apply elem_of_List_filter. split; [done|].
        by apply bool_decide_eq_true.
Qed.

End filter.

(** C3. On a well-formed graph [Filter] succeeds, and the graph it returns
    has exactly the vertices of [g] that pass the filter and exactly the
    edges of [g] between two of them. *)
Theorem Filter_spec g filter :
  wf (Graph_ g) →
  ∃ sub, Filter g filter = inr sub ∧
    (∀ k p, graph.Vertex (Graph_ sub) k = inr p ↔
            graph.Vertex (Graph_ g) k = inr p ∧ filter p = true) ∧
    (∀ u v, edge_rel (Graph_ sub) u v ↔
            edge_rel (Graph_ g) u v ∧
            (∃ pu, graph.Vertex (Graph_ g) u = inr pu ∧ filter pu = true) ∧
            (∃ pv, graph.Vertex (Graph_ g) v = inr pv ∧ filter pv = true)).
Proof.
  intros Hwf. unfold Filter.
  destruct (filter_vertices_spec g filter Hwf (graph.vertices (Graph_ g)).*1
              (mkG newGraph (packages g) (opts g) ∅))
    as (sub1 & Hr1 & Hw1 & He1 & Hv1); [done|apply wf_new|done|].
  rewrite Hr1.
  destruct (filter_edges_spec g Hwf sub1 (graph.vertices (Graph_ g)).*1 sub1)
    as (sub & Hr & (Hvs & Hw & _) & He).
  { split_and!; [done|done|]. intros u v (e & Hin & _).
    rewrite He1 in Hin. by apply elem_of_nil in Hin. }
  exists sub. split; [done|].
  assert (∀ k p, graph.Vertex (Graph_ sub) k = inr p ↔
                 graph.Vertex (Graph_ g) k = inr p ∧ filter p = true) as Hv.
  { intros k p. unfold graph.Vertex at 1. rewrite Hvs.
    fold (graph.Vertex (Graph_ sub1) k). rewrite Hv1. split.
    - intros [?|[_ ?]]; done.
    - intros [Hk Hf]. right. split; [|done]. by eapply Vertex_inr_key. }
  assert (∀ k, k ∈ vkeys (Graph_ sub1) ↔
               ∃ p, graph.Vertex (Graph_ g) k = inr p ∧ filter p = true) as Hk.
  { intros k. unfold vkeys. rewrite <- Hvs. fold (vkeys (Graph_ sub)). split.
    - intros Hin. destruct (Vertex_of_key _ _ Hin) as [p Hp].
      exists p. by apply Hv.
    - intros (p & Hp). apply Hv in Hp. by eapply Vertex_inr_key. }
  split; [exact Hv|].
  intros u v. rewrite He, !Hk. split.
  - intros [(e & Hin & _)|(_ & Huv & Hu & Hv')].
    + rewrite He1 in Hin. by apply elem_of_nil in Hin.
    + done.
  - intros (Huv & Hu & Hv'). right. split_and!; [|done..].
    destruct Huv as (e & Hin & <- & _). by apply (wf_ends _ Hwf).
Qed.

Lemma Filter_spec_witness :
  ∃ sub, Filter Scenario.abc_graph FilterLocal = inr sub ∧
    (∀ k p, graph.Vertex (Graph_ sub) k = inr p ↔
            graph.Vertex (Graph_ Scenario.abc_graph) k = inr p ∧
            FilterLocal p = true) ∧
    (∀ u v, edge_rel (Graph_ sub) u v ↔
            edge_rel (Graph_ Scenario.abc_graph) u v ∧
            (∃ pu, graph.Vertex (Graph_ Scenario.abc_graph) u = inr pu ∧
                   FilterLocal pu = true) ∧
            (∃ pv, graph.Vertex (Graph_ Scenario.abc_graph) v = inr pv ∧
                   FilterLocal pv = true)).
Proof.
  apply (Filter_spec Scenario.abc_graph FilterLocal).
  apply (NewGraph_wf (Scenario.world (Scenario.local_resolver Scenario.abc))
           (Scenario.store_of Scenario.abc) [] _ None).
  vm_compute. reflexivity.
Defined.

(** * The culprit edge without a [target-origin] *)

(** C6 fails on the code.  The subpackage edge [S-2 → A-1] is added without
    attributes, so its attribute map is empty but not nil.  When that edge is
    the culprit of the pending cycle [A-1 → S-2], the test for a nil map does
    not fire: [resolveCycle] goes on with the dependency name [""], removes
    the edge, commits [A-1 → S-2], and fails only in the re-resolution, with
    the graph changed. *)
Lemma resolveCycle_missing_target_origin :
  (addAppropriatePackage SubpackageCycle.g1 SubpackageCycle.resolver
     (origin SubpackageCycle.A1) "S" Scenario.localIndex).1.2
  = Some SubpackageCycle.pending ∧
  graph.edges (Graph_ SubpackageCycle.g1)
  = [graph.mkEdge "S:2@local" "A:1@local" (Some [])] ∧
  graph.ShortestPath (Graph_ SubpackageCycle.g1) "S:2@local" "A:1@local"
  = inr ["S:2@local"; "A:1@local"] ∧
  (resolveCycle SubpackageCycle.g1 SubpackageCycle.pending "S"
     SubpackageCycle.resolver Scenario.localIndex).2
  = Some (Errorf ReAddOriginalEdge (Some (Errorf UnableToResolve None))) ∧
  graph.edges (Graph_ (resolveCycle SubpackageCycle.g1 SubpackageCycle.pending "S"
                         SubpackageCycle.resolver Scenario.localIndex).1)
  = [graph.mkEdge "A:1@local" "S:2@local" (Some [("target-origin", "S")])].
Proof. vm_compute. split_and!; reflexivity. Qed.

(** * The path that [ShortestPath] returns *)

Section shortest_path.

Context (E : list graph.Edge).

Lemma relax_settled vertex hasInfiniteWeight st adjacency :
  adjacency ∈ graph.succs E vertex →
  settled E st → settled E (graph.relax vertex hasInfiniteWeight st adjacency).
Proof.
  intros Hadj Hst. destruct st as [w bp]. unfold graph.relax.
  destruct (w !! vertex) as [x0|] eqn:Hx0; [|done].
  cbn [fmap option_fmap option_map].
  destruct (graph.wlt (Some (x0 + 1)) (w !! adjacency) && negb hasInfiniteWeight)
    eqn:Hlt; [|done].
  apply andb_true_iff in Hlt as [Hlt _].
  assert (vertex ≠ adjacency) as Hne.
  { intros <-. rewrite Hx0 in Hlt. simpl in Hlt.
    apply bool_decide_eq_true in Hlt. lia. }
  intros v p. simpl. destruct (decide (v = adjacency)) as [->|Hv].
  - rewrite lookup_insert_eq. intros [= <-].
    exists x0, (x0 + 1). rewrite lookup_insert_ne by done.
    rewrite lookup_insert_eq. split_and!; [done|done|lia|].
    by apply elem_of_succs.
  - rewrite lookup_insert_ne by done. intros Hp.
    destruct (Hst v p Hp) as (x & y & Hx & Hy & Hxy & He). simpl in Hx, Hy.
    destruct (decide (p = adjacency)) as [->|Hpa].
    + rewrite Hx in Hlt. simpl in Hlt. apply bool_decide_eq_true in Hlt.
      exists (x0 + 1), y. rewrite lookup_insert_eq.
      rewrite lookup_insert_ne by done. split_and!; [done|done|lia|done].
    + exists x, y. rewrite !lookup_insert_ne by done. done.
Qed.

Lemma relax_all_settled vertex hasInfiniteWeight adjs :
  ∀ st, (∀ a, a ∈ adjs → a ∈ graph.succs E vertex) →
        settled E st →
        settled E (foldl (graph.relax vertex hasInfiniteWeight) st adjs).
Proof.
  induction adjs as [|a adjs IH]; intros st Hadjs Hst; simpl; [done|].
  apply IH.
  - intros b Hb. apply Hadjs. by right.
  - apply relax_settled; [|done]. apply Hadjs. left.
Qed.

Lemma dijkstra_settled fuel :
  ∀ q st, settled E st → settled E (graph.dijkstra fuel E q st).
Proof.
  induction fuel as [|fuel IH]; intros q st Hst; simpl; [done|].
  destruct (graph.pop_min st.1 q) as [[vertex q']|]; [|done].
  apply IH. by apply relax_all_settled.
Qed.

Lemma chain_app_inv {A} (R : relation A) (l1 l2 : list A) :
  chain R (l1 ++ l2) → chain R l1 ∧ chain R l2.
Proof.
  induction l1 as [|a l1 IH]; simpl; [done|].
  destruct l1 as [|b l1]; simpl in *.
  - destruct l2; [done|]. intros [_ H]. done.
  - intros [Hab H]. apply IH in H as [H1 H2]. done.
Qed.

Lemma chain_mono {A} (R R' : relation A) (l : list A) :
  (∀ a b, R a b → R' a b) → chain R l → chain R' l.
Proof.
  intros Hsub. induction l as [|a l IH]; simpl; [done|].
  destruct l as [|b l]; [done|]. intros [Hab H]. split; [auto|]. by apply IH.
Qed.

Lemma chain_rtc {A} (R : relation A) (l : list A) a b :
  chain R (a :: l) → last (a :: l) = Some b → rtc R a b.
Proof.
  revert a. induction l as [|c l IH]; intros a; simpl.
  - intros _ [= ->]. done.
  - intros [Hac H] Hl. eapply rtc_l; [exact Hac|]. by apply IH.
Qed.

Lemma chain_climbs_lt w a l :
  chain (climbs E w) (a :: l) →
  ∀ b, b ∈ l → ∃ x y, w !! a = Some x ∧ w !! b = Some y ∧ x < y.
Proof.
  revert a. induction l as [|c l IH]; intros a; simpl.
  - intros _ b Hb. by apply elem_of_nil in Hb.
  - intros [(x & y & Hx & Hy & Hxy & _) H] b Hb.
    apply elem_of_cons in Hb as [->|Hb]; [eauto|].
    destruct (IH c H b Hb) as (y' & z & Hy' & Hz & Hyz).
    exists x, z. split_and!; [done|done|]. rewrite Hy in Hy'. inversion Hy'. lia.
Qed.

Lemma chain_climbs_NoDup w l : chain (climbs E w) l → NoDup l.
Proof.
  induction l as [|a l IH]; [constructor|]. intros H. apply NoDup_cons. split.
  - intros Hin. destruct (chain_climbs_lt w a l H a Hin) as (x & y & Hx & Hy & Hxy).
    rewrite Hx in Hy. inversion Hy. lia.
  - apply IH. destruct l; [done|]. by destruct H.
Qed.

(** The walk back from the target: it prepends to the path, and keeps it
    a chain of edges of strictly increasing weight. *)
Lemma backtrack_chain st source fuel :
  settled E st →
  ∀ current path sp,
    chain (climbs E st.1) (current :: path) →
    graph.backtrack fuel st.2 source current (current :: path) = inr sp →
    chain (climbs E st.1) sp ∧ ∃ pre, sp = source :: pre ∧
                                     ∃ pre', sp = pre' ++ current :: path.
Proof.
  intros Hst. induction fuel as [|fuel IH]; intros current path sp Hch; simpl.
  - destruct (decide (current = source)) as [->|]; [|done].
    intros [= <-]. split; [done|]. exists path. split; [done|]. by exists [].
  - destruct (decide (current = source)) as [->|].
    { intros [= <-]. split; [done|]. exists path. split; [done|]. by exists []. }
    destruct (st.2 !! current) as [p|] eqn:Hp; [|done].
    intros H. apply IH in H as (Hc & pre & Hsp & pre' & Hsp').
    + split; [done|]. exists pre. split; [done|].
      exists (pre' ++ [p]). by rewrite <- app_assoc.
    + split; [by apply Hst|done].
Qed.

(** The walk back never stops for lack of fuel: it fails only at a vertex
    without a best predecessor. *)
Lemma backtrack_fails st source fuel :
  settled E st →
  ∀ current path e,
    (∀ y, st.1 !! current = Some y → y < fuel) →
    graph.backtrack fuel st.2 source current path = inl e →
    ∃ v, v ≠ source ∧ st.2 !! v = None.
Proof.
  intros Hst. induction fuel as [|fuel IH]; intros current path e Hfuel; simpl.
  - destruct (decide (current = source)); [done|]. intros _.
    exists current. split; [done|].
    destruct (st.2 !! current) as [p|] eqn:Hp; [|done].
    destruct (Hst current p Hp) as (x & y & _ & Hy & _).
    specialize (Hfuel y Hy). lia.
  - destruct (decide (current = source)); [done|].
    destruct (st.2 !! current) as [p|] eqn:Hp; [|by exists current].
    apply IH. intros x Hx.
    destruct (Hst current p Hp) as (x' & y & Hx' & Hy & Hxy & _).
    rewrite Hx in Hx'. inversion Hx'; subst. specialize (Hfuel y Hy). lia.
Qed.

End shortest_path.

Lemma settled_init E source : settled E ({[ source := 0 ]}, ∅).
Proof. intros v p H. simpl in H. by rewrite lookup_empty in H. Qed.

(** The path of [ShortestPath] runs over edges of the graph from the source
    to the target and visits no vertex twice. *)
Lemma ShortestPath_spec g source target sp :
  graph.ShortestPath g source target = inr sp →
  chain (edge_rel g) sp ∧ NoDup sp ∧
  (∃ l, sp = source :: l) ∧ (∃ l, sp = l ++ [target]).
Proof.
  unfold graph.ShortestPath.
  pose proof (dijkstra_settled (graph.edges g) (length (graph.vertices g).*1)
                (graph.vertices g).*1 _ (settled_init (graph.edges g) source)) as Hst.
  destruct (graph.dijkstra _ _ _ _) as [w bp]. intros H.
  apply (backtrack_chain (graph.edges g) (w, bp)) in H
    as (Hc & pre & Hsp & pre' & Hsp'); [|done|done].
  split_and!.
  - eapply chain_mono; [|exact Hc]. intros a b (x & y & _ & _ & _ & He). exact He.
  - by eapply chain_climbs_NoDup.
  - eauto.
  - eauto.
Qed.

(** [ShortestPath] never fails for lack of fuel: it fails only when the walk
    back from the target meets a vertex, other than the source, that
    Dijkstra's loop gave no predecessor. *)
Lemma ShortestPath_fails g source target e :
  graph.ShortestPath g source target = inl e →
  ∃ v, v ≠ source ∧
       (graph.dijkstra (length (graph.vertices g).*1) (graph.edges g)
          (graph.vertices g).*1 ({[ source := 0 ]}, ∅)).2 !! v = None.
Proof.
  unfold graph.ShortestPath.
  pose proof (dijkstra_settled (graph.edges g) (length (graph.vertices g).*1)
                (graph.vertices g).*1 _ (settled_init (graph.edges g) source)) as Hst.
  destruct (graph.dijkstra _ _ _ _) as [w bp]. intros H.
  apply (backtrack_fails (graph.edges g) (w, bp)) in H; [done|done|].
  intros y Hy. simpl in Hy. rewrite Hy. simpl. lia.
Qed.

(** * The rotation of [resolveCycle] *)

Lemma chain_mono_in {A} (R R' : relation A) (l : list A) :
  (∀ a b, a ∈ l → b ∈ l → R a b → R' a b) → chain R l → chain R' l.
Proof.
  induction l as [|a l IH]; simpl; [done|].
  destruct l as [|b l]; [done|]. intros Hsub [Hab H]. split.
  - apply Hsub; [left|right; left|done].
  - apply IH; [|done]. intros x y Hx Hy. apply Hsub; by right.
Qed.

Lemma last_two_lookup {A} (pre : list A) (a b : A) :
  (pre ++ [a; b]) !! (length (pre ++ [a; b]) - 2) = Some a ∧
  (pre ++ [a; b]) !! (length (pre ++ [a; b]) - 1) = Some b.
Proof.
  rewrite length_app. simpl.
  replace (length pre + 2 - 2) with (length pre + 0) by lia.
  replace (length pre + 2 - 1) with (length pre + 1) by lia.
  split.
  - rewrite lookup_app_r by lia.
    by replace (length pre + 0 - length pre) with 0 by lia.
  - rewrite lookup_app_r by lia.
    by replace (length pre + 1 - length pre) with 1 by lia.
Qed.

Lemma last_two_split {A} (sp : list A) :
  ¬ length sp < 2 → ∃ pre a b, sp = pre ++ [a; b].
Proof.
  intros Hlen. destruct sp as [|x sp _] using rev_ind; [simpl in Hlen; lia|].
  destruct sp as [|y sp _] using rev_ind; [simpl in Hlen; lia|].
  exists sp, y, x. by rewrite <- app_assoc.
Qed.

(** The state after the culprit edge is removed and the wanted edge is
    committed. *)
Lemma rotation_facts g c o pre culprit removed s2 :
  wf g →
  graph.ShortestPath g (target c) (src c) = inr (pre ++ [culprit; removed]) →
  graph.AddEdge (graph.RemoveEdge g culprit removed).1 (src c) (target c) o
  = (s2, None) →
  removed = src c ∧ edge_rel g culprit removed ∧ wf s2 ∧ culprit ∈ vkeys s2 ∧
  ¬ edge_rel s2 culprit removed ∧ rtc (edge_rel s2) removed culprit ∧
  graph.mkEdge (src c) (target c) (foldl (fun a o => o a) (Some []) o)
    ∈ graph.edges s2 ∧
  (∀ u v, edge_rel g u v → ¬ (u = culprit ∧ v = removed) → edge_rel s2 u v).
Proof.
  intros Hwf Hsp Ha.
  apply ShortestPath_spec in Hsp as (Hch & Hnd & (l & Hhead) & (l' & Hlast)).
  assert (removed = src c) as Hrem.
  { change (pre ++ [culprit; removed]) with (pre ++ [culprit] ++ [removed]) in Hlast.
    rewrite app_assoc in Hlast. by apply app_inj_tail in Hlast as [_ ?]. }
  assert (edge_rel g culprit removed) as Hcr.
  { apply chain_app_inv in Hch as [_ Hch]. simpl in Hch. by destruct Hch. }
  change (pre ++ [culprit; removed]) with (pre ++ [culprit] ++ [removed]) in *.
  rewrite app_assoc in Hch, Hnd, Hhead.
  apply NoDup_app in Hnd as (_ & Hnd & _).
  assert (removed ∉ pre ++ [culprit]) as Hnin.
  { intros Hin. apply (Hnd _ Hin). left. }
  destruct (graph.RemoveEdge g culprit removed) as [s1 e1] eqn:Hr.
  pose proof (RemoveEdge_wf _ _ _ _ _ Hr Hwf) as Hw1.
  apply RemoveEdge_spec in Hr as [(_ & _ & Hno)|(_ & _ & Hs1)]; [done|].
  simpl in Ha.
  pose proof (AddEdge_wf _ _ _ _ _ _ Ha Hw1) as Hw2.
  pose proof (AddEdge_keys _ _ _ _ _ _ Ha) as Hk2.
  apply AddEdge_spec in Ha as [[_ [? ?]]|(_ & _ & _ & _ & _ & Hs2)]; [done|].
  assert (∀ u v, edge_rel s1 u v ↔ edge_rel g u v ∧ ¬ (u = culprit ∧ v = removed))
    as He1 by (intros u v; rewrite Hs1; apply edge_rel_removed).
  assert (∀ u v, edge_rel s2 u v ↔ edge_rel s1 u v ∨ (u = src c ∧ v = target c))
    as He2 by (intros u v; rewrite Hs2; by rewrite edge_rel_snoc).
  assert (rtc (edge_rel s1) (target c) culprit) as Hreach.
  { apply chain_app_inv in Hch as [Hch _].
    assert (∃ l0, pre ++ [culprit] = target c :: l0) as [l0 Hl0].
    { destruct pre as [|x pre]; simpl in *; inversion Hhead; eauto. }
    rewrite Hl0 in Hch.
    eapply (chain_rtc (edge_rel s1) l0).
    - eapply chain_mono_in; [|exact Hch]. intros a b _ Hb Hab. apply He1.
      split; [done|]. intros [_ ->]. apply Hnin. by rewrite Hl0.
    - rewrite <- Hl0. by rewrite last_snoc. }
  split_and!; [done|done|done| | | | |].
  - unfold vkeys. rewrite Hk2. rewrite Hs1. simpl.
    destruct Hcr as (e & Hin & <- & _). by apply (wf_ends _ Hwf).
  - intros Hx. apply He2 in Hx as [Hx|[Hx1 Hx2]].
    + apply He1 in Hx as [_ Hx]. by apply Hx.
    + apply Hnin. rewrite Hrem, <- Hx1. apply elem_of_app. right. left.
  - rewrite Hrem. eapply rtc_l; [apply He2; by right|].
    eapply rtc_subrel; [|exact Hreach]. intros u v Huv. apply He2. by left.
  - rewrite Hs2. simpl. apply elem_of_app. right. left.
  - intros u v Huv Hne. apply He2. left. by apply He1.
Qed.

(** The re-resolution of the culprit's dependency cannot bring the removed
    edge back: it would close the cycle through the committed edge. *)
Lemma reresolve_facts g2 resolver config origDep localRepo removed g3 cy err :
  wf (Graph_ g2) →
  ¬ edge_rel (Graph_ g2) (packageHash config) removed →
  rtc (edge_rel (Graph_ g2)) removed (packageHash config) →
  addAppropriatePackage g2 resolver config origDep localRepo = (g3, cy, err) →
  ¬ edge_rel (Graph_ g3) (packageHash config) removed ∧
  (∀ e, e ∈ graph.edges (Graph_ g2) → e ∈ graph.edges (Graph_ g3)) ∧
  (is_Some cy → graph.edges (Graph_ g3) = graph.edges (Graph_ g2) ∧ err = None).
Proof.
  intros Hwf Hno Hreach H.
  apply addAppropriatePackage_grows in H as (_ & (_ & _ & _ & Hg) & Hcy).
  split_and!.
  - destruct Hg as [Hg|(e & Hg & Hs & Hr)].
    + by rewrite (edge_rel_edges _ _ Hg).
    + intros (e' & Hin & Hs' & Ht'). rewrite Hg in Hin.
      apply elem_of_app in Hin as [Hin|Hin].
      * apply Hno. exists e'. done.
      * apply list_elem_of_singleton in Hin as ->. apply Hr. by rewrite Ht'.
  - intros e He. destruct Hg as [->|(e' & -> & _)]; [done|].
    apply elem_of_app. by left.
  - intros Hc. destruct (Hcy Hc) as [(_ & _ & _ & ?) ?]. done.
Qed.

(** [resolveCycle] once the path, its last hop and the edge of that hop are
    known: the edge is there, and its removal cannot fail. *)
Lemma resolveCycle_unfold g c dep resolver localRepo pre culprit removed :
  wf (Graph_ g) →
  graph.ShortestPath (Graph_ g) (target c) (src c) = inr (pre ++ [culprit; removed]) →
  ∃ edge,
    graph.Edge_ (Graph_ g) culprit removed = inr edge ∧
    resolveCycle g c dep resolver localRepo =
    match graph.Attributes edge with
    | None => (g, Some (Errorf NoAttributes None))
    | Some attrs =>
        match graph.AddEdge (graph.RemoveEdge (Graph_ g) culprit removed).1
                (src c) (target c) [graph.EdgeAttribute "target-origin" dep] with
        | (s2, Some err) =>
            (with_store g s2, Some (Errorf AddReplacementEdge (Some err)))
        | (s2, None) =>
            match graph.Vertex s2 culprit with
            | inl err => (with_store g s2, Some (Errorf NoOriginalVertex (Some err)))
            | inr config =>
                match addAppropriatePackage (with_store g s2) resolver config
                        (attribute attrs "target-origin") localRepo with
                | (g3, _, Some err) => (g3, Some (Errorf ReAddOriginalEdge (Some err)))
                | (g3, Some _, None) => (g3, Some (Errorf StillCausesCycle None))
                | (g3, None, None) => (g3, None)
                end
            end
        end
    end.
Proof.
  intros Hwf Hsp.
  assert (edge_rel (Graph_ g) culprit removed) as Hcr.
  { apply ShortestPath_spec in Hsp as (Hch & _).
    apply chain_app_inv in Hch as [_ Hch]. simpl in Hch. by destruct Hch. }
  apply find_edge_is_Some in Hcr as [edge Hedge].
  exists edge. unfold graph.Edge_. rewrite Hedge. split; [done|].
  unfold resolveCycle. rewrite Hsp.
  destruct (last_two_lookup pre culprit removed) as [-> ->]. simpl default.
  rewrite decide_False by (rewrite length_app; simpl; lia).
  unfold graph.Edge_. rewrite Hedge.
  destruct (graph.Attributes edge) as [attrs|]; [|done].
  unfold graph.RemoveEdge. rewrite Hedge. simpl. done.
Qed.


(** C10. When [resolveCycle] fails after it removed the culprit edge (the
    library refuses the wanted edge, the culprit vertex is not found, or the
    re-resolution fails or yields another pending cycle), the culprit edge is
    not in the graph it leaves, and the wanted edge is, if it was committed:
    the graph is not the one before the repair. *)
Theorem resolveCycle_failure_not_restored g c dep resolver localRepo g' s cause :
  wf (Graph_ g) →
  resolveCycle g c dep resolver localRepo = (g', Some (Errorf s cause)) →
  s = AddReplacementEdge ∨ s = NoOriginalVertex ∨
  s = ReAddOriginalEdge ∨ s = StillCausesCycle →
  ∃ pre culprit removed,
    graph.ShortestPath (Graph_ g) (target c) (src c)
    = inr (pre ++ [culprit; removed]) ∧
    edge_rel (Graph_ g) culprit removed ∧
    ¬ edge_rel (Graph_ g') culprit removed ∧
    (s ≠ AddReplacementEdge → edge_rel (Graph_ g') (src c) (target c)) ∧
    Graph_ g' ≠ Graph_ g.
Proof.
  intros Hwf Hres Hs.
  destruct (graph.ShortestPath (Graph_ g) (target c) (src c)) as [e|sp] eqn:Hsp.
  { unfold resolveCycle in Hres. rewrite Hsp in Hres. inversion Hres; subst.
    by destruct Hs as [?|[?|[?|?]]]. }
  destruct (decide (length sp < 2)) as [Hlen|Hlen].
  { unfold resolveCycle in Hres. rewrite Hsp, decide_True in Hres by done.
    inversion Hres; subst. by destruct Hs as [?|[?|[?|?]]]. }
  apply last_two_split in Hlen as (pre & culprit & removed & ->).
  destruct (resolveCycle_unfold g c dep resolver localRepo pre culprit removed Hwf Hsp)
    as (edge & Hedge & Heq).
  rewrite Heq in Hres. clear Heq.
  assert (edge_rel (Graph_ g) culprit removed) as Hcr.
  { apply find_edge_is_Some. unfold graph.Edge_ in Hedge.
    destruct (graph.find_edge (Graph_ g) culprit removed); [eauto|done]. }
  exists pre, culprit, removed. split; [done|]. split; [done|].
  assert (∀ s', ¬ edge_rel s' culprit removed → s' ≠ Graph_ g) as Hdiff.
  { intros s' Hno ->. done. }
  destruct (graph.Attributes edge) as [attrs|];
    [|inversion Hres; subst; by destruct Hs as [?|[?|[?|?]]]].
  destruct (graph.AddEdge _ (src c) (target c) _) as [s2 [err|]] eqn:Ha.
  { inversion Hres; subst. simpl.
    assert (¬ edge_rel s2 culprit removed) as Hno.
    { apply AddEdge_spec in Ha as [[-> _]|(? & _)]; [|done].
      destruct (graph.RemoveEdge (Graph_ g) culprit removed) as [s1 e1] eqn:Hr.
      apply RemoveEdge_spec in Hr as [(_ & _ & ?)|(_ & _ & ->)]; [done|].
      simpl. rewrite edge_rel_removed. intros [_ Hx]. by apply Hx. }
    split_and!; [done|done|by apply Hdiff]. }
  destruct (rotation_facts _ _ _ _ _ _ _ Hwf Hsp Ha)
    as (Hrem & _ & Hw2 & Hk & Hno & Hreach & Hedge2 & Hkeep).
  destruct (Vertex_of_key _ _ Hk) as [config Hconfig].
  assert (packageHash config = culprit) as Hhash.
  { symmetry. apply (wf_hash _ Hw2). by apply assoc_Some, Vertex_inr. }
  rewrite Hconfig in Hres.
  destruct (addAppropriatePackage _ _ _ _ _) as [[g3 cy] e] eqn:Hr.
  rewrite <- Hhash in Hno, Hreach.
  destruct (reresolve_facts (with_store g s2) _ _ _ _ _ _ _ _ Hw2 Hno Hreach Hr)
    as (Hno3 & Hinc & _).
  rewrite Hhash in Hno3.
  assert (g' = g3) as -> by (destruct cy, e; by inversion Hres).
  split_and!; [done| |by apply Hdiff].
  intros _. eexists. split; [apply Hinc, Hedge2|done].
Qed.


Lemma Irreparable_wf : wf (Graph_ Irreparable.g).
Proof.
  apply (NewGraph_wf (Scenario.world Irreparable.resolver) Irreparable.store [] _ None).
  vm_compute. reflexivity.
Qed.


(** In the scenario the rotation succeeds: [Y → X] replaces [X → Y], and
    [X] gets [lib] from upstream. *)
Example Rotation_result :
  let r := resolveCycle Rotation.g Rotation.pending "X" Rotation.resolver
             Scenario.localIndex in
  r.2 = None ∧
  graph.edges (Graph_ r.1) =
  [graph.mkEdge "Y:1@local" "X:1@local" (Some [("target-origin", "X")]);
   graph.mkEdge "X:1@local" "lib:1.0@https://repo" (Some [("target-origin", "lib")])].
Proof. vm_compute. split; reflexivity. Qed.

Lemma resolveCycle_failure_not_restored_witness :
  ∃ pre culprit removed,
    graph.ShortestPath (Graph_ Irreparable.g) (target Irreparable.pending)
      (src Irreparable.pending) = inr (pre ++ [culprit; removed]) ∧
    edge_rel (Graph_ Irreparable.g) culprit removed ∧
    ¬ edge_rel (Graph_ (resolveCycle Irreparable.g Irreparable.pending "A"
                          Irreparable.resolver Scenario.localIndex).1)
        culprit removed ∧
    (StillCausesCycle ≠ AddReplacementEdge →
     edge_rel (Graph_ (resolveCycle Irreparable.g Irreparable.pending "A"
                         Irreparable.resolver Scenario.localIndex).1)
       (src Irreparable.pending) (target Irreparable.pending)) ∧
    Graph_ (resolveCycle Irreparable.g Irreparable.pending "A"
              Irreparable.resolver Scenario.localIndex).1
    ≠ Graph_ Irreparable.g.
Proof.
  apply (resolveCycle_failure_not_restored Irreparable.g Irreparable.pending "A"
           Irreparable.resolver Scenario.localIndex _ StillCausesCycle None).
  - exact Irreparable_wf.
  - etrans; [apply surjective_pairing|]. apply (f_equal (pair _)).
    vm_compute. reflexivity.
  - by right; right; right.
Defined.

(** In the scenario the repair fails and leaves [B → A] where [A → B]
    was. *)
Example Irreparable_result :
  let r := resolveCycle Irreparable.g Irreparable.pending "A" Irreparable.resolver
             Scenario.localIndex in
  r.2 = Some (Errorf StillCausesCycle None) ∧
  graph.edges (Graph_ Irreparable.g) =
  [graph.mkEdge "A:1@local" "B:1@local" (Some [("target-origin", "B")])] ∧
  graph.edges (Graph_ r.1) =
  [graph.mkEdge "B:1@local" "A:1@local" (Some [("target-origin", "A")])].
Proof. vm_compute. split_and!; reflexivity. Qed.

(** * Topological order *)

Lemma wf_shaped s : wf s → shaped s.
Proof. intros [? ? ? ? ?]. by split_and!. Qed.

Lemma before_app_r {A} (u v : A) l l' : before u v l → before u v (l ++ l').
Proof.
  intros (l1 & l2 & l3 & ->). exists l1, l2, (l3 ++ l'). by norm_app.
Qed.

Lemma before_snoc {A} (u v : A) l : u ∈ l → before u v (l ++ [v]).
Proof.
  intros Hu. apply list_elem_of_split in Hu as (l1 & l2 & ->).
  exists l1, l2, []. by norm_app.
Qed.

Lemma before_fmap {A B} (f : A → B) (u v : A) l :
  before u v l → before (f u) (f v) (f <$> l).
Proof.
  intros (l1 & l2 & l3 & ->). exists (f <$> l1), (f <$> l2), (f <$> l3).
  by rewrite !fmap_app, !fmap_cons, !fmap_app, !fmap_cons.
Qed.

Lemma before_reverse {A} (u v : A) l : before u v l → before v u (reverse l).
Proof.
  intros (l1 & l2 & l3 & ->). exists (reverse l3), (reverse l2), (reverse l1).
  rewrite !reverse_app, !reverse_cons, !reverse_app, !reverse_cons.
  by norm_app.
Qed.

Lemma before_irrefl {A} (v : A) l : NoDup l → ¬ before v v l.
Proof.
  intros Hnd (l1 & l2 & l3 & ->).
  apply NoDup_app in Hnd as (_ & _ & Hnd). apply NoDup_cons in Hnd as [Hnin _].
  apply Hnin. apply elem_of_app. right. left.
Qed.

Lemma NoDup_split_unique {A} (x : A) a b a' b' :
  NoDup (a ++ x :: b) → a ++ x :: b = a' ++ x :: b' → a = a' ∧ b = b'.
Proof.
  revert a'. induction a as [|y a IH]; intros a' Hnd Heq.
  - destruct a' as [|z a']; simpl in *; [by inversion Heq|].
    inversion Heq; subst. apply NoDup_cons in Hnd as [Hnin _].
    exfalso. apply Hnin. apply elem_of_app. right. left.
  - destruct a' as [|z a']; simpl in *.
    + inversion Heq; subst. apply NoDup_cons in Hnd as [Hnin _].
      exfalso. apply Hnin. apply elem_of_app. right. left.
    + inversion Heq; subst. apply NoDup_cons in Hnd as [_ Hnd].
      destruct (IH a' Hnd) as [-> ->]; done.
Qed.

Lemma before_trans {A} (u v w : A) l :
  NoDup l → before u v l → before v w l → before u w l.
Proof.
  intros Hnd (l1 & l2 & l3 & H1) (k1 & k2 & k3 & H2).
  destruct (NoDup_split_unique v (l1 ++ u :: l2) l3 k1 (k2 ++ w :: k3))
    as [<- ->].
  - rewrite H1 in Hnd. revert Hnd. by norm_app.
  - rewrite <- H2, H1. by norm_app.
  - exists l1, (l2 ++ v :: k2), k3. rewrite H1. by norm_app.
Qed.

(** A relation without cycles has, in every non-empty list, an element
    that nothing of the list leads to: otherwise there is no proof of
    falsity to be had from it. *)
Lemma minimal_element (T : relation string) (S : list string) :
  (∀ x, ¬ T x x) → (∀ x y z, T x y → T y z → T x z) → S ≠ [] →
  ¬ ¬ ∃ m, m ∈ S ∧ ∀ u, u ∈ S → ¬ T u m.
Proof.
  intros Hirr Htrans. induction S as [|a S IH]; [done|]. intros _ Hn.
  destruct S as [|b S].
  { apply Hn. exists a. split; [left|]. intros u Hu.
    apply list_elem_of_singleton in Hu as ->. apply Hirr. }
  apply IH; [done|]. intros (m & Hm & Hmin).
  assert (¬ ¬ (T a m ∨ ¬ T a m)) as Hem by tauto.
  apply Hem. intros [HT|HnT]; apply Hn.
  - exists a. split; [left|]. intros u Hu HTu.
    apply elem_of_cons in Hu as [->|Hu]; [by apply (Hirr a)|].
    apply (Hmin u Hu). by eapply Htrans.
  - exists m. split; [by right|]. intros u Hu.
    apply elem_of_cons in Hu as [->|Hu]; [done|by apply Hmin].
Qed.

Lemma no_sourceless_set (R : relation string) (S : list string) :
  (∀ v, ¬ tc R v v) → S ≠ [] → (∀ v, v ∈ S → ∃ u, u ∈ S ∧ R u v) → False.
Proof.
  intros Hac Hne Hpred.
  apply (minimal_element (tc R) S Hac); [|done|].
  - intros x y z Hxy Hyz. by etrans.
  - intros (m & Hm & Hmin). destruct (Hpred m Hm) as (u & Hu & Hum).
    apply (Hmin u Hu). by apply tc_once.
Qed.

Lemma diff_snoc (P : gset string) (order : list string) cur :
  P ∖ list_to_set order ∖ {[cur]} = P ∖ list_to_set (order ++ [cur]).
Proof. set_solver. Qed.

Lemma diff_snoc_notin (P : gset string) (order : list string) cur :
  cur ∉ P → P ∖ list_to_set (order ++ [cur]) = P ∖ list_to_set order.
Proof. set_solver. Qed.

Lemma diff_empty_subseteq (P Q : gset string) : P ∖ Q = ∅ → P ⊆ Q.
Proof.
  intros He x Hx. destruct (decide (x ∈ Q)) as [|Hn]; [done|].
  assert (x ∈ P ∖ Q) as Hin by (by apply elem_of_difference).
  rewrite He in Hin. by apply elem_of_empty in Hin.
Qed.

Lemma subseteq_snoc (P : gset string) (order : list string) cur :
  P ⊆ list_to_set order → P ⊆ list_to_set (order ++ [cur]).
Proof. set_solver. Qed.

Lemma diff_nil (P : gset string) : P ∖ list_to_set [] = P.
Proof. set_solver. Qed.

Section kahn.

Context (E : list graph.Edge) (V : list string).
Hypothesis HV : NoDup V.
Hypothesis Hends :
  ∀ e, e ∈ E → graph.Source e ∈ V ∧ graph.Target e ∈ V.
Hypothesis HE : NoDup (ends <$> E).

Lemma elem_of_pred_set u v : u ∈ pred_set E v ↔ u ∈ graph.preds E v.
Proof. unfold pred_set. by rewrite elem_of_list_to_set. Qed.

Lemma succs_preds u v : v ∈ graph.succs E u ↔ u ∈ graph.preds E v.
Proof. by rewrite elem_of_succs, elem_of_preds. Qed.

Lemma succs_in_V u v : v ∈ graph.succs E u → v ∈ V.
Proof.
  intros H. apply elem_of_succs in H as (e & He & _ & <-). by apply Hends.
Qed.

Lemma preds_in_V u v : u ∈ graph.preds E v → u ∈ V.
Proof.
  intros H. apply elem_of_preds in H as (e & He & <- & _). by apply Hends.
Qed.

Lemma succs_NoDup u : NoDup (graph.succs E u).
Proof.
  unfold graph.succs. clear Hends. induction E as [|e E' IH]; simpl; [constructor|].
  simpl in HE. apply NoDup_cons in HE as [Hnin HE'].
  destruct (decide (graph.Source e = u)) as [Hs|Hs].
  - rewrite (bool_decide_eq_true_2 _ Hs). simpl. apply NoDup_cons. split; [|auto].
    intros Hin. apply Hnin. apply list_elem_of_fmap in Hin as (e' & Ht & Hin).
    apply elem_of_List_filter in Hin as [Hin Hs'].
    apply bool_decide_eq_true in Hs'.
    apply list_elem_of_fmap. exists e'. split; [|done].
    unfold ends. by rewrite Hs, Hs', Ht.
  - rewrite (bool_decide_eq_false_2 _ Hs). auto.
Qed.

Lemma release_inv order cur t todo pm q :
  kahn_inv E V order (order ++ [cur]) (t :: todo) pm q →
  NoDup (t :: todo) → t ∈ V →
  kahn_inv E V order (order ++ [cur]) todo
    (graph.release cur (pm, q) t).1 (graph.release cur (pm, q) t).2.
Proof.
  intros [J1 J2 J3 J4 J5] Hnd Ht.
  apply NoDup_cons in Hnd as [Htodo Hnd].
  destruct (J4 t) as [Htnot Hpm]; [left|].
  unfold graph.release. rewrite Hpm. simpl default.
  rewrite diff_snoc.
  destruct (decide (pred_set E t ∖ list_to_set (order ++ [cur]) = ∅)) as [He|Hne];
    simpl; split.
  - rewrite app_assoc. apply NoDup_app. split_and!; [done| |apply NoDup_singleton].
    intros x Hx Hx'. apply list_elem_of_singleton in Hx' as ->. done.
  - intros v Hv. rewrite app_assoc in Hv.
    apply elem_of_app in Hv as [Hv|Hv]; [by apply J2|].
    by apply list_elem_of_singleton in Hv as ->.
  - intros v Hv Hnin Hnt.
    assert (v ≠ t) as Hvt.
    { intros ->. apply Hnin. rewrite app_assoc. apply elem_of_app. right. left. }
    rewrite lookup_delete_ne by done. apply J3; [done| |].
    + intros Hin. apply Hnin. rewrite app_assoc. apply elem_of_app. by left.
    + rewrite not_elem_of_cons. done.
  - intros v Hv. assert (v ≠ t) as Hvt by (by intros ->).
    destruct (J4 v) as [Hvnot Hvpm]; [by right|].
    rewrite lookup_delete_ne by done. split; [|done].
    rewrite app_assoc. rewrite not_elem_of_app. split; [done|].
    by rewrite list_elem_of_singleton.
  - intros v Hv. rewrite app_assoc in Hv.
    apply elem_of_app in Hv as [Hv|Hv]; [by apply J5|].
    apply list_elem_of_singleton in Hv as ->. by apply diff_empty_subseteq.
  - done.
  - done.
  - intros v Hv Hnin Hnt. destruct (decide (v = t)) as [->|Hvt].
    + by rewrite lookup_insert_eq.
    + rewrite lookup_insert_ne by done. apply J3; [done|done|].
      rewrite not_elem_of_cons. done.
  - intros v Hv. assert (v ≠ t) as Hvt by (by intros ->).
    rewrite lookup_insert_ne by done. apply J4. by right.
  - done.
Qed.

Lemma release_all_inv order cur todo :
  ∀ pm q,
    kahn_inv E V order (order ++ [cur]) todo pm q →
    NoDup todo → (∀ t, t ∈ todo → t ∈ V) →
    kahn_inv E V order (order ++ [cur]) []
      (foldl (graph.release cur) (pm, q) todo).1
      (foldl (graph.release cur) (pm, q) todo).2.
Proof.
  induction todo as [|t todo IH]; intros pm q Hinv Hnd HV'; cbn [foldl]; [done|].
  pose proof (release_inv _ _ _ _ _ _ Hinv Hnd (HV' t ltac:(left))) as Hinv'.
  destruct (graph.release cur (pm, q) t) as [pm' q']. simpl in Hinv'.
  apply (IH pm' q'); [done| |].
  - by apply NoDup_cons in Hnd as [_ ?].
  - intros x Hx. apply HV'. by right.
Qed.

Lemma dequeue_inv order cur queue pm :
  kahn_inv E V order order [] pm (cur :: queue) →
  kahn_inv E V order (order ++ [cur]) (graph.succs E cur) pm queue.
Proof.
  intros [J1 J2 J3 J4 J5].
  assert (∀ v, v ∈ (order ++ [cur]) ++ queue ↔ v ∈ order ++ cur :: queue) as Hsame.
  { intros v. by rewrite <- app_assoc. }
  assert (cur ∉ order) as Hcur.
  { apply NoDup_app in J1 as (_ & J1 & _). intros Hin. apply (J1 _ Hin). left. }
  split.
  - by rewrite <- app_assoc.
  - intros v Hv. apply J2. by apply Hsame.
  - intros v Hv Hnin Hns.
    destruct (J3 v Hv) as [Hpm Hne]; [by rewrite <- Hsame|apply not_elem_of_nil|].
    rewrite diff_snoc_notin; [done|].
    rewrite elem_of_pred_set, <- succs_preds. done.
  - intros v Hv.
    assert (v ∉ order ++ cur :: queue) as Hnin.
    { intros Hin. apply Hcur. apply J5 in Hin.
      apply succs_preds, elem_of_pred_set in Hv.
      apply Hin in Hv. by apply elem_of_list_to_set in Hv. }
    split; [by rewrite Hsame|].
    apply J3; [by eapply succs_in_V|done|apply not_elem_of_nil].
  - intros v Hv. apply Hsame, J5 in Hv. by apply subseteq_snoc.
Qed.

Lemma sorted_snoc order cur :
  sorted E order → pred_set E cur ⊆ list_to_set order →
  sorted E (order ++ [cur]).
Proof.
  intros Hs Hp u v Hu Hv. apply elem_of_app in Hv as [Hv|Hv].
  - apply before_app_r. by apply Hs.
  - apply list_elem_of_singleton in Hv as ->. apply before_snoc.
    apply elem_of_pred_set in Hu. apply Hp in Hu.
    by apply elem_of_list_to_set in Hu.
Qed.

Lemma kahn_spec fuel :
  ∀ pm queue order,
    kahn_inv E V order order [] pm queue → sorted E order →
    length V ≤ length order + fuel →
    let r := graph.kahn fuel E pm queue order in
    (∃ pm', kahn_inv E V r.1 r.1 [] pm' r.2) ∧ sorted E r.1 ∧
    (r.2 = [] ∨ length V ≤ length r.1).
Proof.
  induction fuel as [|fuel IH]; intros pm queue order Hinv Hs Hlen; simpl.
  - split_and!; [eauto|done|]. right. lia.
  - destruct queue as [|cur queue]; simpl.
    { split_and!; [eauto|done|by left]. }
    pose proof (dequeue_inv _ _ _ _ Hinv) as Hd.
    pose proof (release_all_inv _ _ _ _ _ Hd (succs_NoDup cur)
                  (fun t => succs_in_V cur t)) as Hr.
    destruct (foldl (graph.release cur) (pm, queue) (graph.succs E cur))
      as [pm' queue'] eqn:Hf. simpl in Hr.
    assert (kahn_inv E V (order ++ [cur]) (order ++ [cur]) [] pm' queue') as Hinv'.
    { destruct Hr as [J1 J2 J3 J4 J5]. split; [done|done|done| |done].
      intros v Hv. by apply elem_of_nil in Hv. }
    apply IH; [done| |rewrite length_app; simpl; lia].
    apply sorted_snoc; [done|].
    apply (kahn_ready _ _ _ _ _ _ _ Hinv). apply elem_of_app. right. left.
Qed.

Lemma kahn_init_inv :
  kahn_inv E V [] [] []
    (list_to_map ((fun v => (v, list_to_set (graph.preds E v))) <$>
                  List.filter (fun v => negb (bool_decide (graph.preds E v = []))) V))
    (List.filter (fun v => bool_decide (graph.preds E v = [])) V).
Proof.
  split; simpl.
  - apply NoDup_ListNoDup, List.NoDup_filter, NoDup_ListNoDup, HV.
  - intros v Hv. by apply elem_of_List_filter in Hv as [? _].
  - intros v Hv Hnin _.
    assert (graph.preds E v ≠ []) as Hne.
    { intros Hnil. apply Hnin. apply elem_of_List_filter. split; [done|].
      by apply bool_decide_eq_true. }
    rewrite diff_nil. split.
    + apply elem_of_list_to_map_1.
      * rewrite <- list_fmap_compose. simpl.
        rewrite list_fmap_id.
        apply NoDup_ListNoDup, List.NoDup_filter, NoDup_ListNoDup, HV.
      * apply list_elem_of_fmap. exists v. split; [done|].
        apply elem_of_List_filter. split; [done|].
        apply negb_true_iff. by apply bool_decide_eq_false.
    + unfold pred_set. destruct (graph.preds E v) as [|x l]; [done|].
      intros Hempty. assert (x ∈ (∅ : gset string)) as Hx.
      { rewrite <- Hempty. apply elem_of_list_to_set. left. }
      by apply elem_of_empty in Hx.
  - intros v Hv. by apply elem_of_nil in Hv.
  - intros v Hv. apply elem_of_List_filter in Hv as [_ Hp].
    apply bool_decide_eq_true in Hp. unfold pred_set. rewrite Hp.
    intros x Hx. by apply elem_of_list_to_set, elem_of_nil in Hx.
Qed.

End kahn.

Lemma sorted_acyclic (R : relation string) (order : list string) :
  NoDup order → (∀ u v, R u v → before u v order) → ∀ v, ¬ tc R v v.
Proof.
  intros Hnd Hfwd v Hv. apply (before_irrefl v order Hnd).
  assert (∀ x y, tc R x y → before x y order) as Htc; [|by apply Htc].
  intros x y Hxy. induction Hxy as [x y H|x y z H _ IH]; [auto|].
  eapply before_trans; [done|by apply Hfwd|done].
Qed.

(** [TopologicalSort] on a store that is well formed but perhaps for
    cycles: the order lists every vertex once, with the source of every edge
    before its target, if it is acyclic; if not, there is an error. *)
Lemma TopologicalSort_spec s :
  shaped s →
  match graph.TopologicalSort s with
  | inr order =>
      order ≡ₚ vkeys s ∧ (∀ u v, edge_rel s u v → before u v order) ∧ acyclic s
  | inl _ => ¬ acyclic s
  end.
Proof.
  intros (HV & Hends & HE). unfold graph.TopologicalSort.
  pose proof (kahn_spec (graph.edges s) (vkeys s) Hends HE
                (length (vkeys s)) _ _ []
                (kahn_init_inv (graph.edges s) (vkeys s) HV)) as Hk.
  fold (vkeys s). simpl in Hk.
  destruct (graph.kahn _ _ _ _ _) as [order queue].
  destruct Hk as ([pm' Hinv] & Hsorted & Hdone); [|lia|].
  { intros u v _ Hv. by apply elem_of_nil in Hv. }
  simpl in *. destruct Hinv as [J1 J2 J3 _ _].
  assert (NoDup order) as Hnd by (by apply NoDup_app in J1 as (? & _)).
  assert (order ⊆+ vkeys s) as Hsub.
  { apply NoDup_submseteq; [done|]. intros x Hx. apply J2, elem_of_app. by left. }
  destruct (decide (length order = length (vkeys s))) as [Hlen|Hlen].
  - assert (order ≡ₚ vkeys s) as Hperm.
    { apply submseteq_length_Permutation; [done|lia]. }
    assert (∀ u v, edge_rel s u v → before u v order) as Hfwd.
    { intros u v Huv. apply Hsorted; [by apply elem_of_preds|].
      rewrite Hperm. destruct Huv as (e & He & _ & <-). by apply Hends. }
    split_and!; [done|done|]. unfold acyclic. by apply (sorted_acyclic _ order).
  - intros Hac. apply submseteq_length in Hsub.
    destruct Hdone as [->|?]; [|lia].
    set (S := List.filter (fun v => negb (bool_decide (v ∈ order))) (vkeys s)).
    assert (∀ v, v ∈ S ↔ v ∈ vkeys s ∧ v ∉ order) as HS.
    { intros v. unfold S. rewrite elem_of_List_filter, negb_true_iff.
      by rewrite bool_decide_eq_false. }
    apply (no_sourceless_set (edge_rel s) S Hac).
    + intros Hnil. apply Hlen. apply Nat.le_antisymm; [done|].
      apply submseteq_length, NoDup_submseteq; [done|].
      intros v Hv. destruct (decide (v ∈ order)) as [|Hn]; [done|].
      assert (v ∈ S) as Hin by (by apply HS). rewrite Hnil in Hin.
      by apply elem_of_nil in Hin.
    + intros v Hv. apply HS in Hv as [Hv Hnin].
      destruct (J3 v Hv) as [_ Hne].
      { by rewrite app_nil_r. }
      { apply not_elem_of_nil. }
      apply set_choose_L in Hne as [u Hu].
      apply elem_of_difference in Hu as [Hu Hun].
      apply elem_of_pred_set in Hu. rewrite elem_of_list_to_set in Hun.
      exists u. split; [|by apply elem_of_preds].
      apply HS. split; [|done]. by eapply preds_in_V.
Qed.

Lemma lookup_all_spec s nodes :
  (∀ n, n ∈ nodes → n ∈ vkeys s) →
  ∃ ps, lookup_all s nodes = inr ps ∧
        Forall2 (fun n p => graph.Vertex s n = inr p) nodes ps.
Proof.
  induction nodes as [|n nodes IH]; intros Hin; simpl.
  - exists []. split; [done|constructor].
  - destruct (Vertex_of_key s n) as [p Hp]; [apply Hin; left|].
    destruct IH as (ps & Hps & Hall); [intros x Hx; apply Hin; by right|].
    rewrite Hp, Hps. exists (p :: ps). split; [done|]. by constructor.
Qed.

Lemma before_Forall2 {A B} (Q : A → B → Prop) l ps u v :
  Forall2 Q l ps → before u v l →
  ∃ pu pv, Q u pu ∧ Q v pv ∧ before pu pv ps.
Proof.
  intros Hall (l1 & l2 & l3 & ->).
  apply Forall2_app_inv_l in Hall as (p1 & ps' & _ & Hall & ->).
  apply Forall2_cons_inv_l in Hall as (pu & ps'' & Hu & Hall & ->).
  apply Forall2_app_inv_l in Hall as (p2 & ps' & _ & Hall & ->).
  apply Forall2_cons_inv_l in Hall as (pv & p3 & Hv & _ & ->).
  exists pu, pv. split_and!; [done|done|]. by exists p1, p2, p3.
Qed.

Lemma insert_middle {A} (l1 l2 : list A) x y :
  <[length l1 := y]> (l1 ++ x :: l2) = l1 ++ y :: l2.
Proof. induction l1 as [|a l1 IH]; simpl; [done|]. by rewrite IH. Qed.

(** The loop of [ReverseSorted] reverses the slice between its indices. *)
Lemma reverse_loop_spec {A} fuel :
  ∀ (a m b : list A),
    length m ≤ fuel →
    reverse_loop fuel (Z.of_nat (length a))
      (Z.of_nat (length a + length m) - 1)%Z (a ++ m ++ b)
    = a ++ reverse m ++ b.
Proof.
  induction fuel as [|fuel IH]; intros a m b Hlen; simpl.
  - destruct m; [done|simpl in Hlen; lia].
  - destruct m as [|x m].
    { rewrite bool_decide_eq_false_2 by (simpl; lia). done. }
    destruct m as [|y m _] using rev_ind.
    { rewrite bool_decide_eq_false_2 by (simpl; lia). done. }
    rewrite bool_decide_eq_true_2 by (simpl; rewrite length_app; simpl; lia).
    assert (Z.to_nat (Z.of_nat (length a)) = length a) as Hi by lia.
    assert (Z.to_nat (Z.of_nat (length a + length (x :: m ++ [y])) - 1)
            = length (a ++ x :: m)) as Hj.
    { simpl. rewrite !length_app. simpl. lia. }
    assert (a ++ (x :: m ++ [y]) ++ b = (a ++ x :: m) ++ y :: b) as Hl
      by (by norm_app).
    unfold swap. rewrite Hi, Hj.
    assert ((a ++ (x :: m ++ [y]) ++ b) !! length a = Some x) as ->
      by (simpl; by apply list_lookup_middle).
    rewrite Hl, (list_lookup_middle (a ++ x :: m) b y _ eq_refl).
    assert (<[length a := y]> ((a ++ x :: m) ++ y :: b)
            = (a ++ y :: m) ++ y :: b) as ->.
    { rewrite <- (app_assoc a). simpl. rewrite insert_middle. by norm_app. }
    assert (length (a ++ x :: m) = length (a ++ y :: m)) as ->
      by (by rewrite !length_app).
    rewrite insert_middle.
    replace ((a ++ y :: m) ++ x :: b) with ((a ++ [y]) ++ m ++ ([x] ++ b))
      by (by norm_app).
    replace (Z.of_nat (length a) + 1)%Z with (Z.of_nat (length (a ++ [y])))
      by (rewrite length_app; simpl; lia).
    replace (Z.of_nat (length a + length (x :: m ++ [y])) - 1 - 1)%Z
      with (Z.of_nat (length (a ++ [y]) + length m) - 1)%Z
      by (simpl; rewrite !length_app; simpl; lia).
    rewrite IH by (simpl in Hlen; rewrite length_app in Hlen; simpl in Hlen; lia).
    rewrite reverse_cons, reverse_app. simpl. by norm_app.
Qed.

Lemma reverse_loop_reverse {A} (pkgs : list A) :
  reverse_loop (length pkgs) 0%Z (Z.of_nat (length pkgs) - 1)%Z pkgs = reverse pkgs.
Proof.
  pose proof (reverse_loop_spec (length pkgs) [] pkgs [] (le_n _)) as H.
  simpl in H. by rewrite !app_nil_r in H.
Qed.

(** C4. On a graph whose store is well formed but perhaps for cycles: if it
    is acyclic, [Sorted] returns every vertex once, with [u] before [v] for
    every edge [u → v], and [ReverseSorted] returns that list reversed, with
    [v] before [u]; if it is not acyclic, both return the error of the
    sort. *)
Theorem Sorted_topological g :
  shaped (Graph_ g) →
  (acyclic (Graph_ g) →
   ∃ pkgs,
     Sorted g = inr pkgs ∧ ReverseSorted g = inr (reverse pkgs) ∧
     length pkgs = length (graph.vertices (Graph_ g)) ∧
     ∀ u v pu pv,
       edge_rel (Graph_ g) u v →
       graph.Vertex (Graph_ g) u = inr pu → graph.Vertex (Graph_ g) v = inr pv →
       before pu pv pkgs ∧ before pv pu (reverse pkgs)) ∧
  (¬ acyclic (Graph_ g) →
   ∃ err, Sorted g = inl err ∧ ReverseSorted g = inl err).
Proof.
  intros Hshaped. pose proof (TopologicalSort_spec _ Hshaped) as Hts.
  unfold ReverseSorted, Sorted.
  destruct (graph.TopologicalSort (Graph_ g)) as [err|order].
  - split; [done|]. intros _. by exists err.
  - destruct Hts as (Hperm & Hfwd & Hac). split; [|done]. intros _.
    destruct (lookup_all_spec (Graph_ g) order) as (pkgs & Hpkgs & Hall).
    { intros n Hn. by rewrite <- Hperm. }
    rewrite Hpkgs. exists pkgs. split_and!; [done| | |].
    + by rewrite reverse_loop_reverse.
    + rewrite <- (Forall2_length _ _ _ Hall), Hperm. unfold vkeys.
      by rewrite length_fmap.
    + intros u v pu pv Huv Hu Hv.
      destruct (before_Forall2 _ _ _ u v Hall (Hfwd u v Huv))
        as (pu' & pv' & Hu' & Hv' & Hb).
      rewrite Hu in Hu'. rewrite Hv in Hv'. inversion Hu'; inversion Hv'; subst.
      split; [done|]. by apply before_reverse.
Qed.

Lemma Sorted_topological_witness :
  (acyclic (Graph_ Scenario.abc_graph) →
   ∃ pkgs,
     Sorted Scenario.abc_graph = inr pkgs ∧
     ReverseSorted Scenario.abc_graph = inr (reverse pkgs) ∧
     length pkgs = length (graph.vertices (Graph_ Scenario.abc_graph)) ∧
     ∀ u v pu pv,
       edge_rel (Graph_ Scenario.abc_graph) u v →
       graph.Vertex (Graph_ Scenario.abc_graph) u = inr pu →
       graph.Vertex (Graph_ Scenario.abc_graph) v = inr pv →
       before pu pv pkgs ∧ before pv pu (reverse pkgs)) ∧
  (¬ acyclic (Graph_ Scenario.abc_graph) →
   ∃ err, Sorted Scenario.abc_graph = inl err ∧
          ReverseSorted Scenario.abc_graph = inl err).
Proof.
  apply (Sorted_topological Scenario.abc_graph).
  apply wf_shaped.
  apply (NewGraph_wf (Scenario.world (Scenario.local_resolver Scenario.abc))
           (Scenario.store_of Scenario.abc) [] _ None).
  vm_compute. reflexivity.
Defined.

(** The scenario of the specification: with [A → B → C], the build order is
    [C], [B], [A]. *)
Example ReverseSorted_abc :
  match Sorted Scenario.abc_graph with
  | inr pkgs => Name <$> pkgs
  | inl _ => []
  end = ["A"; "B"; "C"] ∧
  match ReverseSorted Scenario.abc_graph with
  | inr pkgs => Name <$> pkgs
  | inl _ => []
  end = ["C"; "B"; "A"].
Proof. vm_compute. split; reflexivity. Qed.

(** On the store with a cycle the sort, and with it [Sorted], fails. *)
Example Sorted_cyclic :
  shaped Cyclic.store ∧ ¬ acyclic Cyclic.store ∧
  Sorted Cyclic.g = inl graph.TopologicalSortCycles.
Proof.
  split_and!.
  - split_and!.
    + apply (bool_decide_unpack _). by vm_compute.
    + intros e He. apply (bool_decide_unpack _).
      repeat (apply elem_of_cons in He as [->|He]; [by vm_compute|]).
      by apply elem_of_nil in He.
    + apply (bool_decide_unpack _). by vm_compute.
  - intros Hac. apply (Hac "a:1@r").
    eapply tc_l; [|apply tc_once].
    + eexists. split; [left|done].
    + eexists. split; [right; left|done].
  - vm_compute. reflexivity.
Qed.

(** * More of [graph.go] *)

(** ** Properties kept by every step of the construction

    Every function of the construction changes the graph only through
    [addVertex], with a dangling package only where unresolved dependencies
    are allowed, and through calls of the library that leave the vertices
    alone.  A property kept by these two is kept by all of them. *)

Lemma RemoveEdge_keys g s t g' err :
  graph.RemoveEdge g s t = (g', err) → graph.vertices g' = graph.vertices g.
Proof.
  intros H. by apply RemoveEdge_spec in H as [(-> & _)|(_ & _ & ->)].
Qed.

Lemma with_store_same g : with_store g (Graph_ g) = g.
Proof. by destruct g. Qed.

Section lifting.

Context (P : Graph → Prop).
Hypothesis P_addVertex : ∀ g p, permitted g p → P g → P (addVertex g p).1.
Hypothesis P_store :
  ∀ g s, P g → graph.vertices s = graph.vertices (Graph_ g) → P (with_store g s).

Lemma lift_addDanglingPackage g name parent :
  allowUnresolved (opts g) = true →
  P g → P (addDanglingPackage g name parent).1.
Proof.
  intros Hallow HP. unfold addDanglingPackage.
  pose proof (P_addVertex g (danglingPackage name) (fun _ _ => Hallow) HP) as H1.
  destruct (addVertex g (danglingPackage name)) as [g1 e1]. simpl in H1.
  destruct (failed_other_than ErrVertexAlreadyExists e1); [done|].
  destruct (graph.AddEdge (Graph_ g1) _ _ []) as [s e2] eqn:He. simpl.
  apply P_store; [done|]. by eapply AddEdge_keys.
Qed.

Lemma candidatePackage_permitted g g' r localRepo p :
  candidatePackage g None r localRepo = inr p → permitted g' p.
Proof.
  unfold candidatePackage. intros H name ->.
  destruct (decide (rp_IndexUri r = localRepo)); [|done].
  destruct (decide (length (Config (packages g) (rp_Name r)) = 0)); [done|].
  by destruct (List.find _ _).
Qed.

Lemma lift_scan resolved c dep localRepo :
  ∀ g cycleTarget,
    P g → P (scanned_graph (scan resolved g None cycleTarget c dep localRepo)).
Proof.
  induction resolved as [|r rest IH]; intros g cycleTarget HP; simpl; [done|].
  destruct (isMyself r c dep); [by apply IH|].
  destruct (candidatePackage g None r localRepo) as [e|p] eqn:Hc; [done|].
  pose proof (P_addVertex g p (candidatePackage_permitted _ g _ _ _ Hc) HP) as H1.
  destruct (addVertex g p) as [g1 e1]. simpl in H1.
  destruct (failed_other_than ErrVertexAlreadyExists e1); [done|].
  destruct (graph.CreatesCycle (Graph_ g1) (packageHash c) (packageHash p))
    as [e|[]]; [by apply IH|by apply IH|].
  destruct (graph.AddEdge (Graph_ g1) _ _ _) as [s e2] eqn:He.
  assert (P (with_store g1 s)) as H2.
  { apply P_store; [done|]. by eapply AddEdge_keys. }
  by destruct (failed_other_than ErrEdgeAlreadyExists e2).
Qed.

Lemma lift_addAppropriatePackage g resolver c dep localRepo :
  P g → P (addAppropriatePackage g resolver c dep localRepo).1.1.
Proof.
  intros HP. unfold addAppropriatePackage.
  destruct (ResolvePackage resolver dep) as [resolved rerr].
  destruct (bool_decide (rerr ≠ None ∨ length resolved = 0)).
  - destruct (allowUnresolved (opts g)) eqn:Hallow; [|done].
    pose proof (lift_addDanglingPackage g dep c Hallow HP) as H1.
    by destruct (addDanglingPackage g dep c) as [g1 [e|]].
  - pose proof (lift_scan resolved c dep localRepo g "" HP) as H1.
    destruct (scan resolved g None "" c dep localRepo) as [g1 cy1 e1|g1 [p|] ct];
      simpl in H1; [done|done|].
    destruct (negb (bool_decide (ct = ""))); [done|].
    destruct (allowUnresolved (opts g1)) eqn:Hallow; [|done]. simpl.
    pose proof (lift_addDanglingPackage g1 dep c Hallow H1) as H2.
    by destruct (addDanglingPackage g1 dep c) as [g2 [e|]].
Qed.

Lemma lift_resolveCycle g c dep resolver localRepoSource :
  P g → P (resolveCycle g c dep resolver localRepoSource).1.
Proof.
  intros HP. unfold resolveCycle.
  destruct (graph.ShortestPath (Graph_ g) (target c) (src c)) as [e|sp]; [done|].
  destruct (decide (length sp < 2)); [done|].
  destruct (graph.Edge_ (Graph_ g) _ _) as [e|edge]; [done|].
  destruct (graph.Attributes edge) as [attrs|]; [|done].
  destruct (graph.RemoveEdge (Graph_ g) _ _) as [s1 e1] eqn:Hr.
  apply RemoveEdge_keys in Hr.
  destruct e1; [by apply P_store|].
  destruct (graph.AddEdge s1 (src c) (target c) _) as [s2 e2] eqn:Ha.
  apply AddEdge_keys in Ha.
  assert (P (with_store g s2)) as H2 by (apply P_store; [done|congruence]).
  destruct e2; [done|].
  destruct (graph.Vertex s2 _) as [e|config]; [done|].
  pose proof (lift_addAppropriatePackage (with_store g s2) resolver config
    (attribute attrs "target-origin") localRepoSource H2) as H3.
  destruct (addAppropriatePackage (with_store g s2) resolver config _ _)
    as [[g3 cy] [e|]]; simpl in H3; by destruct cy.
Qed.

Lemma lift_subpackage_step c version st sub :
  P st.1 → P (subpackage_step c version st sub).1.
Proof.
  destruct st as [g errs]. simpl. intros HP.
  destruct (decide (cfg_fullVersion sub = version)); [done|].
  pose proof (P_addVertex g (origin sub) (fun _ H => ltac:(done)) HP) as H1.
  destruct (addVertex g (origin sub)) as [g1 e1]. simpl in H1.
  destruct (failed_other_than ErrVertexAlreadyExists e1); [done|].
  destruct (graph.AddEdge (Graph_ g1) _ _ []) as [s e2] eqn:He.
  assert (P (with_store g1 s)) as H2.
  { apply P_store; [done|]. by eapply AddEdge_keys. }
  by destruct (failed_other_than ErrEdgeAlreadyExists e2).
Qed.

Lemma lift_add_subpackages pkgs c st :
  P st.1 → P (add_subpackages pkgs c st).1.
Proof.
  unfold add_subpackages. apply (foldl_preserves (fun st => P st.1)).
  intros a name. apply (foldl_preserves (fun st => P st.1)).
  intros a' sub. apply lift_subpackage_step.
Qed.

Lemma lift_dependency_step resolver c localRepoSource st buildDep :
  P st.1 → P (dependency_step resolver c localRepoSource st buildDep).1.
Proof.
  destruct st as [g errs]. simpl. intros HP.
  destruct (decide (buildDep = "")); [done|].
  pose proof (lift_addAppropriatePackage g resolver (origin c) buildDep
    localRepoSource HP) as H1.
  destruct (addAppropriatePackage g resolver (origin c) buildDep localRepoSource)
    as [[g1 cy] err]. simpl in H1.
  destruct cy as [cy|], err as [e|]; try done.
  pose proof (lift_resolveCycle g1 cy buildDep resolver localRepoSource H1) as H2.
  by destruct (resolveCycle g1 cy buildDep resolver localRepoSource) as [g2 [e|]].
Qed.

(** [package_step] adds the package as a vertex and keeps [P]. *)
Lemma lift_package_step (W : World) pkgs o st c st' :
  package_step W pkgs o st c = inr st' →
  P st.1.1 → P st'.1.1.
Proof.
  destruct st as [[g indexes] errs]. simpl. intros H HP.
  pose proof (P_addVertex g (origin c) (fun _ H => ltac:(done)) HP) as H0.
  destruct (addVertex g (origin c)) as [g0 e0]. simpl in H0.
  destruct (failed_other_than ErrVertexAlreadyExists e0);
    [by inversion H; subst|].
  pose proof (lift_add_subpackages pkgs c (g0, errs) H0) as H1.
  destruct (add_subpackages pkgs c (g0, errs)) as [g1 errs1].
  destruct (split_repos W indexes _) as [rs lookupRepos].
  destruct (load_keys W _ ∅) as [e|keyMap]; [done|].
  destruct (load_repos W indexes rs lookupRepos keyMap _)
    as [e|[indexes' lookupRepos']]; [done|].
  match type of H with
  | context [foldl ?f ?init ?l] =>
      pose proof (foldl_preserves (fun st => P st.1) f l
                    (lift_dependency_step _ _ _) init H1) as H2;
      destruct (foldl f init l) as [g2 errs2]
  end.
  by inversion H; subst.
Qed.

Lemma lift_build (W : World) pkgs o cs :
  ∀ st st', build W pkgs o cs st = inr st' → P st.1.1 → P st'.1.1.
Proof.
  induction cs as [|c cs IH]; intros st st'; simpl.
  - intros H; by inversion H; subst.
  - destruct (package_step W pkgs o st c) as [e|st1] eqn:Hs; [done|].
    intros H HP. eapply IH; [exact H|]. by eapply lift_package_step.
Qed.

(** The property holds of every graph [NewGraph] returns, if it holds of
    the empty graph [NewGraph] starts from. *)
Lemma lift_NewGraph (W : World) pkgs options g err :
  (∀ o, apply_options options (mkOptions false [] []) = inr o →
        P (mkG newGraph pkgs o ∅)) →
  NewGraph W pkgs options = (Some g, err) → P g.
Proof.
  intros Hinit. unfold NewGraph.
  destruct (apply_options options _) as [e|o]; [done|].
  destruct (build W pkgs o (Packages_ pkgs) _) as [e|[[g' ix] errs]] eqn:Hb;
    [done|].
  destruct (decide (errs ≠ [])); [done|]. intros H; inversion H; subst.
  apply (lift_build _ _ _ _ _ _ Hb). simpl. by apply Hinit.
Qed.

End lifting.

(** ** [sort.Strings] *)

Lemma ascii_compare_Lt_trans a b c :
  Ascii.compare a b = Lt → Ascii.compare b c = Lt → Ascii.compare a c = Lt.
Proof.
  unfold Ascii.compare. rewrite !N.compare_lt_iff. apply N.lt_trans.
Qed.

Lemma string_compare_Lt_trans :
  ∀ a b c, String.compare a b = Lt → String.compare b c = Lt →
           String.compare a c = Lt.
Proof.
  induction a as [|x a IH]; intros [|y b] [|z c]; simpl; try done.
  destruct (Ascii.compare x y) eqn:Hxy; try done;
    destruct (Ascii.compare y z) eqn:Hyz; try done.
  - apply Ascii.compare_eq_iff in Hxy, Hyz. subst.
    assert (Ascii.compare z z = Eq) as ->
      by (unfold Ascii.compare; apply N.compare_refl).
    apply IH.
  - apply Ascii.compare_eq_iff in Hxy. subst. by rewrite Hyz.
  - apply Ascii.compare_eq_iff in Hyz. subst. by rewrite Hxy.
  - by rewrite (ascii_compare_Lt_trans _ _ _ Hxy Hyz).
Qed.

Lemma leb_trans a b c :
  String.leb a b = true → String.leb b c = true → String.leb a c = true.
Proof.
  unfold String.leb.
  destruct (String.compare a b) eqn:Hab; [| |done].
  - apply String.compare_eq_iff in Hab. by subst.
  - destruct (String.compare b c) eqn:Hbc; [| |done].
    + apply String.compare_eq_iff in Hbc. subst. by rewrite Hab.
    + by rewrite (string_compare_Lt_trans _ _ _ Hab Hbc).
Qed.

Lemma insert_sorted_perm x l : insert_sorted x l ≡ₚ x :: l.
Proof.
  induction l as [|y l IH]; simpl; [done|].
  destruct (String.leb x y); [done|]. rewrite IH. apply perm_swap.
Qed.

Lemma sort_Strings_perm l : sort_Strings l ≡ₚ l.
Proof.
  induction l as [|x l IH]; simpl; [done|].
  rewrite insert_sorted_perm. by rewrite IH.
Qed.

Lemma insert_sorted_increasing x l :
  increasing l → increasing (insert_sorted x l).
Proof.
  induction l as [|y l IH]; simpl.
  - intros _. split; [|done]. intros y Hy. by apply elem_of_nil in Hy.
  - intros [Hy Hl]. destruct (String.leb x y) eqn:Hxy; simpl.
    + split; [|done]. intros z Hz. apply elem_of_cons in Hz as [->|Hz]; [done|].
      eapply leb_trans; [exact Hxy|]. by apply Hy.
    + split; [|by apply IH]. intros z Hz.
      rewrite insert_sorted_perm in Hz. apply elem_of_cons in Hz as [Hz|Hz].
      * subst z. destruct (String.leb_total y x) as [H|H]; [done|congruence].
      * by apply Hy.
Qed.

Lemma sort_Strings_increasing l : increasing (sort_Strings l).
Proof.
  induction l as [|x l IH]; simpl; [done|]. by apply insert_sorted_increasing.
Qed.

(** A list of strings has one increasing arrangement only: the model of
    [sort.Strings] does not depend on the algorithm. *)
Lemma increasing_unique :
  ∀ l1 l2, increasing l1 → increasing l2 → l1 ≡ₚ l2 → l1 = l2.
Proof.
  induction l1 as [|x l1 IH]; intros l2 H1 H2 Hp.
  - by apply Permutation_nil_l in Hp.
  - destruct l2 as [|y l2]; [by apply Permutation_nil_r in Hp|].
    destruct H1 as [Hx H1], H2 as [Hy H2].
    assert (x = y) as ->.
    { assert (x ∈ y :: l2) as Hxin by (rewrite <- Hp; left).
      assert (y ∈ x :: l1) as Hyin by (rewrite Hp; left).
      apply elem_of_cons in Hxin as [?|Hxin]; [done|].
      apply elem_of_cons in Hyin as [?|Hyin]; [done|].
      apply String.leb_antisym; auto. }
    f_equal. apply IH; [done|done|]. by apply Permutation_cons_inv in Hp.
Qed.

Lemma sorted_unique l l' :
  increasing l' → l' ≡ₚ l → l' = sort_Strings l.
Proof.
  intros Hi Hp. apply increasing_unique; [done|apply sort_Strings_increasing|].
  by rewrite sort_Strings_perm.
Qed.

Lemma NoDup_succs E u :
  NoDup (ends <$> E) → NoDup (graph.succs E u).
Proof.
  unfold graph.succs. induction E as [|e E IH]; simpl; [constructor|].
  intros Hnd. apply NoDup_cons in Hnd as [Hnot Hnd].
  destruct (bool_decide (graph.Source e = u)) eqn:Hs; simpl; [|by apply IH].
  apply bool_decide_eq_true in Hs. apply NoDup_cons. split; [|by apply IH].
  intros Hin. apply Hnot. fold (graph.succs E u) in Hin.
  apply elem_of_succs in Hin as (e' & Hin & Hs' & Ht').
  apply list_elem_of_fmap. exists e'. split; [|done].
  unfold ends. by rewrite Hs, Hs', Ht'.
Qed.

(** ** The queries [DependenciesOf], [Nodes] and [NodesByName] *)

(** X1. [DependenciesOf] lists the targets of the edges that leave [node], each
    once and in increasing order; it is the only list that does, so the order
    in which the adjacency map is walked does not show.  For a [node] that is
    no vertex the list is empty. *)
Theorem DependenciesOf_spec g node :
  wf (Graph_ g) →
  let deps := DependenciesOf g node in
  (∀ d, d ∈ deps ↔ edge_rel (Graph_ g) node d) ∧
  NoDup deps ∧ increasing deps ∧
  (∀ l, (∀ d, d ∈ l ↔ edge_rel (Graph_ g) node d) → NoDup l → increasing l →
        l = deps) ∧
  ((node ∉ vkeys (Graph_ g)) → deps = []).
Proof.
  intros Hwf deps.
  assert (∀ d, d ∈ deps ↔ edge_rel (Graph_ g) node d) as Hin.
  { intros d. unfold deps, DependenciesOf.
    destruct (graph.assoc node (graph.vertices (Graph_ g))) eqn:Ha.
    - rewrite sort_Strings_perm. apply elem_of_succs.
    - split; [intros H; by apply elem_of_nil in H|].
      intros (e & He & Hs & _). apply (wf_ends _ Hwf) in He as [He _].
      apply assoc_None in Ha. by rewrite Hs in He. }
  assert (NoDup deps) as Hnd.
  { unfold deps, DependenciesOf.
    destruct (graph.assoc node (graph.vertices (Graph_ g))); [|constructor].
    rewrite sort_Strings_perm. apply NoDup_succs, Hwf. }
  assert (increasing deps) as Hinc.
  { unfold deps, DependenciesOf.
    destruct (graph.assoc node (graph.vertices (Graph_ g))); [|done].
    apply sort_Strings_increasing. }
  split_and!; [done..| |].
  - intros l Hl Hndl Hil. apply increasing_unique; [done..|].
    apply NoDup_Permutation; [done..|]. intros d. by rewrite Hl, Hin.
  - intros Hnot. unfold deps, DependenciesOf.
    apply assoc_None in Hnot. by rewrite Hnot.
Qed.

Lemma DependenciesOf_spec_witness :
  let deps := DependenciesOf Scenario.abc_graph "A:1@local" in
  (∀ d, d ∈ deps ↔ edge_rel (Graph_ Scenario.abc_graph) "A:1@local" d) ∧
  NoDup deps ∧ increasing deps ∧
  (∀ l, (∀ d, d ∈ l ↔ edge_rel (Graph_ Scenario.abc_graph) "A:1@local" d) →
        NoDup l → increasing l → l = deps) ∧
  (("A:1@local" ∉ vkeys (Graph_ Scenario.abc_graph)) → deps = []).
Proof.
  apply (DependenciesOf_spec Scenario.abc_graph "A:1@local").
  apply (NewGraph_wf (Scenario.world (Scenario.local_resolver Scenario.abc))
           (Scenario.store_of Scenario.abc) [] _ None).
  vm_compute. reflexivity.
Defined.

(** X2. [Nodes] never fails: it returns the hashes of the vertices, each as
    often as it is stored, in increasing order, and it is the only list that
    does. *)
Theorem Nodes_spec g :
  ∃ nodes, Nodes g = inr nodes ∧
    nodes ≡ₚ vkeys (Graph_ g) ∧ increasing nodes ∧
    ∀ l, l ≡ₚ vkeys (Graph_ g) → increasing l → l = nodes.
Proof.
  exists (sort_Strings (vkeys (Graph_ g))). split_and!.
  - done.
  - apply sort_Strings_perm.
  - apply sort_Strings_increasing.
  - intros l Hp Hi. by apply sorted_unique.
Qed.

(** ** The index of hashes by name *)

Lemma indexed_addVertex g p : indexed g → indexed (addVertex g p).1.
Proof.
  intros Hi. unfold addVertex.
  destruct (graph.AddVertex (Graph_ g) p) as [s [e|]] eqn:H; [done|].
  apply AddVertex_spec in H as [(? & _)|(_ & _ & ->)]; [done|].
  intros name. simpl. rewrite List.filter_app, fmap_app. simpl.
  destruct (decide (Name p = name)) as [<-|Hne].
  - rewrite lookup_insert_eq, bool_decide_eq_true_2 by done. simpl.
    by rewrite Hi.
  - rewrite lookup_insert_ne, bool_decide_eq_false_2 by done. simpl.
    by rewrite app_nil_r.
Qed.

Lemma indexed_store g s :
  indexed g → graph.vertices s = graph.vertices (Graph_ g) →
  indexed (with_store g s).
Proof. intros Hi Hv name. simpl. rewrite Hv. apply Hi. Qed.

Lemma NewGraph_indexed (W : World) pkgs options g err :
  NewGraph W pkgs options = (Some g, err) → indexed g.
Proof.
  apply (lift_NewGraph indexed).
  - intros g0 p _. apply indexed_addVertex.
  - apply indexed_store.
  - intros o _ name. simpl. by rewrite lookup_empty.
Qed.

Lemma NoDup_fst_unique {A} k (a b : A) (l : list (string * A)) :
  NoDup l.*1 → (k, a) ∈ l → (k, b) ∈ l → a = b.
Proof.
  induction l as [|[k' c] l IH]; simpl; intros Hnd Ha Hb.
  - by apply elem_of_nil in Ha.
  - apply NoDup_cons in Hnd as [Hnot Hnd].
    apply elem_of_cons in Ha as [Ha|Ha], Hb as [Hb|Hb].
    + congruence.
    + inversion Ha; subst. destruct Hnot.
      apply list_elem_of_fmap. by exists (k', b).
    + inversion Hb; subst. destruct Hnot.
      apply list_elem_of_fmap. by exists (k', a).
    + by apply IH.
Qed.

Lemma assoc_elem_of {A} k (a : A) (l : list (string * A)) :
  NoDup l.*1 → (k, a) ∈ l → graph.assoc k l = Some a.
Proof.
  intros Hnd Hin. destruct (graph.assoc k l) as [b|] eqn:Ha.
  - apply assoc_Some in Ha. f_equal. by eapply NoDup_fst_unique.
  - apply assoc_None in Ha. destruct Ha.
    apply list_elem_of_fmap. by exists (k, a).
Qed.

Lemma lookup_all_pairs s (l : list (string * Package)) :
  NoDup (vkeys s) → (∀ kp, kp ∈ l → kp ∈ graph.vertices s) →
  lookup_all s l.*1 = inr l.*2.
Proof.
  intros Hnd. induction l as [|[k p] l IH]; intros Hin; [done|].
  rewrite !fmap_cons. cbn [lookup_all fst snd].
  assert (graph.Vertex s k = inr p) as ->.
  { apply Vertex_inr, assoc_elem_of; [done|]. apply Hin. by left. }
  rewrite IH; [done|]. intros kp Hkp. apply Hin. by right.
Qed.

Lemma filter_snd {A B} (f : B → bool) (l : list (A * B)) :
  (List.filter (fun kv => f kv.2) l).*2 = List.filter f l.*2.
Proof.
  induction l as [|[a b] l IH]; [done|].
  rewrite fmap_cons. cbn [List.filter snd].
  destruct (f b); [rewrite fmap_cons; cbn [snd]|]; by rewrite IH.
Qed.

Lemma NodesByName_indexed g name :
  NoDup (vkeys (Graph_ g)) → indexed g →
  NodesByName g name =
  inr (List.filter (fun p => bool_decide (Name p = name))
         (graph.vertices (Graph_ g)).*2).
Proof.
  intros Hnd Hi. unfold NodesByName. rewrite Hi, lookup_all_pairs; [|done|].
  - by rewrite <- (filter_snd (fun p => bool_decide (Name p = name))).
  - intros kp Hkp. by apply elem_of_List_filter in Hkp as [? _].
Qed.

(** X3. On a graph that [NewGraph] returned, [NodesByName] never fails: it
    returns the packages of the graph that have the name, each once, in the
    order in which they became vertices. *)
Theorem NodesByName_spec (W : World) pkgs options g name :
  NewGraph W pkgs options = (Some g, None) →
  NodesByName g name =
  inr (List.filter (fun p => bool_decide (Name p = name))
         (graph.vertices (Graph_ g)).*2) ∧
  ∀ p, p ∈ List.filter (fun p => bool_decide (Name p = name))
             (graph.vertices (Graph_ g)).*2 ↔
       graph.Vertex (Graph_ g) (packageHash p) = inr p ∧ Name p = name.
Proof.
  intros H. pose proof (NewGraph_wf _ _ _ _ _ H) as Hwf.
  split.
  - apply NodesByName_indexed; [apply Hwf|by eapply NewGraph_indexed].
  - intros p. rewrite elem_of_List_filter, bool_decide_eq_true.
    apply and_iff_compat_r. split.
    + intros Hin. apply list_elem_of_fmap in Hin as ([k q] & -> & Hin).
      simpl. rewrite <- (wf_hash _ Hwf _ _ Hin).
      apply Vertex_inr, assoc_elem_of; [apply Hwf|done].
    + intros Hv. apply Vertex_inr, assoc_Some in Hv.
      apply list_elem_of_fmap. by exists (packageHash p, p).
Qed.

Lemma NodesByName_spec_witness :
  NodesByName Scenario.abc_graph "B" =
  inr (List.filter (fun p => bool_decide (Name p = "B"))
         (graph.vertices (Graph_ Scenario.abc_graph)).*2) ∧
  ∀ p, p ∈ List.filter (fun p => bool_decide (Name p = "B"))
             (graph.vertices (Graph_ Scenario.abc_graph)).*2 ↔
       graph.Vertex (Graph_ Scenario.abc_graph) (packageHash p) = inr p ∧
       Name p = "B".
Proof.
  apply (NodesByName_spec (Scenario.world (Scenario.local_resolver Scenario.abc))
           (Scenario.store_of Scenario.abc) []).
  vm_compute. reflexivity.
Defined.

(** ** What the constructed graph holds *)

Lemma key_addVertex k g p :
  k ∈ vkeys (Graph_ g) → k ∈ vkeys (Graph_ (addVertex g p).1).
Proof.
  destruct (addVertex g p) as [g' e] eqn:H.
  apply addVertex_quiet in H as [(_ & _ & Hk & _) _]. apply Hk.
Qed.

Lemma key_store k g s :
  k ∈ vkeys (Graph_ g) → graph.vertices s = graph.vertices (Graph_ g) →
  k ∈ vkeys (Graph_ (with_store g s)).
Proof. intros Hk Hv. unfold vkeys. simpl. by rewrite Hv. Qed.

Lemma package_step_vertex (W : World) pkgs o st c st' :
  package_step W pkgs o st c = inr st' →
  packageHash (origin c) ∈ vkeys (Graph_ st'.1.1).
Proof.
  destruct st as [[g indexes] errs]. simpl. intros H.
  set (P := fun g' : Graph => packageHash (origin c) ∈ vkeys (Graph_ g')).
  assert (∀ g p, permitted g p → P g → P (addVertex g p).1) as HPa
    by (intros g' p _; apply key_addVertex).
  assert (∀ g s, P g → graph.vertices s = graph.vertices (Graph_ g) →
                 P (with_store g s)) as HPs
    by (intros g' s; apply key_store).
  destruct (addVertex g (origin c)) as [g0 e0] eqn:Hv.
  apply addVertex_quiet in Hv as [_ H0]. fold (P g0) in H0.
  destruct (failed_other_than ErrVertexAlreadyExists e0);
    [by inversion H; subst|].
  pose proof (lift_add_subpackages P HPa HPs pkgs c (g0, errs) H0) as H1.
  destruct (add_subpackages pkgs c (g0, errs)) as [g1 errs1].
  destruct (split_repos W indexes _) as [rs lookupRepos].
  destruct (load_keys W _ ∅) as [e|keyMap]; [done|].
  destruct (load_repos W indexes rs lookupRepos keyMap _)
    as [e|[indexes' lookupRepos']]; [done|].
  match type of H with
  | context [foldl ?f ?init ?l] =>
      pose proof (foldl_preserves (fun st => P st.1) f l
                    (lift_dependency_step P HPa HPs _ _ _) init H1) as H2;
      destruct (foldl f init l) as [g2 errs2]
  end.
  by inversion H; subst.
Qed.

Lemma build_vertices (W : World) pkgs o cs :
  ∀ st st', build W pkgs o cs st = inr st' →
            ∀ c, c ∈ cs → packageHash (origin c) ∈ vkeys (Graph_ st'.1.1).
Proof.
  induction cs as [|c0 cs IH]; intros st st'; simpl.
  - intros _ c Hc. by apply elem_of_nil in Hc.
  - destruct (package_step W pkgs o st c0) as [e|st1] eqn:Hs; [done|].
    intros H c Hc. apply elem_of_cons in Hc as [->|Hc]; [|by eapply IH].
    apply package_step_vertex in Hs.
    eapply (lift_build (fun g => packageHash (origin c0) ∈ vkeys (Graph_ g)));
      [| |exact H|exact Hs].
    + intros g p _. apply key_addVertex.
    + intros g s. apply key_store.
Qed.

(** X4. The store of a graph that [NewGraph] returned is as the library keeps
    it: every vertex is stored under the hash of its package, no hash
    twice, every edge joins two vertices, and no two edges join the same
    pair. *)
Theorem NewGraph_well_formed (W : World) pkgs options g :
  NewGraph W pkgs options = (Some g, None) →
  (∀ k p, graph.Vertex (Graph_ g) k = inr p → k = packageHash p) ∧
  NoDup (vkeys (Graph_ g)) ∧
  (∀ u v, edge_rel (Graph_ g) u v →
          u ∈ vkeys (Graph_ g) ∧ v ∈ vkeys (Graph_ g)) ∧
  NoDup (ends <$> graph.edges (Graph_ g)).
Proof.
  intros H. apply NewGraph_wf in H as [Hh Hk He Hd _]. split_and!; [|done| |done].
  - intros k p Hv. apply Vertex_inr, assoc_Some in Hv. by apply Hh.
  - intros u v (e & Hin & <- & <-). by apply He.
Qed.

Lemma NewGraph_well_formed_witness :
  (∀ k p, graph.Vertex (Graph_ Scenario.abc_graph) k = inr p → k = packageHash p) ∧
  NoDup (vkeys (Graph_ Scenario.abc_graph)) ∧
  (∀ u v, edge_rel (Graph_ Scenario.abc_graph) u v →
          u ∈ vkeys (Graph_ Scenario.abc_graph) ∧
          v ∈ vkeys (Graph_ Scenario.abc_graph)) ∧
  NoDup (ends <$> graph.edges (Graph_ Scenario.abc_graph)).
Proof.
  apply (NewGraph_well_formed
           (Scenario.world (Scenario.local_resolver Scenario.abc))
           (Scenario.store_of Scenario.abc) []).
  vm_compute. reflexivity.
Defined.

Lemma NewGraph_packages (W : World) pkgs options g err :
  NewGraph W pkgs options = (Some g, err) → packages g = pkgs.
Proof.
  apply (lift_NewGraph (fun g => packages g = pkgs)); [|done..].
  intros g0 p _ Hp. destruct (addVertex g0 p) as [g1 e] eqn:Hv.
  apply addVertex_spec in Hv as (_ & Hp' & _). simpl. congruence.
Qed.

Lemma NewGraph_opts (W : World) pkgs options g err :
  NewGraph W pkgs options = (Some g, err) →
  apply_options options (mkOptions false [] []) = inr (opts g).
Proof.
  apply (lift_NewGraph
           (fun g => apply_options options (mkOptions false [] []) = inr (opts g)));
    [|done..].
  intros g0 p _ Hp. destruct (addVertex g0 p) as [g1 e] eqn:Hv.
  apply addVertex_spec in Hv as (_ & _ & Ho). simpl. congruence.
Qed.

Lemma NewGraph_origins (W : World) pkgs options g err :
  NewGraph W pkgs options = (Some g, err) →
  ∀ c, c ∈ Packages_ pkgs →
       ∃ p, graph.Vertex (Graph_ g) (packageHash (origin c)) = inr p ∧
            packageHash p = packageHash (origin c).
Proof.
  intros H c Hc. pose proof (NewGraph_wf _ _ _ _ _ H) as Hwf.
  assert (packageHash (origin c) ∈ vkeys (Graph_ g)) as Hk.
  { unfold NewGraph in H.
    destruct (apply_options options _) as [e|o]; [done|].
    destruct (build W pkgs o (Packages_ pkgs) _) as [e|[[g' ix] errs]] eqn:Hb;
      [done|].
    destruct (decide (errs ≠ [])); [done|]. inversion H; subst.
    by apply (build_vertices _ _ _ _ _ _ Hb). }
  apply Vertex_of_key in Hk as [p Hp]. exists p. split; [done|].
  apply Vertex_inr, assoc_Some in Hp. symmetry. by apply (wf_hash _ Hwf).
Qed.

Lemma NewGraph_undangling (W : World) pkgs options g err :
  NewGraph W pkgs options = (Some g, err) →
  allowUnresolved (opts g) = false →
  ∀ k p, graph.Vertex (Graph_ g) k = inr p →
         (∃ c, p = origin c) ∨ (∃ n v s, p = externalPackage n v s).
Proof.
  intros H Hallow k p Hv.
  assert (∀ name, p ≠ danglingPackage name) as Hnot.
  { revert H Hallow k p Hv.
    apply (lift_NewGraph
             (fun g => allowUnresolved (opts g) = false →
                       ∀ k p, graph.Vertex (Graph_ g) k = inr p →
                              ∀ name, p ≠ danglingPackage name)).
    - intros g0 q Hq HP. destruct (addVertex g0 q) as [g1 e] eqn:Hv.
      apply addVertex_spec in Hv as (Hv & _ & Ho). simpl. rewrite Ho.
      intros Hallow k p Hp name ->.
      apply (Vertex_AddVertex _ _ _ _ _ _ Hv) in Hp as [Hp|(_ & _ & Hp)].
      + by eapply HP.
      + symmetry in Hp. apply Hq in Hp. congruence.
    - intros g0 s HP Hs. simpl. intros Hallow k p Hp.
      apply (HP Hallow k). unfold graph.Vertex in *. by rewrite <- Hs.
    - intros o _ _ k p Hp. done. }
  destruct p as [c|n v s|name]; [left; eauto|right; eauto|by destruct (Hnot name)].
Qed.

(** X5. A graph that [NewGraph] returned keeps the package store it was built
    from and the options as the option functions left them, and every
    package of the store is one of its vertices. *)
Theorem NewGraph_contents (W : World) pkgs options g :
  NewGraph W pkgs options = (Some g, None) →
  packages g = pkgs ∧
  apply_options options (mkOptions false [] []) = inr (opts g) ∧
  ∀ c, c ∈ Packages_ pkgs →
       ∃ p, graph.Vertex (Graph_ g) (packageHash (origin c)) = inr p ∧
            packageHash p = packageHash (origin c).
Proof.
  intros H. split_and!.
  - by eapply NewGraph_packages.
  - by eapply NewGraph_opts.
  - by eapply NewGraph_origins.
Qed.

Lemma NewGraph_contents_witness :
  packages Scenario.abc_graph = Scenario.store_of Scenario.abc ∧
  apply_options [] (mkOptions false [] []) = inr (opts Scenario.abc_graph) ∧
  ∀ c, c ∈ Packages_ (Scenario.store_of Scenario.abc) →
       ∃ p, graph.Vertex (Graph_ Scenario.abc_graph) (packageHash (origin c))
            = inr p ∧
            packageHash p = packageHash (origin c).
Proof.
  apply (NewGraph_contents
           (Scenario.world (Scenario.local_resolver Scenario.abc))
           (Scenario.store_of Scenario.abc) []).
  vm_compute. reflexivity.
Defined.

(** X6. Unless unresolved dependencies are allowed, a graph that [NewGraph]
    returned has no dangling package: every vertex is a package of the
    store or a package of a repository. *)
Theorem NewGraph_no_dangling (W : World) pkgs options g :
  NewGraph W pkgs options = (Some g, None) →
  allowUnresolved (opts g) = false →
  ∀ k p, graph.Vertex (Graph_ g) k = inr p →
         (∃ c, p = origin c) ∨ (∃ n v s, p = externalPackage n v s).
Proof. apply NewGraph_undangling. Qed.

Lemma NewGraph_no_dangling_witness :
  allowUnresolved (opts Scenario.abc_graph) = false ∧
  ∀ k p, graph.Vertex (Graph_ Scenario.abc_graph) k = inr p →
         (∃ c, p = origin c) ∨ (∃ n v s, p = externalPackage n v s).
Proof.
  split; [reflexivity|].
  apply (NewGraph_no_dangling
           (Scenario.world (Scenario.local_resolver Scenario.abc))
           (Scenario.store_of Scenario.abc) []).
  - vm_compute. reflexivity.
  - vm_compute. reflexivity.
Defined.

(** ** What [addAppropriatePackage] leaves behind *)

Lemma AddEdge_tolerated g s t o g' err :
  graph.AddEdge g s t o = (g', err) →
  failed_other_than ErrEdgeAlreadyExists err = None →
  edge_rel g' s t ∧ s ∈ vkeys g ∧ t ∈ vkeys g.
Proof.
  unfold graph.AddEdge.
  destruct (graph.Vertex g s) as [e|ps] eqn:Hs.
  { unfold graph.Vertex in Hs. destruct (graph.assoc s _); [done|].
    inversion Hs; subst. intros H; by inversion H; subst. }
  destruct (graph.Vertex g t) as [e|pt] eqn:Ht.
  { unfold graph.Vertex in Ht. destruct (graph.assoc t _); [done|].
    inversion Ht; subst. intros H; by inversion H; subst. }
  apply Vertex_inr_key in Hs, Ht.
  destruct (graph.find_edge g s t) as [e|] eqn:Hf.
  { intros H _; inversion H; subst. split; [|done].
    apply find_edge_is_Some. eauto. }
  destruct (graph.CreatesCycle g s t) as [e|[]] eqn:Hc.
  - unfold graph.CreatesCycle in Hc.
    apply Vertex_of_key in Hs as [? Hs], Ht as [? Ht]. rewrite Hs, Ht in Hc.
    by destruct (decide (s = t)).
  - intros H; by inversion H; subst.
  - intros H _; inversion H; subst. split; [|done].
    eexists. split; [simpl; apply elem_of_app; right; by left|done].
Qed.

Lemma addDanglingPackage_edge g name parent g' :
  addDanglingPackage g name parent = (g', None) →
  packageHash (danglingPackage name) ∈ vkeys (Graph_ g') ∧
  edge_rel (Graph_ g') (packageHash parent) (packageHash (danglingPackage name)).
Proof.
  unfold addDanglingPackage.
  destruct (addVertex g (danglingPackage name)) as [g1 e1] eqn:Hv.
  apply addVertex_quiet in Hv as [_ Hk].
  destruct (failed_other_than ErrVertexAlreadyExists e1); [done|].
  destruct (graph.AddEdge (Graph_ g1) _ _ []) as [s e2] eqn:He.
  intros H; inversion H; subst. simpl.
  pose proof (AddEdge_keys _ _ _ _ _ _ He) as Hs.
  apply AddEdge_tolerated in He as (He & _); [|done].
  split; [|done]. unfold vkeys. by rewrite Hs.
Qed.

Lemma candidatePackage_packages g g' pkg r localRepo :
  packages g' = packages g →
  candidatePackage g' pkg r localRepo = candidatePackage g pkg r localRepo.
Proof. intros H. unfold candidatePackage. by rewrite H. Qed.

Lemma CreatesCycle_not_false g s t :
  graph.CreatesCycle g s t ≠ inr false →
  s ∈ vkeys g → t ∈ vkeys g → rtc (edge_rel g) t s.
Proof.
  intros Hc Hs Ht. destruct (graph.CreatesCycle g s t) as [e|[]] eqn:Hcc.
  - unfold graph.CreatesCycle in Hcc.
    apply Vertex_of_key in Hs as [? Hs], Ht as [? Ht]. rewrite Hs, Ht in Hcc.
    by destruct (decide (s = t)).
  - by apply CreatesCycle_true.
  - done.
Qed.

(** The candidate loop, entered with no package chosen.  If it returns
    without error, a candidate that the guard let pass has become a vertex
    and the target of an edge from [c].  If it runs out of candidates, no
    package is chosen, and the cycle target is the one it was entered with
    or, if that was empty, a candidate that [c] is reachable from. *)
Lemma scan_None resolved c dep localRepo :
  ∀ g cycleTarget,
    match scan resolved g None cycleTarget c dep localRepo with
    | Returned g' cy err =>
        cy = None ∧
        (err = None →
         ∃ r p, r ∈ resolved ∧ isMyself r c dep = false ∧
                candidatePackage g None r localRepo = inr p ∧
                packageHash p ∈ vkeys (Graph_ g') ∧
                edge_rel (Graph_ g') (packageHash c) (packageHash p))
    | Exhausted g' pkg cycleTarget' =>
        pkg = None ∧
        (cycleTarget' = cycleTarget ∨
         cycleTarget = "" ∧
         ∃ r p, r ∈ resolved ∧ isMyself r c dep = false ∧
                candidatePackage g None r localRepo = inr p ∧
                cycleTarget' = packageHash p ∧
                packageHash p ∈ vkeys (Graph_ g') ∧
                (packageHash c ∈ vkeys (Graph_ g) →
                 rtc (edge_rel (Graph_ g')) (packageHash p) (packageHash c)))
    end.
Proof.
  induction resolved as [|r rest IH]; intros g cycleTarget; simpl.
  { split; [done|by left]. }
  destruct (isMyself r c dep) eqn:Hme.
  { specialize (IH g cycleTarget).
    destruct (scan rest g None cycleTarget c dep localRepo) as [g' cy err|g' pkg ct'].
    - destruct IH as [? IH]. split; [done|]. intros He.
      destruct (IH He) as (r' & p & Hr & ?). exists r', p. split; [by right|done].
    - destruct IH as [? [IH|(? & r' & p & Hr & ?)]]; (split; [done|]);
        [by left|right]. split; [done|]. exists r', p. split; [by right|done]. }
  destruct (candidatePackage g None r localRepo) as [e|p] eqn:Hcand.
  { split; [done|]. done. }
  destruct (addVertex g p) as [g1 e1] eqn:Hv.
  pose proof (addVertex_spec _ _ _ _ Hv) as (_ & Hpk & _).
  apply addVertex_quiet in Hv as [Hq Hk].
  destruct (failed_other_than ErrVertexAlreadyExists e1); [done|].
  assert (∀ b, graph.CreatesCycle (Graph_ g1) (packageHash c) (packageHash p) = b →
               b ≠ inr false →
               packageHash c ∈ vkeys (Graph_ g) →
               rtc (edge_rel (Graph_ g1)) (packageHash p) (packageHash c)) as Hreach.
  { intros b <- Hb Hc. apply CreatesCycle_not_false; [done| |done].
    by apply Hq. }
  assert (∀ ct1,
    match scan rest g1 None ct1 c dep localRepo with
    | Returned g' cy err =>
        cy = None ∧
        (err = None →
         ∃ r0 p0, r0 ∈ r :: rest ∧ isMyself r0 c dep = false ∧
                candidatePackage g None r0 localRepo = inr p0 ∧
                packageHash p0 ∈ vkeys (Graph_ g') ∧
                edge_rel (Graph_ g') (packageHash c) (packageHash p0))
    | Exhausted g' pkg cycleTarget' =>
        pkg = None ∧
        (cycleTarget' = ct1 ∨
         ct1 = "" ∧
         ∃ r0 p0, r0 ∈ r :: rest ∧ isMyself r0 c dep = false ∧
                candidatePackage g None r0 localRepo = inr p0 ∧
                cycleTarget' = packageHash p0 ∧
                packageHash p0 ∈ vkeys (Graph_ g') ∧
                (packageHash c ∈ vkeys (Graph_ g) →
                 rtc (edge_rel (Graph_ g')) (packageHash p0) (packageHash c)))
    end) as IH'.
  { intros ct1. specialize (IH g1 ct1).
    destruct (scan rest g1 None ct1 c dep localRepo) as [g' cy err|g' pkg ct'].
    - destruct IH as [? IH]. split; [done|]. intros He.
      destruct (IH He) as (r' & p' & Hr & Hm & Hc' & ? & ?).
      exists r', p'. split_and!; [by right|done| |done|done].
      by rewrite <- (candidatePackage_packages g g1).
    - destruct IH as [? [IH|(? & r' & p' & Hr & Hm & Hc' & ? & ? & Hrtc)]];
        (split; [done|]); [by left|right]. split; [done|].
      exists r', p'. split_and!; [by right|done| |done|done|].
      + by rewrite <- (candidatePackage_packages g g1).
      + intros Hc. apply Hrtc. by apply Hq. }
  destruct (graph.CreatesCycle (Graph_ g1) (packageHash c) (packageHash p))
    as [e|[]] eqn:Hcc.
  3:{ destruct (graph.AddEdge (Graph_ g1) _ _ _) as [s e2] eqn:He.
      pose proof (AddEdge_keys _ _ _ _ _ _ He) as Hs.
      destruct (failed_other_than ErrEdgeAlreadyExists e2) eqn:Hf;
        (split; [done|]); [done|]. intros _.
      apply AddEdge_tolerated in He as (He & _); [|done].
      exists r, p. split_and!; [by left|done|done| |done].
      simpl. unfold vkeys. by rewrite Hs. }
  all: specialize (Hreach _ eq_refl ltac:(done));
    set (ct1 := if decide (cycleTarget = "") then packageHash p else cycleTarget);
    specialize (IH' ct1);
    pose proof (scan_grows rest c dep localRepo g1 None ct1) as [_ Hgr];
    pose proof (scan_keys rest c dep localRepo g1 None ct1 _ Hk) as Hk';
    destruct (scan rest g1 None ct1 c dep localRepo) as [g' cy err|g' pkg ct'];
    simpl in Hgr, Hk'; [done|];
    destruct IH' as [-> IH']; (split; [done|]);
    unfold ct1 in IH'; destruct (decide (cycleTarget = "")) as [->|Hne].
  all: try (destruct IH' as [->|[? _]]; [by left|done]).
  all: right; (split; [done|]); destruct IH' as [->|[_ IH']]; [|done].
  all: exists r, p; split_and!; [by left|done..|];
    intros Hc; apply (rtc_edges _ _ (proj2 (proj2 (proj2 Hgr)))); by apply Hreach.
Qed.

(** X7. When [addAppropriatePackage] returns neither an error nor a pending
    cycle, the dependency is fulfilled: [c] has an edge to a vertex, which
    is a candidate of the resolver that the guard let pass or, only if
    unresolved dependencies are allowed, the dangling package of the
    dependency. *)
Theorem addAppropriatePackage_fulfilled g resolver c dep localRepo g' :
  addAppropriatePackage g resolver c dep localRepo = (g', None, None) →
  ∃ p, packageHash p ∈ vkeys (Graph_ g') ∧
       edge_rel (Graph_ g') (packageHash c) (packageHash p) ∧
       ((∃ r, r ∈ (ResolvePackage resolver dep).1 ∧ isMyself r c dep = false ∧
              candidatePackage g None r localRepo = inr p)
        ∨ (p = danglingPackage dep ∧ allowUnresolved (opts g) = true)).
Proof.
  unfold addAppropriatePackage.
  destruct (ResolvePackage resolver dep) as [resolved rerr]. simpl.
  destruct (bool_decide (rerr ≠ None ∨ length resolved = 0)).
  - destruct (allowUnresolved (opts g)) eqn:Hallow; [|done].
    destruct (addDanglingPackage g dep c) as [g1 [e|]] eqn:Hd; [done|].
    intros H; inversion H; subst.
    apply addDanglingPackage_edge in Hd as [Hk He].
    exists (danglingPackage dep). split_and!; [done|done|by right].
  - pose proof (scan_None resolved c dep localRepo g "") as Hs.
    pose proof (scan_grows resolved c dep localRepo g None "") as [_ Hq].
    destruct (scan resolved g None "" c dep localRepo)
      as [g1 cy1 e1|g1 pkg ct]; simpl in Hq.
    + destruct Hs as [_ Hs]. intros H; inversion H; subst.
      destruct (Hs eq_refl) as (r & p & Hr & Hm & Hc & Hk & He).
      exists p. split_and!; [done|done|]. left. by exists r.
    + destruct Hs as [-> _].
      destruct (negb (bool_decide (ct = ""))); [done|].
      destruct (allowUnresolved (opts g1)) eqn:Hallow; [|done]. simpl.
      destruct (addDanglingPackage g1 dep c) as [g2 [e|]] eqn:Hd; [done|].
      intros H; inversion H; subst.
      apply addDanglingPackage_edge in Hd as [Hk He].
      exists (danglingPackage dep). split_and!; [done|done|right].
      split; [done|]. destruct Hq as (_ & Ho & _). congruence.
Qed.

Lemma addAppropriatePackage_fulfilled_witness :
  let c := origin (Scenario.cfg "A" "1" ["B"]) in
  let r := addAppropriatePackage Scenario.abc_graph
             (Scenario.local_resolver Scenario.abc) c "B" Scenario.localIndex in
  ∃ p, packageHash p ∈ vkeys (Graph_ r.1.1) ∧
       edge_rel (Graph_ r.1.1) (packageHash c) (packageHash p) ∧
       ((∃ r0, r0 ∈ (ResolvePackage (Scenario.local_resolver Scenario.abc) "B").1 ∧
               isMyself r0 c "B" = false ∧
               candidatePackage Scenario.abc_graph None r0 Scenario.localIndex
               = inr p)
        ∨ (p = danglingPackage "B" ∧
           allowUnresolved (opts Scenario.abc_graph) = true)).
Proof.
  intros c r.
  apply (addAppropriatePackage_fulfilled Scenario.abc_graph
           (Scenario.local_resolver Scenario.abc) c "B" Scenario.localIndex r.1.1).
  vm_compute. reflexivity.
Defined.

(** X8. A pending cycle that [addAppropriatePackage] reports comes without an
    error and with the edges of the graph as they were.  It starts at [c];
    its target is a vertex, the first candidate the guard let pass that was
    refused, and if [c] is a vertex, [c] is reachable from it: the edge from
    [c] to the target would close a cycle. *)
Theorem addAppropriatePackage_pending g resolver c dep localRepo g' cy err :
  addAppropriatePackage g resolver c dep localRepo = (g', Some cy, err) →
  err = None ∧ src cy = packageHash c ∧
  graph.edges (Graph_ g') = graph.edges (Graph_ g) ∧
  target cy ∈ vkeys (Graph_ g') ∧
  (∃ r p, r ∈ (ResolvePackage resolver dep).1 ∧ isMyself r c dep = false ∧
          candidatePackage g None r localRepo = inr p ∧
          target cy = packageHash p) ∧
  (packageHash c ∈ vkeys (Graph_ g) →
   rtc (edge_rel (Graph_ g')) (target cy) (src cy)).
Proof.
  unfold addAppropriatePackage.
  destruct (ResolvePackage resolver dep) as [resolved rerr]. simpl.
  destruct (bool_decide (rerr ≠ None ∨ length resolved = 0)).
  { destruct (allowUnresolved (opts g)); [|done].
    by destruct (addDanglingPackage g dep c) as [g1 [e|]]. }
  pose proof (scan_None resolved c dep localRepo g "") as Hs.
  pose proof (scan_grows resolved c dep localRepo g None "") as [_ Hq].
  destruct (scan resolved g None "" c dep localRepo)
    as [g1 cy1 e1|g1 pkg ct]; simpl in Hq.
  { destruct Hs as [-> _]. done. }
  destruct Hs as [-> Hs].
  destruct (bool_decide (ct = "")) eqn:Hct; simpl.
  { destruct (negb (allowUnresolved (opts g1))); [done|].
    by destruct (addDanglingPackage g1 dep c) as [g2 [e|]]. }
  apply bool_decide_eq_false in Hct.
  intros H; inversion H; subst. simpl.
  destruct Hs as [?|(_ & r & p & Hr & Hm & Hc & -> & Hk & Hrtc)]; [done|].
  split_and!; [done|done|apply Hq|done| |done].
  by exists r, p.
Qed.

Lemma addAppropriatePackage_pending_witness :
  let c := origin Irreparable.B in
  let r := addAppropriatePackage Irreparable.g Irreparable.resolver c "A"
             Scenario.localIndex in
  @None error = None ∧ src Irreparable.pending = packageHash c ∧
  graph.edges (Graph_ r.1.1) = graph.edges (Graph_ Irreparable.g) ∧
  target Irreparable.pending ∈ vkeys (Graph_ r.1.1) ∧
  (∃ r0 p, r0 ∈ (ResolvePackage Irreparable.resolver "A").1 ∧
           isMyself r0 c "A" = false ∧
           candidatePackage Irreparable.g None r0 Scenario.localIndex = inr p ∧
           target Irreparable.pending = packageHash p) ∧
  (packageHash c ∈ vkeys (Graph_ Irreparable.g) →
   rtc (edge_rel (Graph_ r.1.1)) (target Irreparable.pending)
     (src Irreparable.pending)).
Proof.
  intros c r.
  apply (addAppropriatePackage_pending Irreparable.g Irreparable.resolver c "A"
           Scenario.localIndex r.1.1 Irreparable.pending None).
  vm_compute. reflexivity.
Defined.

(** X9. When the resolver fails or finds nothing, no candidate is looked at and
    no cycle is reported.  Unless unresolved dependencies are allowed, the
    graph stays as it is and the error wraps the one of the resolver.  If
    they are allowed, the dangling package of the dependency becomes a
    vertex, whether the edge to it is then accepted or not; there is no
    error if [c] is a vertex that the dangling package does not reach, and
    without error the edge from [c] to the dangling package is there. *)
Theorem addAppropriatePackage_unresolved g resolver c dep localRepo :
  (ResolvePackage resolver dep).2 ≠ None ∨ (ResolvePackage resolver dep).1 = [] →
  let r := addAppropriatePackage g resolver c dep localRepo in
  let d := packageHash (danglingPackage dep) in
  r.1.2 = None ∧
  (allowUnresolved (opts g) = false →
   r = (g, None, Some (Errorf UnableToResolve (ResolvePackage resolver dep).2))) ∧
  (allowUnresolved (opts g) = true →
   (∀ k, k ∈ vkeys (Graph_ r.1.1) ↔ k ∈ vkeys (Graph_ g) ∨ k = d) ∧
   (r.2 = None → edge_rel (Graph_ r.1.1) (packageHash c) d) ∧
   (packageHash c ∈ vkeys (Graph_ g) →
    ¬ rtc (edge_rel (Graph_ g)) d (packageHash c) → r.2 = None)).
Proof.
  intros Hres r d. unfold r, addAppropriatePackage.
  destruct (ResolvePackage resolver dep) as [resolved rerr]. simpl in Hres.
  rewrite bool_decide_eq_true_2.
  2:{ destruct Hres as [?|Hnil]; [by left|right; by rewrite Hnil]. }
  destruct (allowUnresolved (opts g)) eqn:Hallow.
  2:{ split_and!; done. }
  destruct (addDanglingPackage g dep c) as [g1 e] eqn:Hd.
  assert ((∀ k, k ∈ vkeys (Graph_ g1) ↔ k ∈ vkeys (Graph_ g) ∨ k = d) ∧
          (e = None → edge_rel (Graph_ g1) (packageHash c) d) ∧
          (packageHash c ∈ vkeys (Graph_ g) →
           ¬ rtc (edge_rel (Graph_ g)) d (packageHash c) → e = None)) as Hg.
  { split_and!.
    - unfold addDanglingPackage in Hd.
      destruct (addVertex g (danglingPackage dep)) as [g0 e0] eqn:Hv.
      apply addVertex_spec in Hv as (Hv & _).
      pose proof (AddVertex_keys _ _ _ _ Hv) as Hk.
      destruct (failed_other_than ErrVertexAlreadyExists e0) eqn:Hf.
      { apply AddVertex_spec in Hv as [(-> & _)|(-> & _)]; done. }
      destruct (graph.AddEdge (Graph_ g0) _ _ []) as [s e2] eqn:He.
      inversion Hd; subst. intros k. simpl. unfold vkeys at 1.
      rewrite (AddEdge_keys _ _ _ _ _ _ He). apply Hk.
    - intros ->. by apply addDanglingPackage_edge in Hd as [_ ?].
    - intros Hc Hrtc. unfold addDanglingPackage in Hd.
      destruct (addVertex g (danglingPackage dep)) as [g0 e0] eqn:Hv.
      pose proof (addVertex_quiet _ _ _ _ Hv) as [(_ & _ & Hmono & Hedges) Hk].
      apply addVertex_spec in Hv as (Hv & _).
      destruct (failed_other_than ErrVertexAlreadyExists e0) eqn:Hf.
      { apply AddVertex_spec in Hv as [(-> & _)|(-> & _)]; done. }
      destruct (graph.AddEdge (Graph_ g0) _ _ []) as [s e2] eqn:He.
      inversion Hd; subst.
      apply AddEdge_cases in He as [(-> & _)|(-> & _)]; [done|done|by apply Hmono|done|].
      intros Hr. apply Hrtc. by apply (rtc_edges _ _ Hedges). }
  destruct Hg as (Hk & He & Hok).
  destruct e as [e|]; simpl.
  - split; [done|]. split; [done|]. intros _. split; [done|].
    split; [done|]. intros Hc Hr. by specialize (Hok Hc Hr).
  - split; [done|]. split; [done|]. intros _. split; [done|].
    split; [|done]. intros _. by apply He.
Qed.

Lemma addAppropriatePackage_unresolved_witness :
  let c := origin (Scenario.cfg "Y" "1" ["nope"]) in
  let resolver := Scenario.local_resolver TwoErrors.pkgs in
  let r := addAppropriatePackage TwoErrors.start resolver c "nope"
             Scenario.localIndex in
  let d := packageHash (danglingPackage "nope") in
  r.1.2 = None ∧
  (allowUnresolved (opts TwoErrors.start) = false →
   r = (TwoErrors.start, None,
        Some (Errorf UnableToResolve (ResolvePackage resolver "nope").2))) ∧
  (allowUnresolved (opts TwoErrors.start) = true →
   (∀ k, k ∈ vkeys (Graph_ r.1.1) ↔ k ∈ vkeys (Graph_ TwoErrors.start) ∨ k = d) ∧
   (r.2 = None → edge_rel (Graph_ r.1.1) (packageHash c) d) ∧
   (packageHash c ∈ vkeys (Graph_ TwoErrors.start) →
    ¬ rtc (edge_rel (Graph_ TwoErrors.start)) d (packageHash c) → r.2 = None)).
Proof.
  intros c resolver.
  apply (addAppropriatePackage_unresolved TwoErrors.start resolver c "nope"
           Scenario.localIndex).
  right. reflexivity.
Defined.

(** X20. Whenever the candidate loop returns it reports no cycle, and whenever
    it runs out of candidates no package is selected: the test
    [pkg == nil] that follows the loop always holds. *)
Theorem scan_selects_nothing resolved g cycleTarget c dep localRepo :
  match scan resolved g None cycleTarget c dep localRepo with
  | Returned _ cy _ => cy = None
  | Exhausted _ pkg _ => pkg = None
  end.
Proof.
  pose proof (scan_None resolved c dep localRepo g cycleTarget) as H.
  by destruct (scan resolved g None cycleTarget c dep localRepo) as [? ? ?|? ? ?];
    destruct H.
Qed.

(** *** Resolving the same dependency again *)

Lemma packageHash_nonempty p : packageHash p ≠ "".
Proof. unfold packageHash. by destruct (Name p). Qed.

Lemma addVertex_present g p :
  packageHash p ∈ vkeys (Graph_ g) →
  addVertex g p = (g, Some (Sentinel ErrVertexAlreadyExists)).
Proof.
  intros Hk. apply assoc_is_Some in Hk as [q Hq].
  unfold addVertex, graph.AddVertex. by rewrite Hq.
Qed.

Lemma AddEdge_present g s t o :
  s ∈ vkeys g → t ∈ vkeys g → edge_rel g s t →
  graph.AddEdge g s t o = (g, Some (Sentinel ErrEdgeAlreadyExists)).
Proof.
  intros Hs Ht He. unfold graph.AddEdge.
  apply Vertex_of_key in Hs as [? ->], Ht as [? ->].
  apply find_edge_is_Some in He as [e ->]. done.
Qed.

Lemma addDanglingPackage_again g name parent g1 :
  addDanglingPackage g name parent = (g1, None) →
  addDanglingPackage g1 name parent = (g1, None).
Proof.
  intros H. pose proof (addDanglingPackage_edge _ _ _ _ H) as [Hk He].
  assert (packageHash parent ∈ vkeys (Graph_ g1)) as Hp.
  { unfold addDanglingPackage in H.
    destruct (addVertex g (danglingPackage name)) as [g0 e0].
    destruct (failed_other_than ErrVertexAlreadyExists e0); [done|].
    destruct (graph.AddEdge (Graph_ g0) _ _ []) as [s e2] eqn:Ha.
    inversion H; subst. simpl.
    pose proof (AddEdge_keys _ _ _ _ _ _ Ha) as Hs.
    apply AddEdge_tolerated in Ha as (_ & Hp & _); [|done].
    unfold vkeys. by rewrite Hs. }
  unfold addDanglingPackage. rewrite addVertex_present by done. simpl.
  rewrite AddEdge_present by done. simpl. by rewrite with_store_same.
Qed.

Lemma scan_all_skipped resolved c dep localRepo g pkg cycleTarget :
  Forall (fun r => isMyself r c dep = true) resolved →
  scan resolved g pkg cycleTarget c dep localRepo = Exhausted g pkg cycleTarget.
Proof.
  induction 1 as [|r rest Hr _ IH]; simpl; [done|]. by rewrite Hr.
Qed.

Lemma scan_skips resolved c dep localRepo :
  ∀ g g1 pkg,
    scan resolved g None "" c dep localRepo = Exhausted g1 pkg "" →
    Forall (fun r => isMyself r c dep = true) resolved.
Proof.
  induction resolved as [|r rest IH]; intros g g1 pkg; simpl; [by constructor|].
  destruct (isMyself r c dep) eqn:Hme.
  { intros H. constructor; [done|]. by eapply IH. }
  destruct (candidatePackage g None r localRepo) as [e|p]; [done|].
  destruct (addVertex g p) as [g0 e0].
  destruct (failed_other_than ErrVertexAlreadyExists e0); [done|].
  destruct (graph.CreatesCycle (Graph_ g0) (packageHash c) (packageHash p))
    as [e|[]].
  3:{ destruct (graph.AddEdge (Graph_ g0) _ _ _) as [s e2].
      by destruct (failed_other_than ErrEdgeAlreadyExists e2). }
  all: intros H; exfalso;
    pose proof (scan_None rest c dep localRepo g0 (packageHash p)) as Hs;
    try rewrite decide_True in H by done; rewrite H in Hs;
    destruct Hs as [_ [Hs|[Hs _]]];
    by apply (packageHash_nonempty p).
Qed.

Lemma grows_edge_rel k g g' u v :
  grows k g g' → edge_rel (Graph_ g) u v → edge_rel (Graph_ g') u v.
Proof.
  intros (_ & _ & _ & [He|(e & He & _)]) (e' & Hin & Hs & Ht);
    exists e'; rewrite He; [done|].
  split; [|done]. apply elem_of_app. by left.
Qed.

Lemma scan_again resolved c dep localRepo :
  ∀ g cycleTarget g1,
    packageHash c ∈ vkeys (Graph_ g) →
    scan resolved g None cycleTarget c dep localRepo = Returned g1 None None →
    ∀ g2 cycleTarget2,
      packages g2 = packages g →
      (∀ k, k ∈ vkeys (Graph_ g1) → k ∈ vkeys (Graph_ g2)) →
      (∀ u v, edge_rel (Graph_ g1) u v → edge_rel (Graph_ g2) u v) →
      acyclic (Graph_ g2) →
      scan resolved g2 None cycleTarget2 c dep localRepo = Returned g2 None None.
Proof.
  induction resolved as [|r rest IH];
    intros g ct g1 Hc H g2 ct2 Hpk Hkeys Hedges Hac; simpl in *; [done|].
  destruct (isMyself r c dep); [by eapply IH|].
  rewrite (candidatePackage_packages g g2) by done.
  destruct (candidatePackage g None r localRepo) as [e|p]; [done|].
  destruct (addVertex g p) as [g0 e0] eqn:Hv.
  pose proof (addVertex_spec _ _ _ _ Hv) as (_ & Hpk0 & _).
  apply addVertex_quiet in Hv as [Hq Hp0].
  destruct (failed_other_than ErrVertexAlreadyExists e0); [done|].
  assert (packageHash c ∈ vkeys (Graph_ g0)) as Hc0 by by apply Hq.
  destruct (graph.CreatesCycle (Graph_ g0) (packageHash c) (packageHash p))
    as [e|[]] eqn:Hcc.
  3:{ destruct (graph.AddEdge (Graph_ g0) _ _ _) as [s e2] eqn:Ha.
      pose proof (AddEdge_keys _ _ _ _ _ _ Ha) as Hs.
      destruct (failed_other_than ErrEdgeAlreadyExists e2) eqn:Hf; [done|].
      apply AddEdge_tolerated in Ha as (He & _); [|done].
      inversion H; subst. simpl in *.
      assert (packageHash p ∈ vkeys (Graph_ g2)) as Hp2.
      { apply Hkeys. unfold vkeys. by rewrite Hs. }
      assert (packageHash c ∈ vkeys (Graph_ g2)) as Hc2.
      { apply Hkeys. unfold vkeys. by rewrite Hs. }
      rewrite addVertex_present by done. simpl.
      destruct (graph.CreatesCycle (Graph_ g2) (packageHash c) (packageHash p))
        as [e|[]] eqn:Hcc2.
      - exfalso. unfold graph.CreatesCycle in Hcc2.
        apply Vertex_of_key in Hc2 as [? Hc2], Hp2 as [? Hp2].
        rewrite Hc2, Hp2 in Hcc2. by destruct (decide (packageHash c = packageHash p)).
      - exfalso. apply CreatesCycle_true in Hcc2.
        apply (Hac (packageHash c)). eapply tc_rtc_r; [|exact Hcc2].
        apply tc_once. by apply Hedges.
      - rewrite AddEdge_present by (try done; by apply Hedges). simpl.
        by rewrite with_store_same. }
  all: set (ct1 := if decide (ct = "") then packageHash p else ct) in *;
    pose proof (scan_grows rest c dep localRepo g0 None ct1) as [_ Hgr];
    pose proof (scan_keys rest c dep localRepo g0 None ct1 _ Hp0) as Hp1;
    rewrite H in Hgr, Hp1; simpl in Hgr, Hp1;
    assert (rtc (edge_rel (Graph_ g0)) (packageHash p) (packageHash c)) as Hr
      by (apply CreatesCycle_not_false; [by rewrite Hcc|done|done]);
    rewrite addVertex_present by (by apply Hkeys); simpl;
    rewrite (CreatesCycle_reachable (Graph_ g2));
    [ eapply (IH g0 ct1 g1); [done|done|congruence|done|done|done]
    | apply Hkeys; by apply Hgr
    | by apply Hkeys
    | eapply rtc_subrel; [|exact Hr]; intros u v Huv;
      apply Hedges; by eapply grows_edge_rel ].
Qed.

(** X21. Resolving a dependency that was just resolved changes nothing: if
    [addAppropriatePackage] returned neither an error nor a pending cycle
    for [c], a vertex of a well-formed graph, then a second call with the
    same arguments on the graph it left returns the same, and leaves that
    graph as it is. *)
Theorem addAppropriatePackage_again g resolver c dep localRepo g1 :
  wf (Graph_ g) → packageHash c ∈ vkeys (Graph_ g) →
  addAppropriatePackage g resolver c dep localRepo = (g1, None, None) →
  addAppropriatePackage g1 resolver c dep localRepo = (g1, None, None).
Proof.
  intros Hwf Hc H.
  pose proof (addAppropriatePackage_grows _ _ _ _ _ _ _ _ H) as (Hw1 & Hgr & _).
  specialize (Hw1 Hwf). destruct Hgr as (Hpk & Ho & _).
  unfold addAppropriatePackage in *.
  destruct (ResolvePackage resolver dep) as [resolved rerr].
  destruct (bool_decide (rerr ≠ None ∨ length resolved = 0)).
  { rewrite Ho. destruct (allowUnresolved (opts g)); [|done].
    destruct (addDanglingPackage g dep c) as [g0 [e|]] eqn:Hd; [done|].
    inversion H; subst. by rewrite (addDanglingPackage_again _ _ _ _ Hd). }
  destruct (scan resolved g None "" c dep localRepo) as [g0 cy e|g0 pkg ct] eqn:Hs.
  - inversion H; subst.
    by rewrite (scan_again resolved c dep localRepo g "" g1 Hc Hs g1 "" Hpk
                  ltac:(done) ltac:(done) (wf_acyclic _ Hw1)).
  - pose proof (scan_None resolved c dep localRepo g "") as Hn. rewrite Hs in Hn.
    destruct Hn as [-> _].
    destruct (bool_decide (ct = "")) eqn:Hct; simpl in H; [|done].
    apply bool_decide_eq_true in Hct. subst ct.
    pose proof (scan_skips _ _ _ _ _ _ _ Hs) as Hall.
    rewrite (scan_all_skipped _ _ _ _ _ _ _ Hall) in Hs. inversion Hs; subst g0.
    rewrite (scan_all_skipped _ _ _ _ _ _ _ Hall). simpl. rewrite Ho.
    destruct (allowUnresolved (opts g)); simpl in *; [|done].
    destruct (addDanglingPackage g dep c) as [g0 [e|]] eqn:Hd; [done|].
    inversion H; subst. by rewrite (addDanglingPackage_again _ _ _ _ Hd).
Qed.

Lemma addAppropriatePackage_again_witness :
  let c := origin (Scenario.cfg "A" "1" ["B"]) in
  let r := addAppropriatePackage Scenario.abc_graph
             (Scenario.local_resolver Scenario.abc) c "B" Scenario.localIndex in
  addAppropriatePackage r.1.1 (Scenario.local_resolver Scenario.abc) c "B"
    Scenario.localIndex = (r.1.1, None, None).
Proof.
  intros c r.
  apply (addAppropriatePackage_again Scenario.abc_graph
           (Scenario.local_resolver Scenario.abc) c "B" Scenario.localIndex r.1.1).
  - apply (NewGraph_wf (Scenario.world (Scenario.local_resolver Scenario.abc))
             (Scenario.store_of Scenario.abc) [] _ None).
    vm_compute. reflexivity.
  - vm_compute. apply list_elem_of_In. simpl. tauto.
  - vm_compute. reflexivity.
Defined.

(** ** Where the edges start *)











(** ** How [resolveCycle] fails *)

Lemma ShortestPath_self g v : graph.ShortestPath g v v = inr [v].
Proof.
  unfold graph.ShortestPath.
  destruct (graph.dijkstra _ _ _ _) as [weights bestPredecessors].
  simpl. by rewrite decide_True.
Qed.

(** X11. A pending cycle from a package to itself cannot be repaired: the path
    from the target to the source has no edge to take away, and
    [resolveCycle] fails without touching the graph. *)
Theorem resolveCycle_self g c dep resolver localRepo :
  src c = target c →
  resolveCycle g c dep resolver localRepo = (g, Some (Errorf NoPath None)).
Proof.
  intros Heq. unfold resolveCycle. rewrite Heq, ShortestPath_self.
  by rewrite decide_True by (simpl; lia).
Qed.

Lemma resolveCycle_self_witness :
  resolveCycle Scenario.abc_graph (mkCycle "A:1@local" "A:1@local") "A"
    (Scenario.local_resolver Scenario.abc) Scenario.localIndex
  = (Scenario.abc_graph, Some (Errorf NoPath None)).
Proof.
  apply (resolveCycle_self Scenario.abc_graph (mkCycle "A:1@local" "A:1@local")).
  reflexivity.
Defined.

(** X12. On a well-formed graph [resolveCycle] fails in one of six ways only:
    the last hop of the path is an edge between vertices, so that looking it
    up, removing it and looking up its source cannot fail.  When it fails
    before the removal, for want of a path or of attributes, the graph is
    as it was. *)
Theorem resolveCycle_failures g c dep resolver localRepo g' err :
  wf (Graph_ g) →
  resolveCycle g c dep resolver localRepo = (g', Some err) →
  ∃ s cause, err = Errorf s cause ∧
    (s = NoShortestPath ∨ s = NoPath ∨ s = NoAttributes ∨
     s = AddReplacementEdge ∨ s = ReAddOriginalEdge ∨ s = StillCausesCycle) ∧
    (s = NoShortestPath ∨ s = NoPath ∨ s = NoAttributes → g' = g).
Proof.
  intros Hwf Hres.
  destruct (graph.ShortestPath (Graph_ g) (target c) (src c)) as [e|sp] eqn:Hsp.
  { unfold resolveCycle in Hres. rewrite Hsp in Hres. inversion Hres; subst.
    eexists _, _. split; [done|]. split; [by left|done]. }
  destruct (decide (length sp < 2)) as [Hlen|Hlen].
  { unfold resolveCycle in Hres. rewrite Hsp, decide_True in Hres by done.
    inversion Hres; subst.
    eexists _, _. split; [done|]. split; [by right; left|done]. }
  apply last_two_split in Hlen as (pre & culprit & removed & ->).
  destruct (resolveCycle_unfold g c dep resolver localRepo pre culprit removed Hwf Hsp)
    as (edge & Hedge & Heq).
  rewrite Heq in Hres. clear Heq.
  assert (culprit ∈ vkeys (Graph_ g)) as Hk.
  { unfold graph.Edge_ in Hedge.
    destruct (graph.find_edge (Graph_ g) culprit removed) as [e|] eqn:Hf; [|done].
    apply find_edge_Some in Hf as (Hin & <- & _).
    by apply (wf_ends _ Hwf). }
  destruct (graph.Attributes edge) as [attrs|].
  2:{ inversion Hres; subst. eexists _, _. split; [done|].
      split; [by right; right; left|done]. }
  destruct (graph.RemoveEdge (Graph_ g) culprit removed) as [s1 e1] eqn:Hr.
  apply RemoveEdge_keys in Hr. simpl in Hres.
  destruct (graph.AddEdge s1 (src c) (target c) _) as [s2 [e2|]] eqn:Ha.
  { inversion Hres; subst. eexists _, _. split; [done|].
    split; [by right; right; right; left|]. by intros [?|[?|?]]. }
  apply AddEdge_keys in Ha.
  assert (culprit ∈ vkeys s2) as Hk2 by (unfold vkeys; by rewrite Ha, Hr).
  apply Vertex_of_key in Hk2 as [config Hconfig]. rewrite Hconfig in Hres.
  destruct (addAppropriatePackage (with_store g s2) resolver config _ _)
    as [[g3 [cy|]] [e|]]; simpl in Hres; [| | |done];
    inversion Hres; subst; eexists _, _; (split; [done|]).
  - split; [by right; right; right; right; left|]. by intros [?|[?|?]].
  - split; [by right; right; right; right; right|]. by intros [?|[?|?]].
  - split; [by right; right; right; right; left|]. by intros [?|[?|?]].
Qed.

Lemma resolveCycle_failures_witness :
  ∃ s cause, Errorf StillCausesCycle None = Errorf s cause ∧
    (s = NoShortestPath ∨ s = NoPath ∨ s = NoAttributes ∨
     s = AddReplacementEdge ∨ s = ReAddOriginalEdge ∨ s = StillCausesCycle) ∧
    (s = NoShortestPath ∨ s = NoPath ∨ s = NoAttributes →
     (resolveCycle Irreparable.g Irreparable.pending "A" Irreparable.resolver
        Scenario.localIndex).1 = Irreparable.g).
Proof.
  apply (resolveCycle_failures Irreparable.g Irreparable.pending "A"
           Irreparable.resolver Scenario.localIndex).
  - exact Irreparable_wf.
  - etrans; [apply surjective_pairing|]. apply (f_equal (pair _)).
    vm_compute. reflexivity.
Defined.

(** ** More on [Filter] *)

(** The two passes of [Filter] change the subgraph only through
    [addVertex] and through [AddEdge] without options. *)
Section filter_lifting.

Context (P : Graph → Prop).
Hypothesis P_addVertex : ∀ g p, P g → P (addVertex g p).1.
Hypothesis P_AddEdge :
  ∀ g u v, P g → P (with_store g (graph.AddEdge (Graph_ g) u v []).1).

Lemma lift_filter_vertices g filter nodes :
  ∀ sub sub', filter_vertices g filter nodes sub = inr sub' → P sub → P sub'.
Proof.
  induction nodes as [|node nodes IH]; intros sub sub'; simpl.
  - intros H; by inversion H; subst.
  - destruct (graph.Vertex (Graph_ g) node) as [e|vertex]; [done|].
    destruct (negb (filter vertex)); [apply IH|].
    pose proof (P_addVertex sub vertex) as H1.
    destruct (addVertex sub vertex) as [sub1 e1]. simpl in H1.
    destruct (failed_other_than ErrVertexAlreadyExists e1); [done|].
    intros H HP. eapply IH; [exact H|]. by apply H1.
Qed.

Lemma lift_filter_deps deps :
  ∀ sub sub', filter_deps deps sub = inr sub' → P sub → P sub'.
Proof.
  induction deps as [|edge deps IH]; intros sub sub'; simpl.
  - intros H; by inversion H; subst.
  - destruct (graph.Vertex (Graph_ sub) (graph.Target edge)); [apply IH|].
    pose proof (P_AddEdge sub (graph.Source edge) (graph.Target edge)) as H1.
    destruct (graph.AddEdge (Graph_ sub) _ _ []) as [s e2]. simpl in H1.
    destruct (failed_other_than ErrEdgeAlreadyExists e2); [done|].
    intros H HP. eapply IH; [exact H|]. by apply H1.
Qed.

Lemma lift_filter_edges g nodes :
  ∀ sub sub', filter_edges g nodes sub = inr sub' → P sub → P sub'.
Proof.
  induction nodes as [|node nodes IH]; intros sub sub'; simpl.
  - intros H; by inversion H; subst.
  - destruct (graph.Vertex (Graph_ sub) node); [apply IH|].
    destruct (filter_deps (adjacency (Graph_ g) node) sub) as [e|sub1] eqn:Hd;
      [done|].
    intros H HP. eapply IH; [exact H|]. by eapply lift_filter_deps.
Qed.

Lemma lift_Filter g filter sub :
  P (mkG newGraph (packages g) (opts g) ∅) →
  Filter g filter = inr sub → P sub.
Proof.
  unfold Filter. intros HP.
  destruct (filter_vertices g filter _ _) as [e|sub1] eqn:H1; [done|].
  intros H2. eapply lift_filter_edges; [exact H2|].
  by eapply lift_filter_vertices.
Qed.

End filter_lifting.

Lemma NoDup_addVertex g p :
  NoDup (vkeys (Graph_ g)) → NoDup (vkeys (Graph_ (addVertex g p).1)).
Proof.
  intros Hnd. destruct (addVertex g p) as [g' e] eqn:H. simpl.
  apply addVertex_spec in H as (H & _).
  apply AddVertex_spec in H as [(_ & -> & _)|(_ & Hnot & ->)]; [done|].
  unfold vkeys. simpl. rewrite fmap_app. apply NoDup_app. split_and!; [done| |].
  - intros k Hk Hk'. apply list_elem_of_singleton in Hk'. by subst.
  - apply NoDup_singleton.
Qed.

(** X13. The graph that [Filter] returns, on any graph, keeps the package store
    and the options of the graph, and none of the attributes of its edges:
    every edge has an empty attribute map.  Its index by name is rebuilt from
    the vertices that were kept, so that [NodesByName] does not fail on it
    and returns the kept packages of the name. *)
Theorem Filter_result g filter sub :
  Filter g filter = inr sub →
  packages sub = packages g ∧ opts sub = opts g ∧
  (∀ e, e ∈ graph.edges (Graph_ sub) → graph.Attributes e = Some []) ∧
  ∀ name,
    NodesByName sub name =
    inr (List.filter (fun p => bool_decide (Name p = name))
           (graph.vertices (Graph_ sub)).*2).
Proof.
  intros H. split_and!.
  - revert H. apply (lift_Filter (fun s => packages s = packages g)); [|done..].
    intros s p Hs. destruct (addVertex s p) as [s' e] eqn:Hv.
    apply addVertex_spec in Hv as (_ & Hp & _). simpl. congruence.
  - revert H. apply (lift_Filter (fun s => opts s = opts g)); [|done..].
    intros s p Hs. destruct (addVertex s p) as [s' e] eqn:Hv.
    apply addVertex_spec in Hv as (_ & _ & Ho). simpl. congruence.
  - revert H.
    apply (lift_Filter
             (fun s => ∀ e, e ∈ graph.edges (Graph_ s) →
                            graph.Attributes e = Some [])).
    + intros s p Hs. destruct (addVertex s p) as [s' e] eqn:Hv.
      apply addVertex_quiet in Hv as [(_ & _ & _ & He) _]. simpl.
      by rewrite He.
    + intros s u v Hs.
      destruct (graph.AddEdge (Graph_ s) u v []) as [s' e] eqn:Ha. simpl.
      apply AddEdge_spec in Ha as [(-> & _)|(_ & _ & _ & _ & _ & ->)]; [done|].
      simpl. intros e' He'. apply elem_of_app in He' as [He'|He']; [by apply Hs|].
      by apply list_elem_of_singleton in He' as ->.
    + intros e He. by apply elem_of_nil in He.
  - intros name. apply NodesByName_indexed.
    + revert H. apply (lift_Filter (fun s => NoDup (vkeys (Graph_ s)))).
      * intros s p. apply NoDup_addVertex.
      * intros s u v Hs.
        destruct (graph.AddEdge (Graph_ s) u v []) as [s' e] eqn:Ha.
        unfold vkeys. simpl. by rewrite (AddEdge_keys _ _ _ _ _ _ Ha).
      * constructor.
    + revert H. apply (lift_Filter indexed).
      * intros s p. apply indexed_addVertex.
      * intros s u v Hs. apply indexed_store; [done|].
        destruct (graph.AddEdge (Graph_ s) u v []) as [s' e] eqn:Ha.
        by apply AddEdge_keys in Ha.
      * intros name'. simpl. by rewrite lookup_empty.
Qed.

Lemma Filter_result_witness :
  let sub := match Filter Scenario.abc_graph FilterLocal with
             | inr sub => sub
             | inl _ => Scenario.abc_graph
             end in
  packages sub = packages Scenario.abc_graph ∧
  opts sub = opts Scenario.abc_graph ∧
  (∀ e, e ∈ graph.edges (Graph_ sub) → graph.Attributes e = Some []) ∧
  ∀ name,
    NodesByName sub name =
    inr (List.filter (fun p => bool_decide (Name p = name))
           (graph.vertices (Graph_ sub)).*2).
Proof.
  intros sub. apply (Filter_result Scenario.abc_graph FilterLocal sub).
  vm_compute. reflexivity.
Defined.

(** What [Filter] returns on a well-formed graph, with the
    well-formedness of the result. *)
Lemma Filter_facts g filter :
  wf (Graph_ g) →
  ∃ sub, Filter g filter = inr sub ∧ wf (Graph_ sub) ∧
    (∀ k p, graph.Vertex (Graph_ sub) k = inr p ↔
            graph.Vertex (Graph_ g) k = inr p ∧ filter p = true) ∧
    (∀ u v, edge_rel (Graph_ sub) u v ↔
            edge_rel (Graph_ g) u v ∧
            (∃ pu, graph.Vertex (Graph_ g) u = inr pu ∧ filter pu = true) ∧
            (∃ pv, graph.Vertex (Graph_ g) v = inr pv ∧ filter pv = true)).
Proof.
  intros Hwf. unfold Filter.
  destruct (filter_vertices_spec g filter Hwf (graph.vertices (Graph_ g)).*1
              (mkG newGraph (packages g) (opts g) ∅))
    as (sub1 & Hr1 & Hw1 & He1 & Hv1); [done|apply wf_new|done|].
  rewrite Hr1.
  destruct (filter_edges_spec g Hwf sub1 (graph.vertices (Graph_ g)).*1 sub1)
    as (sub & Hr & (Hvs & Hw & _) & He).
  { split_and!; [done|done|]. intros u v (e & Hin & _).
    rewrite He1 in Hin. by apply elem_of_nil in Hin. }
  exists sub. split; [done|]. split; [done|].
  assert (∀ k p, graph.Vertex (Graph_ sub) k = inr p ↔
                 graph.Vertex (Graph_ g) k = inr p ∧ filter p = true) as Hv.
  { intros k p. unfold graph.Vertex at 1. rewrite Hvs.
    fold (graph.Vertex (Graph_ sub1) k). rewrite Hv1. split.
    - intros [?|[_ ?]]; done.
    - intros [Hk Hf]. right. split; [|done]. by eapply Vertex_inr_key. }
  assert (∀ k, k ∈ vkeys (Graph_ sub1) ↔
               ∃ p, graph.Vertex (Graph_ g) k = inr p ∧ filter p = true) as Hk.
  { intros k. unfold vkeys. rewrite <- Hvs. fold (vkeys (Graph_ sub)). split.
    - intros Hin. destruct (Vertex_of_key _ _ Hin) as [p Hp].
      exists p. by apply Hv.
    - intros (p & Hp). apply Hv in Hp. by eapply Vertex_inr_key. }
  split; [exact Hv|].
  intros u v. rewrite He, !Hk. split.
  - intros [(e & Hin & _)|(_ & Huv & Hu & Hv')].
    + rewrite He1 in Hin. by apply elem_of_nil in Hin.
    + done.
  - intros (Huv & Hu & Hv'). right. split_and!; [|done..].
    destruct Huv as (e & Hin & <- & _). by apply (wf_ends _ Hwf).
Qed.

(** X14. Filtering twice is filtering once with both filters: on a well-formed
    graph the three calls succeed, the result of the second is well formed
    and has the vertices and the edges of the graph filtered by the
    conjunction.  So the order of two filters does not matter, and a filter
    applied again changes nothing. *)
Theorem Filter_compose g f1 f2 f12 :
  wf (Graph_ g) →
  (∀ p, f12 p = f1 p && f2 p) →
  ∃ s1 s2 s,
    Filter g f1 = inr s1 ∧ Filter s1 f2 = inr s2 ∧ Filter g f12 = inr s ∧
    wf (Graph_ s2) ∧
    (∀ k p, graph.Vertex (Graph_ s2) k = inr p ↔ graph.Vertex (Graph_ s) k = inr p) ∧
    (∀ u v, edge_rel (Graph_ s2) u v ↔ edge_rel (Graph_ s) u v).
Proof.
  intros Hwf Hf.
  destruct (Filter_facts g f1 Hwf) as (s1 & H1 & Hw1 & Hv1 & He1).
  destruct (Filter_facts s1 f2 Hw1) as (s2 & H2 & Hw2 & Hv2 & He2).
  destruct (Filter_facts g f12 Hwf) as (s & H & _ & Hv & He).
  exists s1, s2, s. split_and!; [done..| |].
  - intros k p. rewrite Hv2, Hv1, Hv, Hf, andb_true_iff. tauto.
  - intros u v. rewrite He2, He1, He. split.
    + intros ((Huv & _ & _) & (pu & Hpu & Hu2) & (pv & Hpv & Hv2')).
      apply Hv1 in Hpu as [Hpu Hu1], Hpv as [Hpv Hv1'].
      split; [done|]. split; [exists pu|exists pv];
        (split; [done|]); rewrite Hf; by apply andb_true_iff.
    + intros (Huv & (pu & Hpu & Hu) & (pv & Hpv & Hv')).
      rewrite Hf in Hu, Hv'.
      apply andb_true_iff in Hu as [Hu1 Hu2], Hv' as [Hv1' Hv2'].
      split_and!; [done|by exists pu|by exists pv| |].
      * exists pu. split; [|done]. by apply Hv1.
      * exists pv. split; [|done]. by apply Hv1.
Qed.

Lemma Filter_compose_witness :
  ∃ s1 s2 s,
    Filter Scenario.abc_graph FilterLocal = inr s1 ∧
    Filter s1 (FilterNotSources ["upstream"]) = inr s2 ∧
    Filter Scenario.abc_graph
      (fun p => FilterLocal p && FilterNotSources ["upstream"] p) = inr s ∧
    wf (Graph_ s2) ∧
    (∀ k p, graph.Vertex (Graph_ s2) k = inr p ↔ graph.Vertex (Graph_ s) k = inr p) ∧
    (∀ u v, edge_rel (Graph_ s2) u v ↔ edge_rel (Graph_ s) u v).
Proof.
  apply (Filter_compose Scenario.abc_graph FilterLocal
           (FilterNotSources ["upstream"])).
  - apply (NewGraph_wf (Scenario.world (Scenario.local_resolver Scenario.abc))
             (Scenario.store_of Scenario.abc) [] _ None).
    vm_compute. reflexivity.
  - reflexivity.
Defined.

(** X15. The ready-made filters.  [FilterSources] keeps the packages whose source
    is one of the given ones and [FilterNotSources] the others;
    [FilterLocal] keeps the packages of the local source and
    [FilterNotLocal] those of any other source. *)
Theorem Filter_sources_spec source p :
  (FilterSources source p = true ↔ PSource p ∈ source) ∧
  (FilterNotSources source p = true ↔ PSource p ∉ source) ∧
  (FilterLocal p = true ↔ PSource p = Local) ∧
  (FilterNotLocal p = true ↔ PSource p ≠ Local).
Proof.
  assert (∀ l, existsb (fun s => bool_decide (PSource p = s)) l = true ↔
               PSource p ∈ l) as Hex.
  { intros l. rewrite existsb_exists. split.
    - intros (s & Hin & Hs). apply bool_decide_eq_true in Hs. subst.
      by apply list_elem_of_In.
    - intros Hin. exists (PSource p). split; [by apply list_elem_of_In|].
      by apply bool_decide_eq_true. }
  unfold FilterLocal, FilterNotLocal, FilterSources, FilterNotSources.
  rewrite !negb_true_iff, <- !not_true_iff_false, !Hex.
  split_and!; [done|done| |].
  - by rewrite list_elem_of_singleton.
  - by rewrite list_elem_of_singleton.
Qed.

(** ** The hash of a package *)

Lemma app_separator_inj c :
  ∀ s1 s2 r1 r2,
    has_char c s1 = false → has_char c s2 = false →
    s1 +:+ String c r1 = s2 +:+ String c r2 → s1 = s2 ∧ r1 = r2.
Proof.
  induction s1 as [|a s1 IH]; intros [|b s2] r1 r2; simpl; intros H1 H2 Heq.
  - by inversion Heq.
  - inversion Heq; subst. by rewrite bool_decide_eq_true_2 in H2.
  - inversion Heq; subst. by rewrite bool_decide_eq_true_2 in H1.
  - inversion Heq; subst.
    apply orb_false_iff in H1 as [_ H1], H2 as [_ H2].
    destruct (IH s2 r1 r2 H1 H2) as [-> ->]; done.
Qed.

(** X16. Two packages with the same hash have the same name, version and
    source, provided that their names have no colon and their versions no
    at sign, the separators of the hash. *)
Theorem packageHash_inj p q :
  has_char separator.colon (Name p) = false →
  has_char separator.colon (Name q) = false →
  has_char separator.at_sign (Version p) = false →
  has_char separator.at_sign (Version q) = false →
  packageHash p = packageHash q →
  Name p = Name q ∧ Version p = Version q ∧ PSource p = PSource q.
Proof.
  intros Hp Hq Hvp Hvq H. unfold packageHash in H.
  apply (app_separator_inj separator.colon) in H as [Hn H]; [|done..].
  apply (app_separator_inj separator.at_sign) in H as [Hv Hs]; [|done..].
  done.
Qed.

Lemma packageHash_inj_witness :
  let p := origin (Scenario.cfg "a" "1" []) in
  let q := externalPackage "a" "1" Local in
  Name p = Name q ∧ Version p = Version q ∧ PSource p = PSource q.
Proof.
  intros p q. apply (packageHash_inj p q); reflexivity.
Defined.

(** X17. The hash does not tell all packages apart: a version with an at
    sign can pass for a part of the source. *)
Theorem packageHash_collision :
  ∃ p q, packageHash p = packageHash q ∧ Version p ≠ Version q ∧
         PSource p ≠ PSource q.
Proof.
  exists (externalPackage "a" "1@x" "y"), (externalPackage "a" "1" "x@y").
  by split_and!.
Qed.

(** ** The packages that [Sorted] returns *)

Lemma Forall2_Vertex_fmap s order pkgs :
  Forall2 (fun n p => graph.Vertex s n = inr p) order pkgs →
  pkgs = (fun n => default (danglingPackage "") (graph.assoc n (graph.vertices s)))
         <$> order.
Proof.
  induction 1 as [|n p order pkgs Hv _ IH]; [done|].
  rewrite fmap_cons, <- IH. apply Vertex_inr in Hv. by rewrite Hv.
Qed.

Lemma assoc_keys_values {A} (d : A) (l : list (string * A)) :
  NoDup l.*1 →
  (fun n => default d (graph.assoc n l)) <$> l.*1 = l.*2.
Proof.
  intros Hnd. rewrite <- list_fmap_compose. apply Forall_fmap_ext.
  apply Forall_forall. intros [k a] Hin. simpl.
  by rewrite (assoc_elem_of k a l Hnd Hin).
Qed.

(** X18. On a well-formed graph [Sorted] and [ReverseSorted] return the
    packages of the graph, all of them and each once: the list is a
    rearrangement of the stored packages. *)
Theorem Sorted_complete g :
  wf (Graph_ g) →
  ∃ pkgs, Sorted g = inr pkgs ∧ ReverseSorted g = inr (reverse pkgs) ∧
    pkgs ≡ₚ (graph.vertices (Graph_ g)).*2 ∧ NoDup pkgs ∧
    ∀ p, p ∈ pkgs ↔ graph.Vertex (Graph_ g) (packageHash p) = inr p.
Proof.
  intros Hwf. pose proof (TopologicalSort_spec _ (wf_shaped _ Hwf)) as Hts.
  unfold ReverseSorted, Sorted.
  destruct (graph.TopologicalSort (Graph_ g)) as [err|order].
  { destruct Hts. apply Hwf. }
  destruct Hts as (Hperm & _).
  destruct (lookup_all_spec (Graph_ g) order) as (pkgs & Hpkgs & Hall).
  { intros n Hn. by rewrite <- Hperm. }
  rewrite Hpkgs. exists pkgs.
  assert (pkgs ≡ₚ (graph.vertices (Graph_ g)).*2) as Hp.
  { rewrite (Forall2_Vertex_fmap _ _ _ Hall), Hperm.
    unfold vkeys. rewrite assoc_keys_values; [done|apply Hwf]. }
  assert (∀ p, p ∈ pkgs ↔ graph.Vertex (Graph_ g) (packageHash p) = inr p) as Hin.
  { intros p. rewrite Hp. split.
    - intros Hin. apply list_elem_of_fmap in Hin as ([k q] & -> & Hin). simpl.
      rewrite <- (wf_hash _ Hwf _ _ Hin).
      apply Vertex_inr, assoc_elem_of; [apply Hwf|done].
    - intros Hv. apply Vertex_inr, assoc_Some in Hv.
      apply list_elem_of_fmap. by exists (packageHash p, p). }
  split_and!; [done|by rewrite reverse_loop_reverse|done| |done].
  rewrite Hp. apply (NoDup_fmap_1 packageHash).
  replace (packageHash <$> (graph.vertices (Graph_ g)).*2)
    with (vkeys (Graph_ g)); [apply Hwf|].
  unfold vkeys. rewrite <- list_fmap_compose. apply Forall_fmap_ext.
  apply Forall_forall. intros [k q] Hkq. simpl. by apply (wf_hash _ Hwf).
Qed.

Lemma Sorted_complete_witness :
  ∃ pkgs, Sorted Scenario.abc_graph = inr pkgs ∧
    ReverseSorted Scenario.abc_graph = inr (reverse pkgs) ∧
    pkgs ≡ₚ (graph.vertices (Graph_ Scenario.abc_graph)).*2 ∧ NoDup pkgs ∧
    ∀ p, p ∈ pkgs ↔
         graph.Vertex (Graph_ Scenario.abc_graph) (packageHash p) = inr p.
Proof.
  apply (Sorted_complete Scenario.abc_graph).
  apply (NewGraph_wf (Scenario.world (Scenario.local_resolver Scenario.abc))
           (Scenario.store_of Scenario.abc) [] _ None).
  vm_compute. reflexivity.
Defined.

(** ** Subgraphs *)

(** X19. [SubgraphWithRoots] fails with the error of the store, if the subset
    of the store cannot be taken.  Otherwise the graph it returns is built
    anew from that subset with no option: it holds the subset, every
    package of the subset is a vertex, there is no cycle, and the options
    of [g] are not kept, so that no package is dangling even if unresolved
    dependencies were allowed in [g]. *)
Theorem SubgraphWithRoots_spec (W : World) Sub g roots :
  (∀ err, Sub (packages g) roots = inl err →
          SubgraphWithRoots W Sub g roots = (None, Some err)) ∧
  (∀ sub,
     SubgraphWithRoots W Sub g roots = (Some sub, None) →
     Sub (packages g) roots = inr (packages sub) ∧
     opts sub = mkOptions false [] [] ∧
     acyclic (Graph_ sub) ∧
     (∀ c, c ∈ Packages_ (packages sub) →
           ∃ p, graph.Vertex (Graph_ sub) (packageHash (origin c)) = inr p ∧
                packageHash p = packageHash (origin c)) ∧
     (∀ k p, graph.Vertex (Graph_ sub) k = inr p →
             (∃ c, p = origin c) ∨ (∃ n v s, p = externalPackage n v s))).
Proof.
  unfold SubgraphWithRoots. split.
  - by intros err ->.
  - intros sub. destruct (Sub (packages g) roots) as [e|subPkgs]; [done|].
    intros H.
    pose proof (NewGraph_packages _ _ _ _ _ H) as Hp.
    pose proof (NewGraph_opts _ _ _ _ _ H) as Ho. simpl in Ho.
    assert (opts sub = mkOptions false [] []) as Ho' by congruence.
    split_and!.
    + by rewrite Hp.
    + done.
    + apply wf_acyclic. by eapply NewGraph_wf.
    + rewrite Hp. by eapply NewGraph_origins.
    + eapply NewGraph_undangling; [exact H|]. by rewrite Ho'.
Qed.

(** *** [SubgraphWithLeaves] *)

Section leaves_spec.

Context (ConfigByKey : string → option Configuration).
Context (s : graph.Graph) (leaves : list string).

Local Abbreviation sound := (walk_sound ConfigByKey s leaves).
Local Abbreviation cov := (covered ConfigByKey s).
Local Abbreviation R := (reaches s leaves).

Lemma walk_extends_refl st : walk_extends st st.
Proof. by split_and!. Qed.

Lemma walk_extends_trans st1 st2 st3 :
  walk_extends st1 st2 → walk_extends st2 st3 → walk_extends st1 st3.
Proof.
  intros (Ho & Hk & He & Hn) (Ho' & Hk' & He' & Hn'). split_and!; [congruence|auto..].
Qed.

Lemma covered_mono st st' k :
  walk_extends st st' → cov st k → cov st' k.
Proof.
  intros (_ & Hk & He & Hn) (Hin' & (c & Hc & Hin) & Hedges). split_and!.
  - by apply Hn.
  - exists c. split; [done|]. by apply Hk.
  - intros u Hu. by apply He, Hedges.
Qed.

Lemma reaches_pred d key : edge_rel s d key → R key → R d.
Proof.
  intros He (leaf & Hl & Hr). exists leaf. split; [done|]. by eapply rtc_l.
Qed.

(** Adding the package of a key that reaches a leaf. *)
Lemma walk_addVertex key c sub names sub1 err :
  R key → ConfigByKey key = Some c →
  sound (sub, names) →
  addVertex sub (origin c) = (sub1, err) →
  failed_other_than ErrVertexAlreadyExists err = None ∧
  sound (sub1, names) ∧ walk_extends (sub, names) (sub1, names) ∧
  packageHash (origin c) ∈ vkeys (Graph_ sub1).
Proof.
  intros HR Hc (Hwf & Hix & He & Hv & Hn) Hadd. simpl in *.
  pose proof (indexed_addVertex sub (origin c) Hix) as Hix1.
  rewrite Hadd in Hix1. simpl in Hix1.
  pose proof (addVertex_wf _ _ _ _ Hadd Hwf) as Hwf1.
  pose proof (addVertex_quiet _ _ _ _ Hadd) as [(_ & Ho & Hk & Hedges) Hin].
  pose proof (addVertex_spec _ _ _ _ Hadd) as (Hlib & _).
  split_and!.
  - by apply AddVertex_spec in Hlib as [(-> & _)|(-> & _)].
  - split_and!; simpl; [done|done| | |done].
    + intros u v Huv. apply He. by apply (edge_rel_edges _ _ Hedges).
    + intros k p Hp.
      apply (Vertex_AddVertex _ _ _ _ _ _ Hlib) in Hp as [Hp|(_ & _ & ->)];
        [by eapply Hv|]. by exists key, c.
  - split_and!; simpl; [done|done| |done].
    intros u v Huv. by apply (edge_rel_edges _ _ Hedges).
  - done.
Qed.

(** Adding the edge from a predecessor. *)
Lemma walk_AddEdge d key sub names s1 err :
  edge_rel s d key → R key →
  sound (sub, names) →
  graph.AddEdge (Graph_ sub) d key [] = (s1, err) →
  failed_other_than ErrEdgeAlreadyExists err = None →
  sound (with_store sub s1, names) ∧
  walk_extends (sub, names) (with_store sub s1, names) ∧
  edge_rel s1 d key.
Proof.
  intros Hd HR (Hwf & Hix & He & Hv & Hn) Hadd Hok. simpl in *.
  pose proof (AddEdge_wf _ _ _ _ _ _ Hadd Hwf) as Hwf1.
  pose proof (AddEdge_keys _ _ _ _ _ _ Hadd) as Hkeys.
  pose proof (AddEdge_tolerated _ _ _ _ _ _ Hadd Hok) as (Hedge & _).
  split_and!.
  - split_and!; simpl; [done|by apply indexed_store| | |done].
    + intros u v Huv.
      apply AddEdge_spec in Hadd as [(-> & _)|(_ & _ & _ & _ & _ & ->)];
        [by apply He|].
      apply edge_rel_snoc in Huv as [Huv|[-> ->]]; [by apply He|done].
    + intros k p Hp. apply (Hv k). unfold graph.Vertex in *. by rewrite <- Hkeys.
  - split_and!; simpl; [done| |intros u v; by eapply AddEdge_mono|done].
    intros k. unfold vkeys. by rewrite Hkeys.
  - done.
Qed.

Section dependents.

Context (walk_rec : string → walk_state → option (error + walk_state)).
Context (key : string).
Hypothesis Hkey : R key.
Hypothesis walk_rec_spec :
  ∀ d st st',
    R d → sound st → walk_rec d st = Some (inr st') →
    sound st' ∧ walk_extends st st' ∧ ∀ k, rtc (edge_rel s) k d → cov st' k.

Lemma dependents_spec deps :
  ∀ st st',
    (∀ d, d ∈ deps → edge_rel s d key) →
    sound st →
    dependents ConfigByKey walk_rec key deps st = Some (inr st') →
    sound st' ∧ walk_extends st st' ∧
    ∀ d, d ∈ deps →
         edge_rel (Graph_ st'.1) d key ∧ ∀ k, rtc (edge_rel s) k d → cov st' k.
Proof.
  induction deps as [|d deps IH]; intros st st' Hdeps Hs; simpl.
  { intros H; inversion H; subst. split_and!; [done|apply walk_extends_refl|].
    intros d Hd. by apply elem_of_nil in Hd. }
  assert (edge_rel s d key) as Hd by (apply Hdeps; left).
  pose proof (reaches_pred _ _ Hd Hkey) as HRd.
  destruct (ConfigByKey d) as [c|] eqn:Hc; [|done].
  destruct st as [sub names]. simpl.
  destruct (addVertex sub (origin c)) as [sub1 e1] eqn:Hv.
  destruct (walk_addVertex _ _ _ _ _ _ HRd Hc Hs Hv) as (-> & Hs1 & Hx1 & _).
  destruct (graph.AddEdge (Graph_ sub1) d key []) as [s1 e2] eqn:Ha.
  destruct (failed_other_than ErrEdgeAlreadyExists e2) eqn:Hf; [done|].
  destruct (walk_AddEdge _ _ _ _ _ _ Hd Hkey Hs1 Ha Hf) as (Hs2 & Hx2 & He2).
  destruct (walk_rec d (with_store sub1 s1, names)) as [[e|st3]|] eqn:Hw;
    [done| |done].
  destruct (walk_rec_spec _ _ _ HRd Hs2 Hw) as (Hs3 & Hx3 & Hc3).
  intros H. destruct (IH st3 st' (fun d' Hd' => Hdeps d' (list_elem_of_further _ _ _ Hd')) Hs3 H)
    as (Hs' & Hx' & Hc').
  split_and!; [done| |].
  - eapply walk_extends_trans; [exact Hx1|].
    eapply walk_extends_trans; [exact Hx2|].
    eapply walk_extends_trans; [exact Hx3|exact Hx'].
  - intros d' Hd'. apply elem_of_cons in Hd' as [->|Hd']; [|by apply Hc'].
    split.
    + destruct Hx' as (_ & _ & He' & _), Hx3 as (_ & _ & He3 & _).
      by apply He', He3.
    + intros k Hk. eapply covered_mono; [exact Hx'|]. by apply Hc3.
Qed.

End dependents.

Lemma walk_spec fuel :
  ∀ key st st',
    R key → sound st →
    walk ConfigByKey (graph.edges s) fuel key st = Some (inr st') →
    sound st' ∧ walk_extends st st' ∧ ∀ k, rtc (edge_rel s) k key → cov st' k.
Proof.
  induction fuel as [|fuel IH]; intros key st st' HR Hs; simpl; [done|].
  destruct (ConfigByKey key) as [c|] eqn:Hc; [|done].
  destruct st as [sub names]. simpl.
  destruct (addVertex sub (origin c)) as [sub1 e1] eqn:Hv.
  destruct (walk_addVertex _ _ _ _ _ _ HR Hc Hs Hv) as (-> & Hs1 & Hx1 & Hin).
  intros H.
  assert (sound (sub1, names ++ [key])) as Hs1'.
  { destruct Hs1 as (? & ? & ? & ? & Hn). split_and!; [done..|].
    simpl. intros n Hn'. apply elem_of_app in Hn' as [Hn'|Hn']; [by apply Hn|].
    by apply list_elem_of_singleton in Hn' as ->. }
  assert (walk_extends (sub, names) (sub1, names ++ [key])) as Hx1'.
  { destruct Hx1 as (? & ? & ? & _). split_and!; [done..|].
    simpl. intros n Hn. apply elem_of_app. by left. }
  destruct (dependents_spec (walk ConfigByKey (graph.edges s) fuel) key HR IH
              (graph.preds (graph.edges s) key) _ _
              (fun d Hd => proj1 (elem_of_preds _ _ _) Hd) Hs1' H)
    as (Hs' & Hx' & Hc').
  split_and!; [done|by eapply walk_extends_trans|].
  intros k Hk. apply rtc_inv_r in Hk as [->|(d & Hk & Hd)].
  - destruct Hx' as (_ & Hkeys & _ & Hnames). split_and!.
    + apply Hnames. simpl. apply elem_of_app. right. by left.
    + exists c. split; [done|]. by apply Hkeys.
    + intros u Hu. destruct (Hc' u) as [? _]; [by apply elem_of_preds|done].
  - destruct (Hc' d) as [_ Hcd]; [by apply elem_of_preds|]. by apply Hcd.
Qed.

Lemma walk_leaves_spec fuel ls :
  ∀ st st',
    (∀ l, l ∈ ls → l ∈ leaves) → sound st →
    walk_leaves ConfigByKey (graph.edges s) fuel ls st = Some (inr st') →
    sound st' ∧ walk_extends st st' ∧
    ∀ l k, l ∈ ls → rtc (edge_rel s) k l → cov st' k.
Proof.
  induction ls as [|l ls IH]; intros st st' Hls Hs; simpl.
  { intros H; inversion H; subst. split_and!; [done|apply walk_extends_refl|].
    intros l k Hl. by apply elem_of_nil in Hl. }
  destruct (walk ConfigByKey (graph.edges s) fuel l st) as [[e|st1]|] eqn:Hw;
    [done| |done].
  assert (R l) as HR by (exists l; split; [apply Hls; left|done]).
  destruct (walk_spec _ _ _ _ HR Hs Hw) as (Hs1 & Hx1 & Hc1).
  intros H.
  destruct (IH st1 st' (fun l' Hl' => Hls l' (list_elem_of_further _ _ _ Hl')) Hs1 H)
    as (Hs' & Hx' & Hc').
  split_and!; [done|by eapply walk_extends_trans|].
  intros l' k Hl' Hk. apply elem_of_cons in Hl' as [->|Hl']; [|by eapply Hc'].
  eapply covered_mono; [exact Hx'|]. by apply Hc1.
Qed.

End leaves_spec.

(** The walk returns: in a graph with a topological order a walk from a
    vertex is no deeper than the position of the vertex in that order. *)
Section walk_returns.

Context (ConfigByKey : string → option Configuration).
Context (E : list graph.Edge) (order : list string).
Hypothesis Hnd : NoDup order.
Hypothesis Hsorted : ∀ u v, edge_in E u v → before u v order.

Lemma dependents_returns walk_rec key deps :
  (∀ d st, d ∈ deps → walk_rec d st ≠ None) →
  ∀ st, dependents ConfigByKey walk_rec key deps st ≠ None.
Proof.
  induction deps as [|d deps IH]; intros Hrec st; simpl; [done|].
  destruct (ConfigByKey d); [|done].
  destruct (addVertex st.1 _) as [sub1 e1].
  destruct (failed_other_than ErrVertexAlreadyExists e1); [done|].
  destruct (graph.AddEdge (Graph_ sub1) d key []) as [s1 e2].
  destruct (failed_other_than ErrEdgeAlreadyExists e2); [done|].
  destruct (walk_rec d (with_store sub1 s1, st.2)) as [[e|st']|] eqn:Hw.
  - done.
  - apply IH. intros d' st'' Hd'. apply Hrec. by right.
  - by destruct (Hrec d (with_store sub1 s1, st.2) ltac:(by left)).
Qed.

Lemma walk_returns fuel :
  ∀ key st,
    (∀ l1 l3, order = l1 ++ key :: l3 → length l1 < fuel) → 0 < fuel →
    walk ConfigByKey E fuel key st ≠ None.
Proof.
  induction fuel as [|fuel IH]; intros key st Hpos H0; simpl; [lia|].
  destruct (ConfigByKey key); [|done].
  destruct (addVertex st.1 _) as [sub1 e1].
  destruct (failed_other_than ErrVertexAlreadyExists e1); [done|].
  apply dependents_returns. intros d st' Hd.
  apply elem_of_preds in Hd. destruct (Hsorted d key Hd) as (l1 & l2 & l3 & Ho).
  assert (length l1 < fuel) as Hlt.
  { specialize (Hpos (l1 ++ d :: l2) l3).
    rewrite <- app_assoc, <- app_comm_cons in Hpos. specialize (Hpos Ho).
    rewrite length_app in Hpos. simpl in Hpos. lia. }
  apply IH; [|lia]. intros l1' l3' Ho'.
  rewrite Ho in Ho'. rewrite Ho in Hnd.
  apply NoDup_split_unique in Ho' as [<- _]; done.
Qed.

Lemma walk_leaves_returns fuel ls :
  length order < fuel →
  ∀ st, walk_leaves ConfigByKey E fuel ls st ≠ None.
Proof.
  intros Hlen. induction ls as [|l ls IH]; intros st; simpl; [done|].
  destruct (walk ConfigByKey E fuel l st) as [[e|st']|] eqn:Hw; [done|apply IH|].
  exfalso. revert Hw. apply walk_returns; [|lia].
  intros l1 l3 Ho. rewrite Ho in Hlen. rewrite length_app in Hlen. lia.
Qed.

End walk_returns.

(** X22. On a well-formed graph [SubgraphWithLeaves] returns: the graph has no
    cycle, so that no chain of calls of the walk is longer than the
    vertices are many. *)
Theorem SubgraphWithLeaves_returns ConfigByKey Sub g leaves :
  wf (Graph_ g) →
  ∃ r, SubgraphWithLeaves ConfigByKey Sub g leaves = Some r ∧
       ((∃ sub, r = (Some sub, None)) ∨ (∃ err, r = (None, Some err))).
Proof.
  intros Hwf. pose proof (TopologicalSort_spec _ (wf_shaped _ Hwf)) as Hts.
  destruct (graph.TopologicalSort (Graph_ g)) as [err|order].
  { destruct Hts. apply Hwf. }
  destruct Hts as (Hperm & Hbefore & _).
  unfold SubgraphWithLeaves.
  match goal with
  | |- context [walk_leaves ?c ?e ?f ?l ?st] =>
      pose proof (walk_leaves_returns c e order) as Hr;
      destruct (walk_leaves c e f l st) as [[e'|[sub names]]|] eqn:Hw
  end.
  - eexists. split; [done|]. right. eauto.
  - destruct (Sub (packages g) names) as [e'|subPkgs];
      (eexists; split; [done|]); [right|left]; eauto.
  - exfalso. revert Hw. apply Hr.
    + rewrite Hperm. apply Hwf.
    + intros u v Huv. by apply Hbefore.
    + rewrite Hperm. unfold vkeys. rewrite length_fmap. lia.
Qed.

Lemma SubgraphWithLeaves_returns_witness :
  ∃ r, SubgraphWithLeaves Leaves.by_hash Leaves.whole Scenario.abc_graph
         ["C:1@local"] = Some r ∧
       ((∃ sub, r = (Some sub, None)) ∨ (∃ err, r = (None, Some err))).
Proof.
  apply (SubgraphWithLeaves_returns _ _ Scenario.abc_graph).
  apply (NewGraph_wf (Scenario.world (Scenario.local_resolver Scenario.abc))
           (Scenario.store_of Scenario.abc) [] _ None).
  vm_compute. reflexivity.
Defined.

(** X23. The graph that [SubgraphWithLeaves] returns has the options of [g] and
    the sub-store of the names the walk collected, which are the keys that
    are a leaf or depend on one.  It has no cycle; its edges are the edges
    of [g] into such a key; its vertices are packages the store has for such
    keys, and it has one for each of them. *)
Theorem SubgraphWithLeaves_spec ConfigByKey Sub g leaves sub :
  SubgraphWithLeaves ConfigByKey Sub g leaves = Some (Some sub, None) →
  opts sub = opts g ∧
  (∃ names, Sub (packages g) names = inr (packages sub) ∧
            ∀ k, k ∈ names ↔ reaches (Graph_ g) leaves k) ∧
  acyclic (Graph_ sub) ∧
  (∀ u v, edge_rel (Graph_ sub) u v ↔
          edge_rel (Graph_ g) u v ∧ reaches (Graph_ g) leaves v) ∧
  (∀ k p, graph.Vertex (Graph_ sub) k = inr p →
          ∃ k' c, reaches (Graph_ g) leaves k' ∧
                  ConfigByKey (packages g) k' = Some c ∧ p = origin c) ∧
  (∀ k, reaches (Graph_ g) leaves k →
        ∃ c, ConfigByKey (packages g) k = Some c ∧
             packageHash (origin c) ∈ vkeys (Graph_ sub)).
Proof.
  unfold SubgraphWithLeaves.
  set (sub0 := mkG newGraph (mkPackages [] (fun _ => [])) (opts g) ∅).
  destruct (walk_leaves _ _ _ leaves (sub0, [])) as [[e|[sub1 names]]|] eqn:Hw;
    [done| |done].
  destruct (Sub (packages g) names) as [e|subPkgs] eqn:Hsub; [done|].
  intros H; inversion H; subst. simpl.
  apply walk_leaves_spec with (leaves := leaves) in Hw
    as ((Hwf & _ & He & Hv & Hn) & (Ho & _) & Hc); simpl in *; [| done |].
  2:{ split_and!; simpl.
      - apply wf_new.
      - intros name. simpl. by rewrite lookup_empty.
      - intros u v (e & Hin & _). by apply elem_of_nil in Hin.
      - intros k p Hp. done.
      - intros n Hin. by apply elem_of_nil in Hin. }
  split_and!.
  - done.
  - exists names. split; [done|]. intros k. split; [apply Hn|].
    intros (l & Hl & Hk). by destruct (Hc l k Hl Hk) as (? & _).
  - apply Hwf.
  - intros u v. split; [apply He|].
    intros (Huv & l & Hl & Hk). destruct (Hc l v Hl Hk) as (_ & _ & Hedges).
    by apply Hedges.
  - done.
  - intros k (l & Hl & Hk). by destruct (Hc l k Hl Hk) as (_ & ? & _).
Qed.

Lemma SubgraphWithLeaves_spec_witness :
  let g := Scenario.abc_graph in
  let leaves := ["C:1@local"] in
  opts Leaves.sub = opts g ∧
  (∃ names, Leaves.whole (packages g) names = inr (packages Leaves.sub) ∧
            ∀ k, k ∈ names ↔ reaches (Graph_ g) leaves k) ∧
  acyclic (Graph_ Leaves.sub) ∧
  (∀ u v, edge_rel (Graph_ Leaves.sub) u v ↔
          edge_rel (Graph_ g) u v ∧ reaches (Graph_ g) leaves v) ∧
  (∀ k p, graph.Vertex (Graph_ Leaves.sub) k = inr p →
          ∃ k' c, reaches (Graph_ g) leaves k' ∧
                  Leaves.by_hash (packages g) k' = Some c ∧ p = origin c) ∧
  (∀ k, reaches (Graph_ g) leaves k →
        ∃ c, Leaves.by_hash (packages g) k = Some c ∧
             packageHash (origin c) ∈ vkeys (Graph_ Leaves.sub)).
Proof.
  intros g leaves.
  apply (SubgraphWithLeaves_spec Leaves.by_hash Leaves.whole g leaves Leaves.sub).
  vm_compute. reflexivity.
Defined.

(** In the scenario the subgraph has the three packages and the two
    edges. *)
Example SubgraphWithLeaves_abc :
  vkeys (Graph_ Leaves.sub) = ["C:1@local"; "B:1@local"; "A:1@local"] ∧
  ends <$> graph.edges (Graph_ Leaves.sub) =
  [("B:1@local", "C:1@local"); ("A:1@local", "B:1@local")].
Proof. vm_compute. split; reflexivity. Qed.

(** ** The key map of a package *)

Lemma load_keys_lookup (W : World) all :
  ∀ m0 m,
    load_keys W all m0 = inr m →
    (∀ k, k ∈ all → (getKeyMaterial W k).2 = None) ∧
    ∀ k, m !! k =
         match (if decide (k ∈ all) then (getKeyMaterial W k).1 else None) with
         | Some b => Some b
         | None => m0 !! k
         end.
Proof.
  induction all as [|key rest IH]; intros m0 m; cbn [load_keys].
  { intros H; inversion H; subst. split.
    - intros k Hk. by apply elem_of_nil in Hk.
    - intros k. rewrite decide_False; [done|]. apply not_elem_of_nil. }
  destruct (getKeyMaterial W key) as [b [e|]] eqn:Hkey; [by destruct b|].
  assert (∀ m1,
    load_keys W rest m1 = inr m →
    m1 !! key = match b with Some x => Some x | None => m0 !! key end →
    (∀ k, k ≠ key → m1 !! k = m0 !! k) →
    (∀ k, k ∈ key :: rest → (getKeyMaterial W k).2 = None) ∧
    ∀ k, m !! k =
         match (if decide (k ∈ key :: rest) then (getKeyMaterial W k).1 else None) with
         | Some b => Some b
         | None => m0 !! k
         end) as Hstep.
  { intros m1 H Hk1 Hother. destruct (IH m1 m H) as [Herr Hlook]. split.
    - intros k Hk. apply elem_of_cons in Hk as [->|Hk]; [by rewrite Hkey|by apply Herr].
    - intros k. rewrite Hlook.
      destruct (decide (k = key)) as [->|Hne].
      + rewrite (decide_True (P := key ∈ key :: rest)) by by left.
        rewrite Hkey. simpl.
        destruct (decide (key ∈ rest)); [|by rewrite Hk1].
        destruct b; [done|by rewrite Hk1].
      + destruct (decide (k ∈ rest)) as [Hin|Hnin].
        * rewrite (decide_True (P := k ∈ key :: rest)) by by right.
          destruct (getKeyMaterial W k).1; [done|by apply Hother].
        * rewrite (decide_False (P := k ∈ key :: rest)).
          -- by apply Hother.
          -- intros Hin. by apply elem_of_cons in Hin as [?|?]. }
  destruct b as [b|]; intros H; apply (Hstep _ H).
  - by rewrite lookup_insert_eq.
  - intros k Hne. by rewrite lookup_insert_ne.
  - done.
  - done.
Qed.

(** X24. The key map that the loading of the repositories of a package gets:
    it holds, under the key as it is written, the material of every key of
    the package and of the options that could be read, and nothing else; a
    local key file that does not exist is left out without an error.  The
    loop over the keys fails at the first key that gives an error, with
    that error wrapped. *)
Theorem load_keys_spec (W : World) all :
  match load_keys W all ∅ with
  | inr keyMap =>
      (∀ k, k ∈ all → (getKeyMaterial W k).2 = None) ∧
      ∀ k b, keyMap !! k = Some b ↔ k ∈ all ∧ getKeyMaterial W k = (Some b, None)
  | inl err =>
      ∃ before key after e,
        all = before ++ key :: after ∧
        (∀ k, k ∈ before → (getKeyMaterial W k).2 = None) ∧
        (getKeyMaterial W key).2 = Some e ∧
        err = Errorf KeyMaterial (Some e)
  end.
Proof.
  destruct (load_keys W all ∅) as [err|keyMap] eqn:H.
  - revert H. generalize (∅ : gmap string (list byte)).
    induction all as [|key rest IH]; intros m0; simpl; [done|].
    destruct (getKeyMaterial W key) as [b [e|]] eqn:Hkey.
    + intros H. exists [], key, rest, e. rewrite Hkey.
      split_and!; [done| |done|by destruct b; inversion H].
      intros k Hk. by apply elem_of_nil in Hk.
    + intros H.
      assert (∃ m1, load_keys W rest m1 = inl err) as [m1 H1]
        by (destruct b; eauto).
      destruct (IH m1 H1) as (before & key' & after & e & -> & Hb & He & ->).
      exists (key :: before), key', after, e. split_and!; [done| |done|done].
      intros k Hk. apply elem_of_cons in Hk as [->|Hk]; [by rewrite Hkey|by apply Hb].
  - apply load_keys_lookup in H as [Herr Hlook]. split; [done|].
    intros k b. rewrite Hlook, lookup_empty.
    destruct (decide (k ∈ all)) as [Hin|Hnin].
    + specialize (Herr k Hin).
      destruct (getKeyMaterial W k) as [b' e']. simpl in *. subst e'.
      destruct b' as [b'|]; split.
      * intros Hb; inversion Hb; by subst.
      * intros [_ Hb]; by inversion Hb.
      * done.
      * intros [_ Hb]; by inversion Hb.
    + split; [done|]. by intros [? _].
Qed.
